(** * Verification of the autograder harness of ml_example.py and of the
      models of models.py

    Four parts of the program are embedded here:

    - [Tracer]: the graph tracer [trace_node] (ml_example.py, lines 193-209),
      a recursive post-order traversal of a computation graph along the
      [parents] attribute of its nodes;
    - [Harness]: the [Tracker] class (lines 14-79), the test registry
      (lines 81-95) and the driver [main] (lines 97-126);
    - [Checks]: the graphics switches (lines 156-164) and [verify_node]
      (lines 166-191);
    - [Models]: the training loops of [PerceptronModel] and
      [DigitClassificationModel], and the graphs that
      [DigitClassificationModel] and [LanguageIDModel] build (models.py).

    Python objects are compared by identity, so a node is its identity (a
    natural number); dictionaries are finite maps, Python sets are finite
    sets, Python integers are [Z]. *)

From Stdlib Require Import ZArith Lia.
From Stdlib Require QArith.
From stdpp Require Import gmap strings list sorting relations.

(** ** The graph tracer *)

Module Tracer.

(** A computation graph is the finite store of its interior node objects: the
    map sends the identity of a node to its [parents] list, in list order.
    An identity that is absent from the map is a leaf object, whose
    [parents] list is empty (as for the parameter and constant nodes of the
    tensor library). *)
Definition parents (g : gmap nat (list nat)) (n : nat) : list nat :=
  default [] (g !! n).

(** [parent_of g p n]: [p] occurs in [n.parents]. *)
Definition parent_of (g : gmap nat (list nat)) (p n : nat) : Prop :=
  p ∈ parents g n.

(** [m] is [n] or one of its ancestors. *)
Definition reachable (g : gmap nat (list nat)) (m n : nat) : Prop :=
  rtc (parent_of g) m n.

(** No node is its own ancestor. *)
Definition acyclic (g : gmap nat (list nat)) : Prop :=
  ∀ n, ¬ tc (parent_of g) n n.

(** The two local variables of [trace_node] that the closure [visit]
    mutates: the set [nodes] and the list [tape]. *)
Record state := State { nodes : gset nat; tape : list nat }.

(** [nodes.add(node); tape.append(node)] *)
Definition record_node (n : nat) (st : state) : state :=
  {| nodes := {[n]} ∪ nodes st; tape := tape st ++ [n] |}.

(** [for parent in ps: v(parent)], threading the mutated state; [None] is
    propagated (the recursion ran out of depth). *)
Fixpoint for_each (v : nat → state → option state) (ps : list nat)
    (st : state) : option state :=
  match ps with
  | [] => Some st
  | p :: ps' =>
      match v p st with
      | Some st' => for_each v ps' st'
      | None => None
      end
  end.

(** The closure [visit] (lines 200-205).  [depth] bounds the depth of the
    recursion: a call at depth [0] does not return. *)
Fixpoint visit (g : gmap nat (list nat)) (depth : nat) (n : nat) (st : state)
    : option state :=
  match depth with
  | 0 => None
  | S depth' =>
      if decide (n ∈ nodes st) then Some st
      else
        match for_each (visit g depth') (parents g n) st with
        | Some st' => Some (record_node n st')
        | None => None
        end
  end.

Definition initial : state := {| nodes := ∅; tape := [] |}.

(** [trace_node] up to its [return]: the final values of both locals. *)
Definition trace_node_run (g : gmap nat (list nat)) (depth : nat) (root : nat)
    : option state :=
  visit g depth root initial.

(** [trace_node] (lines 193-209): the returned value is the set [nodes]. *)
Definition trace_node (g : gmap nat (list nat)) (depth : nat) (root : nat)
    : option (gset nat) :=
  nodes <$> trace_node_run g depth root.

(** A decidable certificate of acyclicity: a rank that strictly decreases
    from every node to each of its parents. *)
Definition ranked (g : gmap nat (list nat)) (rank : nat → nat) : bool :=
  forallb (λ '(n, ps), forallb (λ p, rank p <? rank n) ps) (map_to_list g).

(** The diamond of the specification: A = 0, B = 1, C = 2, D = 3, with
    D.parents = [B, C], B.parents = [A], C.parents = [A], A.parents = []. *)
Definition diamond : gmap nat (list nat) :=
  <[3 := [1; 2]]> (<[2 := [0]]> (<[1 := [0]]> (<[0 := []]> ∅))).

(** *** Invariants of the traversal *)

(** Every parent of a visited node is visited. *)
Definition closed (g : gmap nat (list nat)) (st : state) : Prop :=
  ∀ n p, n ∈ nodes st → parent_of g p n → p ∈ nodes st.

(** The tape lists the visited set without repetition. *)
Definition tape_ok (st : state) : Prop :=
  NoDup (tape st) ∧ ∀ n, n ∈ tape st ↔ n ∈ nodes st.

Lemma initial_closed g : closed g initial.
Proof. intros n p Hn. simpl in Hn. set_solver. Qed.

Lemma initial_tape_ok : tape_ok initial.
Proof. split; [constructor | simpl; set_solver]. Qed.

Lemma closed_reachable g st m n :
  closed g st → reachable g m n → n ∈ nodes st → m ∈ nodes st.
Proof.
  intros Hcl Hr. induction Hr as [|x y z Hxy _ IH]; [done|].
  intros Hz. apply (Hcl y x); auto.
Qed.

Lemma parent_in_dom g p n : parent_of g p n → n ∈ dom g.
Proof.
  unfold parent_of, parents. intros Hp. apply elem_of_dom.
  destruct (g !! n); [eauto | simpl in Hp; set_solver].
Qed.

Lemma ranked_parent g rank p n :
  ranked g rank = true → parent_of g p n → rank p < rank n.
Proof.
  unfold ranked, parent_of, parents. intros Hr Hp.
  destruct (g !! n) as [ps|] eqn:Hg; [|simpl in Hp; set_solver].
  simpl in Hp. rewrite forallb_forall in Hr.
  specialize (Hr (n, ps)). simpl in Hr.
  assert (Hin : In (n, ps) (map_to_list g)).
  { apply list_elem_of_In, elem_of_map_to_list. exact Hg. }
  specialize (Hr Hin). rewrite forallb_forall in Hr.
  apply Nat.ltb_lt, Hr, list_elem_of_In, Hp.
Qed.

Lemma ranked_acyclic g rank : ranked g rank = true → acyclic g.
Proof.
  intros Hr n Hn.
  assert (Hlt : ∀ a b, tc (parent_of g) a b → rank a < rank b).
  { intros a b Hab. induction Hab as [a b Hab | a b c Hab _ IH].
    - eapply ranked_parent; eauto.
    - pose proof (ranked_parent _ _ _ _ Hr Hab). lia. }
  specialize (Hlt n n Hn). lia.
Qed.

(** *** Running out of depth is the only way to fail, and more depth
    never hurts *)

Lemma for_each_mono (v v' : nat → state → option state) ps :
  (∀ p st st', v p st = Some st' → v' p st = Some st') →
  ∀ st st', for_each v ps st = Some st' → for_each v' ps st = Some st'.
Proof.
  intros Hv. induction ps as [|p ps IH]; intros st st' H; simpl in *; [done|].
  destruct (v p st) as [st1|] eqn:E; [|done].
  rewrite (Hv _ _ _ E). auto.
Qed.

Lemma visit_mono g d d' n st st' :
  d ≤ d' → visit g d n st = Some st' → visit g d' n st = Some st'.
Proof.
  revert d' n st st'. induction d as [|d IH]; intros d' n st st' Hle H.
  - discriminate.
  - destruct d' as [|d']; [lia|]. simpl in *.
    destruct (decide (n ∈ nodes st)); [done|].
    destruct (for_each (visit g d) (parents g n) st) as [st1|] eqn:E; [|done].
    rewrite (for_each_mono (visit g d) (visit g d') (parents g n)) with (st' := st1);
      [done| |done].
    intros p s s' Hp. apply IH; [lia|done].
Qed.

Lemma for_each_total (v : nat → state → option state) ps :
  (∀ p st, p ∈ ps → is_Some (v p st)) →
  ∀ st, is_Some (for_each v ps st).
Proof.
  induction ps as [|p ps IH]; intros Hv st; simpl; [eauto|].
  destruct (Hv p st) as [st1 ->]; [left|].
  apply IH. intros q s Hq. apply Hv. by right.
Qed.

(** The nodes on the current recursion path are pairwise distinct interior
    nodes of an acyclic graph, so the path is no longer than the store. *)
Lemma visit_total_path g :
  acyclic g →
  ∀ depth n (X : gset nat) st,
    (∀ x, x ∈ X → tc (parent_of g) n x) →
    size (dom g ∖ X) < depth →
    is_Some (visit g depth n st).
Proof.
  intros Hac. induction depth as [|d IH]; intros n X st HX Hsz; [lia|].
  simpl. destruct (decide (n ∈ nodes st)); [eauto|].
  destruct (for_each_total (visit g d) (parents g n)) with (st := st)
    as [st1 ->]; [|eauto].
  intros p s Hp.
  assert (Hdom : n ∈ dom g) by (eapply parent_in_dom; exact Hp).
  assert (HnX : n ∉ X) by (intros Hin; exact (Hac n (HX n Hin))).
  apply (IH p (X ∪ {[n]})).
  - intros x [Hx | Hx%elem_of_singleton]%elem_of_union.
    + eapply tc_l; [exact Hp | exact (HX x Hx)].
    + subst x. apply tc_once. exact Hp.
  - assert (Hlt : size (dom g ∖ (X ∪ {[n]})) < size (dom g ∖ X)).
    { apply subset_size. split.
      - intros x [Hx Hnx]%elem_of_difference. apply elem_of_difference.
        split; [done|]. intros Hin. apply Hnx, elem_of_union. by left.
      - intros Hsub. specialize (Hsub n). rewrite !elem_of_difference in Hsub.
        destruct Hsub as [_ Hn]; [done|].
        apply Hn, elem_of_union. right. by apply elem_of_singleton. }
    lia.
Qed.

Lemma visit_total g depth n st :
  acyclic g → size g < depth → is_Some (visit g depth n st).
Proof.
  intros Hac Hsz. apply (visit_total_path g Hac depth n ∅ st).
  - set_solver.
  - rewrite difference_empty_L, size_dom. exact Hsz.
Qed.

(** *** What a returning call has done *)

Lemma record_node_tape_ok n st : n ∉ nodes st → tape_ok st → tape_ok (record_node n st).
Proof.
  intros Hn [Hnd Heq]. split; simpl.
  - apply NoDup_app. split; [done|]. split.
    + intros x Hx ->%list_elem_of_singleton. apply Hn, Heq, Hx.
    + apply NoDup_singleton.
  - intros m. rewrite elem_of_app, list_elem_of_singleton, elem_of_union,
      elem_of_singleton, Heq. tauto.
Qed.

(** The loop over a parent list, given what each call in it does. *)
Lemma for_each_spec g (v : nat → state → option state) ps :
  (∀ p st st', v p st = Some st' → closed g st → tape_ok st →
     closed g st' ∧ tape_ok st' ∧
     ∀ m, m ∈ nodes st' ↔ m ∈ nodes st ∨ reachable g m p) →
  ∀ st st', for_each v ps st = Some st' → closed g st → tape_ok st →
    closed g st' ∧ tape_ok st' ∧
    ∀ m, m ∈ nodes st' ↔ m ∈ nodes st ∨ ∃ p, p ∈ ps ∧ reachable g m p.
Proof.
  intros Hv. induction ps as [|p ps IH]; intros st st' H Hcl Htp; simpl in H.
  - injection H as <-. split; [done|split; [done|]]. intros m. split; [auto|].
    intros [?|(p & Hp & _)]; [done|]. by apply elem_of_nil in Hp.
  - destruct (v p st) as [st1|] eqn:E; [|done].
    destruct (Hv _ _ _ E Hcl Htp) as (Hcl1 & Htp1 & Hn1).
    destruct (IH _ _ H Hcl1 Htp1) as (Hcl' & Htp' & Hn').
    split; [done|split; [done|]]. intros m. rewrite Hn', Hn1. split.
    + intros [[?|?]|(q & Hq & Hr)]; [by left| |].
      * right. exists p. split; [left|done].
      * right. exists q. split; [by right|done].
    + intros [?|(q & Hq & Hr)]; [by left; left|].
      apply elem_of_cons in Hq as [->|Hq]; [by left; right|].
      right. by exists q.
Qed.

Lemma visit_spec g :
  acyclic g →
  ∀ depth n st st', visit g depth n st = Some st' → closed g st → tape_ok st →
    closed g st' ∧ tape_ok st' ∧
    ∀ m, m ∈ nodes st' ↔ m ∈ nodes st ∨ reachable g m n.
Proof.
  intros Hac. induction depth as [|d IH]; intros n st st' H Hcl Htp; [done|].
  simpl in H. destruct (decide (n ∈ nodes st)) as [Hin|Hnin].
  - injection H as <-. split; [done|split; [done|]]. intros m. split; [auto|].
    intros [?|Hr]; [done|]. eapply closed_reachable; eauto.
  - destruct (for_each (visit g d) (parents g n) st) as [st1|] eqn:E; [|done].
    injection H as <-.
    destruct (for_each_spec g (visit g d) (parents g n) IH _ _ E Hcl Htp)
      as (Hcl1 & Htp1 & Hn1).
    assert (Hfresh : n ∉ nodes st1).
    { rewrite Hn1. intros [?|(p & Hp & Hr)]; [done|].
      apply (Hac n). eapply tc_rtc_l; [exact Hr|]. apply tc_once, Hp. }
    split; [|split].
    + intros x p. simpl. rewrite !elem_of_union, !elem_of_singleton.
      intros [->|Hx] Hp.
      * right. apply Hn1. right. exists p. split; [exact Hp | apply rtc_refl].
      * right. eapply Hcl1; eauto.
    + by apply record_node_tape_ok.
    + intros m. simpl. rewrite elem_of_union, elem_of_singleton, Hn1. split.
      * intros [->|[?|(p & Hp & Hr)]]; [right; apply rtc_refl | by left |].
        right. eapply rtc_r; [exact Hr | exact Hp].
      * intros [?|Hr]; [by right; left|].
        apply rtc_inv_r in Hr as [->|(p & Hr & Hp)]; [by left|].
        right. right. by exists p.
Qed.

(** On the diamond, A is reached through B and again through C, and is
    recorded once; the tape lists parents before children. *)
Example trace_node_diamond :
  trace_node_run diamond 5 3 = Some {| nodes := {[0; 1; 2; 3]}; tape := [0; 1; 2; 3] |}.
Proof. vm_compute. reflexivity. Qed.

Example diamond_acyclic : acyclic diamond.
Proof. apply (ranked_acyclic diamond id). vm_compute. reflexivity. Qed.

(** C1: on an acyclic graph, with a recursion depth beyond the size of the
    store, [trace_node root] returns, and the set it returns holds exactly
    the nodes from which [root] is reachable along [parents] ([root]
    included); the tape has no repetition and lists exactly the returned
    set, so every node was added once, whatever the number of paths to
    it. *)
Theorem trace_node_reachable_once (g : gmap nat (list nat)) (root depth : nat) :
  acyclic g → size g < depth →
  ∃ st, trace_node_run g depth root = Some st ∧
        trace_node g depth root = Some (nodes st) ∧
        (∀ m, m ∈ nodes st ↔ reachable g m root) ∧
        NoDup (tape st) ∧
        (∀ m, m ∈ tape st ↔ m ∈ nodes st).
Proof.
  intros Hac Hd.
  destruct (visit_total g depth root initial Hac Hd) as [st Hst].
  destruct (visit_spec g Hac _ _ _ _ Hst (initial_closed g) initial_tape_ok)
    as (_ & [Hnd Htp] & Hn).
  exists st. unfold trace_node, trace_node_run. rewrite Hst.
  repeat split; try done.
  - intros Hm. apply Hn in Hm as [Hm|Hm]; [|done]. simpl in Hm. set_solver.
  - intros Hm. apply Hn. by right.
  - apply Htp.
  - apply Htp.
Qed.

(** The diamond: D = 3 reaches A, B, C, D, and A = 0 is recorded once. *)
Lemma trace_node_reachable_once_witness :
  ∃ st, trace_node_run diamond 5 3 = Some st ∧
        trace_node diamond 5 3 = Some (nodes st) ∧
        (∀ m, m ∈ nodes st ↔ reachable diamond m 3) ∧
        NoDup (tape st) ∧
        (∀ m, m ∈ tape st ↔ m ∈ nodes st).
Proof.
  apply (trace_node_reachable_once diamond 3 5).
  - apply (ranked_acyclic diamond id). vm_compute. reflexivity.
  - vm_compute. lia.
Defined.

(** C2: on an acyclic graph the recursion of [visit] returns from every
    node and every state of the two locals, once the depth bound exceeds the
    number of interior nodes; and a node without parents that is not yet
    recorded is recorded by the outermost call alone (depth 1 admits no
    recursive call). *)
Theorem visit_terminates (g : gmap nat (list nat)) :
  acyclic g →
  (∀ depth n st, size g < depth → ∃ st', visit g depth n st = Some st') ∧
  (∀ n st, parents g n = [] → n ∉ nodes st →
     visit g 1 n st = Some (record_node n st)) ∧
  (∀ n, parents g n = [] →
     trace_node g 1 n = Some {[n]}).
Proof.
  intros Hac. split; [|split].
  - intros depth n st Hd. by apply visit_total.
  - intros n st Hp Hn. simpl. rewrite Hp. simpl.
    destruct (decide (n ∈ nodes st)); done.
  - intros n Hp. unfold trace_node, trace_node_run. simpl. rewrite Hp. simpl.
    destruct (decide (n ∈ (∅ : gset nat))) as [Hin|_]; [set_solver|].
    simpl. f_equal. apply union_empty_r_L.
Qed.

Lemma visit_terminates_witness :
  (∀ depth n st, size diamond < depth → ∃ st', visit diamond depth n st = Some st') ∧
  (∀ n st, parents diamond n = [] → n ∉ nodes st →
     visit diamond 1 n st = Some (record_node n st)) ∧
  (∀ n, parents diamond n = [] →
     trace_node diamond 1 n = Some {[n]}).
Proof.
  apply (visit_terminates diamond).
  apply (ranked_acyclic diamond id). vm_compute. reflexivity.
Defined.

(** *** The order of the tape *)

(** Every parent of the node at a position of the list occurs at an
    earlier position. *)
Definition parents_first (g : gmap nat (list nat)) (l : list nat) : Prop :=
  ∀ j n p, l !! j = Some n → parent_of g p n → ∃ i, i < j ∧ l !! i = Some p.

Lemma parents_first_snoc g l n :
  parents_first g l → (∀ p, parent_of g p n → p ∈ l) → parents_first g (l ++ [n]).
Proof.
  intros Hl Hn j m p Hj Hp. apply lookup_snoc_Some in Hj as [[Hlt Hj]|[-> <-]].
  - destruct (Hl j m p Hj Hp) as (i & Hi & Hl'). exists i. split; [done|].
    by apply lookup_app_l_Some.
  - apply Hn, list_elem_of_lookup in Hp as [i Hi]. exists i. split.
    + by apply lookup_lt_Some in Hi.
    + by apply lookup_app_l_Some.
Qed.

Lemma for_each_order g (v : nat → state → option state) ps :
  (∀ p st st', v p st = Some st' → closed g st → tape_ok st →
     closed g st' ∧ tape_ok st') →
  (∀ p st st', v p st = Some st' → closed g st → tape_ok st →
     parents_first g (tape st) → parents_first g (tape st')) →
  ∀ st st', for_each v ps st = Some st' → closed g st → tape_ok st →
    parents_first g (tape st) → parents_first g (tape st').
Proof.
  intros Hinv Hord. induction ps as [|p ps IH]; intros st st' H Hcl Htp Hpf;
    simpl in H.
  - by injection H as <-.
  - destruct (v p st) as [st1|] eqn:E; [|done].
    destruct (Hinv _ _ _ E Hcl Htp) as [Hcl1 Htp1].
    apply (IH st1 st' H Hcl1 Htp1). by apply (Hord p st).
Qed.

Lemma visit_order g :
  acyclic g →
  ∀ depth n st st', visit g depth n st = Some st' → closed g st → tape_ok st →
    parents_first g (tape st) → parents_first g (tape st').
Proof.
  intros Hac. induction depth as [|d IH]; intros n st st' H Hcl Htp Hpf; [done|].
  simpl in H. destruct (decide (n ∈ nodes st)) as [Hin|Hnin].
  - by injection H as <-.
  - destruct (for_each (visit g d) (parents g n) st) as [st1|] eqn:E; [|done].
    injection H as <-.
    destruct (for_each_spec g (visit g d) (parents g n) (visit_spec g Hac d)
                _ _ E Hcl Htp) as (Hcl1 & Htp1 & Hn1).
    simpl. apply parents_first_snoc.
    + apply (for_each_order g (visit g d) (parents g n)) with (st := st);
        try done.
      intros p s s' Hv Hc Ht.
      destruct (visit_spec g Hac d p s s' Hv Hc Ht) as (? & ? & _). done.
    + intros p Hp. apply Htp1, Hn1. right. exists p. split; [done|apply rtc_refl].
Qed.

(** On an acyclic graph the tape of [trace_node] is a dependency order: it
    ends with the root, and every parent of a node on the tape stands
    before that node. *)
Theorem trace_node_tape_order (g : gmap nat (list nat)) (root depth : nat) :
  acyclic g → size g < depth →
  ∃ st, trace_node_run g depth root = Some st ∧
        last (tape st) = Some root ∧
        ∀ j n p, tape st !! j = Some n → parent_of g p n →
                 ∃ i, i < j ∧ tape st !! i = Some p.
Proof.
  intros Hac Hd.
  destruct (visit_total g depth root initial Hac Hd) as [st Hst].
  exists st. split; [done|]. split.
  - destruct depth as [|d]; [done|]. unfold trace_node_run in Hst. simpl in Hst.
    destruct (decide (root ∈ (∅ : gset nat))) as [Hin|_];
      [by apply not_elem_of_empty in Hin|].
    destruct (for_each (visit g d) (parents g root) initial) as [st1|]; [|done].
    injection Hst as <-. simpl. apply last_snoc.
  - apply (visit_order g Hac depth root initial st Hst (initial_closed g)
             initial_tape_ok).
    intros j n p Hj. done.
Qed.

Lemma trace_node_tape_order_witness :
  ∃ st, trace_node_run diamond 5 3 = Some st ∧
        last (tape st) = Some 3 ∧
        ∀ j n p, tape st !! j = Some n → parent_of diamond p n →
                 ∃ i, i < j ∧ tape st !! i = Some p.
Proof.
  apply (trace_node_tape_order diamond 3 5).
  - apply (ranked_acyclic diamond id). vm_compute. reflexivity.
  - vm_compute. lia.
Defined.

(** *** Cycles *)

(** [n] is, or descends from, a node that is its own ancestor. *)
Definition below_cycle (g : gmap nat (list nat)) (n : nat) : Prop :=
  ∃ c, reachable g c n ∧ tc (parent_of g) c c.

(** A two-node cycle 0 -> 1 -> 0 with a node 2 below it. *)
Definition looped : gmap nat (list nat) :=
  <[2 := [1]]> (<[1 := [0]]> (<[0 := [1]]> ∅)).

Lemma tc_last_step g x z :
  tc (parent_of g) x z → ∃ y, rtc (parent_of g) x y ∧ parent_of g y z.
Proof.
  induction 1 as [x z Hxz|x y z Hxy _ (y' & Hr & Hp)].
  - exists x. split; [apply rtc_refl|done].
  - exists y'. split; [|done]. by eapply rtc_l.
Qed.

Lemma below_cycle_parent g n :
  below_cycle g n → ∃ p, parent_of g p n ∧ below_cycle g p.
Proof.
  intros (c & Hr & Hc). apply rtc_inv_r in Hr as [->|(y & Hr & Hp)].
  - destruct (tc_last_step g n n Hc) as (y & Hr & Hp).
    exists y. split; [done|]. by exists n.
  - exists y. split; [done|]. by exists c.
Qed.

Lemma for_each_cycle g (v : nat → state → option state) ps :
  (∀ p st st', v p st = Some st' →
     (∀ m, m ∈ nodes st → ¬ below_cycle g m) →
     (∀ m, m ∈ nodes st' → ¬ below_cycle g m) ∧ ¬ below_cycle g p) →
  ∀ st st', for_each v ps st = Some st' →
    (∀ m, m ∈ nodes st → ¬ below_cycle g m) →
    (∀ m, m ∈ nodes st' → ¬ below_cycle g m) ∧
    ∀ p, p ∈ ps → ¬ below_cycle g p.
Proof.
  intros Hv. induction ps as [|p ps IH]; intros st st' H Hst; simpl in H.
  - injection H as <-. split; [done|]. by intros p ?%elem_of_nil.
  - destruct (v p st) as [st1|] eqn:E; [|done].
    destruct (Hv _ _ _ E Hst) as [Hst1 Hp].
    destruct (IH _ _ H Hst1) as [Hst' Hps]. split; [done|].
    intros q [->|Hq]%elem_of_cons; auto.
Qed.

(** A call of [visit] that returns has only recorded nodes that are not
    below a cycle, its argument among them. *)
Lemma visit_cycle g :
  ∀ depth n st st', visit g depth n st = Some st' →
    (∀ m, m ∈ nodes st → ¬ below_cycle g m) →
    (∀ m, m ∈ nodes st' → ¬ below_cycle g m) ∧ ¬ below_cycle g n.
Proof.
  induction depth as [|d IH]; intros n st st' H Hst; [done|].
  simpl in H. destruct (decide (n ∈ nodes st)) as [Hin|Hnin].
  - injection H as <-. auto.
  - destruct (for_each (visit g d) (parents g n) st) as [st1|] eqn:E; [|done].
    injection H as <-.
    destruct (for_each_cycle g (visit g d) (parents g n) IH _ _ E Hst)
      as [Hst1 Hps].
    assert (Hn : ¬ below_cycle g n).
    { intros (p & Hp & Hb)%below_cycle_parent. by apply (Hps p). }
    split; [|done]. intros m. simpl.
    rewrite elem_of_union, elem_of_singleton. intros [->|Hm]; auto.
Qed.

(** When the root is, or descends from, a node that is its own ancestor,
    [trace_node] returns at no recursion depth. *)
Theorem trace_node_cycle (g : gmap nat (list nat)) (root c : nat) :
  reachable g c root → tc (parent_of g) c c →
  ∀ depth, trace_node g depth root = None.
Proof.
  intros Hr Hc depth. unfold trace_node, trace_node_run.
  destruct (visit g depth root initial) as [st|] eqn:E; [|done].
  destruct (visit_cycle g depth root initial st E) as [_ Hn].
  - intros m Hm. simpl in Hm. by apply not_elem_of_empty in Hm.
  - destruct Hn. by exists c.
Qed.

Lemma trace_node_cycle_witness : trace_node looped 1000 2 = None.
Proof.
  apply (trace_node_cycle looped 2 1).
  - apply rtc_once. unfold parent_of. vm_compute. left.
  - apply (tc_l _ 1 0 1); [|apply tc_once]; unfold parent_of; vm_compute; left.
Defined.

End Tracer.

(** ** The Tracker, the registry and the driver *)

Module Harness.

(** *** Python values and effects *)

(** What [sys.stdout] and [Tracker.original_stdout] may hold: [None], a
    stream that reaches the terminal, or an instance of [WritableNull]
    (lines 7-12).  Objects carry their identity, each call [WritableNull()]
    building a new one. *)
Inductive sink : Type :=
  | PyNone
  | Stream (id : nat)
  | WritableNull (id : nat).

Inductive exn : Type :=
  | AssertionError
  | KeyError
  | TypeError
  | KeyboardInterrupt
  | SystemExit (code : Z)
  | OtherError (name : string).

(** How a call ends: it returns a value or it raises. *)
Inductive result (A : Type) : Type :=
  | Return (a : A)
  | Raise (e : exn).
Arguments Return {A} a.
Arguments Raise {A} e.

(** The attributes of a [Tracker] object (lines 15-30). *)
Record Tracker := mkTracker {
  questions : list string;
  maxes : gmap string Z;
  prereqs : gmap string (gset string);
  points : gmap string Z;
  current_question : option string;
  current_test : option string;
  points_at_test_start : option Z;
  possible_points_remaining : option Z;
  mute_output : bool;
  original_stdout : sink;
  muted : bool
}.

(** The state of the process that the harness reads and writes: the one
    Tracker object, the global [sys.stdout], the identity of the next
    allocated object, and every call of [print] so far (oldest first) with
    the sink it wrote to.  [called] is a ghost record of the driver: the
    registry positions of the test functions it has called, in call order.

    [loop_questions] is the content of the list object that [main] builds
    at line 109 and walks at line 111.  [Tracker.__init__] stores this very
    object in [self.questions] (line 16), and [questions (tracker w)] is the
    content of whatever list the attribute names: as long as no test assigns
    the attribute the two are one list, and a method call on
    [tracker.questions] ([append], [remove], ...) changes both alike; a test
    that assigns [tracker.questions] changes the attribute alone. *)
Record World := mkWorld {
  tracker : Tracker;
  sys_stdout : sink;
  next_id : nat;
  printed : list (sink * string);
  called : list nat;
  loop_questions : list string
}.

(** A statement or call: from a world to the world it leaves and the way it
    ends.  An exception leaves the mutations made before it in place. *)
Definition M (A : Type) : Type := World → World * result A.

Definition ret {A} (a : A) : M A := λ w, (w, Return a).
Definition raise {A} (e : exn) : M A := λ w, (w, Raise e).
Definition bind {A B} (m : M A) (k : A → M B) : M B := λ w,
  match m w with
  | (w', Return a) => k a w'
  | (w', Raise e) => (w', Raise e)
  end.

Notation "'let*' x ':=' m 'in' k" := (bind m (λ x, k))
  (at level 10, x name, m at level 100, k at level 200).
Notation "m '>>' k" := (bind m (λ _, k))
  (at level 100, k at level 200, right associativity).

Definition get_tracker : M Tracker := λ w, (w, Return (tracker w)).
Definition update (f : Tracker → Tracker) (w : World) : World :=
  mkWorld (f (tracker w)) (sys_stdout w) (next_id w) (printed w) (called w)
    (loop_questions w).
Definition modify_tracker (f : Tracker → Tracker) : M unit := λ w,
  (update f w, Return tt).
Definition get_stdout : M sink := λ w, (w, Return (sys_stdout w)).
Definition set_stdout (s : sink) : M unit := λ w,
  (mkWorld (tracker w) s (next_id w) (printed w) (called w) (loop_questions w),
   Return tt).

(** [WritableNull()] *)
Definition new_WritableNull : M sink := λ w,
  (mkWorld (tracker w) (sys_stdout w) (S (next_id w)) (printed w) (called w)
     (loop_questions w),
   Return (WritableNull (next_id w))).

(** [print(line)]: one more line handed to the current [sys.stdout]. *)
Definition print (line : string) : M unit := λ w,
  (mkWorld (tracker w) (sys_stdout w) (next_id w)
     (printed w ++ [(sys_stdout w, line)]) (called w) (loop_questions w),
   Return tt).

(** [assert b] *)
Definition assert (b : bool) : M unit :=
  if b then ret tt else raise AssertionError.

(** Attribute assignments [self.x = v]. *)
Definition set_current_question (v : option string) (t : Tracker) : Tracker :=
  mkTracker (questions t) (maxes t) (prereqs t) (points t) v (current_test t)
    (points_at_test_start t) (possible_points_remaining t) (mute_output t)
    (original_stdout t) (muted t).
Definition set_current_test (v : option string) (t : Tracker) : Tracker :=
  mkTracker (questions t) (maxes t) (prereqs t) (points t) (current_question t) v
    (points_at_test_start t) (possible_points_remaining t) (mute_output t)
    (original_stdout t) (muted t).
Definition set_points_at_test_start (v : option Z) (t : Tracker) : Tracker :=
  mkTracker (questions t) (maxes t) (prereqs t) (points t) (current_question t)
    (current_test t) v (possible_points_remaining t) (mute_output t)
    (original_stdout t) (muted t).
Definition set_possible_points_remaining (v : option Z) (t : Tracker) : Tracker :=
  mkTracker (questions t) (maxes t) (prereqs t) (points t) (current_question t)
    (current_test t) (points_at_test_start t) v (mute_output t)
    (original_stdout t) (muted t).
Definition set_original_stdout (v : sink) (t : Tracker) : Tracker :=
  mkTracker (questions t) (maxes t) (prereqs t) (points t) (current_question t)
    (current_test t) (points_at_test_start t) (possible_points_remaining t)
    (mute_output t) v (muted t).
Definition set_muted (v : bool) (t : Tracker) : Tracker :=
  mkTracker (questions t) (maxes t) (prereqs t) (points t) (current_question t)
    (current_test t) (points_at_test_start t) (possible_points_remaining t)
    (mute_output t) (original_stdout t) v.
Definition set_points (v : gmap string Z) (t : Tracker) : Tracker :=
  mkTracker (questions t) (maxes t) (prereqs t) v (current_question t)
    (current_test t) (points_at_test_start t) (possible_points_remaining t)
    (mute_output t) (original_stdout t) (muted t).

(** [d[k]] for a dictionary keyed by question ids, where the key is the
    value of [current_question] ([None] is never a key). *)
Definition getitem (d : gmap string Z) (k : option string) : M Z :=
  match k with
  | Some q => match d !! q with Some v => ret v | None => raise KeyError end
  | None => raise KeyError
  end.

(** [a + b] and [a - b] where [a] may be [None]. *)
Definition py_add (a : option Z) (b : Z) : M Z :=
  match a with Some x => ret (x + b)%Z | None => raise TypeError end.
Definition py_sub (a : option Z) (b : Z) : M Z :=
  match a with Some x => ret (x - b)%Z | None => raise TypeError end.

(** [str(x)] for an attribute holding a string or [None]. *)
Definition py_str (x : option string) : string := default "None" x.

(** *** The Tracker class *)

(** [Tracker.__init__] (lines 15-30) *)
Definition Tracker_init (questions : list string) (maxes : gmap string Z)
    (prereqs : gmap string (gset string)) (mute_output : bool) : Tracker :=
  {| questions := questions;
     maxes := maxes;
     prereqs := prereqs;
     points := list_to_map ((λ q, (q, 0%Z)) <$> questions);
     current_question := None;
     current_test := None;
     points_at_test_start := None;
     possible_points_remaining := None;
     mute_output := mute_output;
     original_stdout := PyNone;
     muted := false |}.

(** [Tracker.mute] (lines 32-38) *)
Definition mute : M unit :=
  let* t := get_tracker in
  if muted t then ret tt
  else
    modify_tracker (set_muted true) >>
    let* out := get_stdout in
    modify_tracker (set_original_stdout out) >>
    let* null := new_WritableNull in
    set_stdout null.

(** [Tracker.unmute] (lines 40-45) *)
Definition unmute : M unit :=
  let* t := get_tracker in
  if negb (muted t) then ret tt
  else
    modify_tracker (set_muted false) >>
    let* t := get_tracker in
    set_stdout (original_stdout t).

(** [Tracker.begin_q] (lines 47-51) *)
Definition begin_q (q : string) : M bool :=
  let* t := get_tracker in
  assert (bool_decide (q ∈ questions t)) >>
  modify_tracker (set_current_question (Some q)) >>
  let* t := get_tracker in
  let* m := getitem (maxes t) (Some q) in
  modify_tracker (set_possible_points_remaining (Some m)) >>
  ret true.

(** [Tracker.begin_test] (lines 53-58) *)
Definition begin_test (test_name : string) : M unit :=
  modify_tracker (set_current_test (Some test_name)) >>
  let* t := get_tracker in
  let* p := getitem (points t) (current_question t) in
  modify_tracker (set_points_at_test_start (Some p)) >>
  let* t := get_tracker in
  print ("*** " +:+ py_str (current_question t) +:+ ") " +:+ py_str (current_test t)) >>
  if mute_output t then mute else ret tt.

(** [Tracker.end_test] (lines 60-70) *)
Definition end_test (pts : Z) : M unit :=
  let* t := get_tracker in
  (if mute_output t then unmute else ret tt) >>
  let* t := get_tracker in
  let* r := py_sub (possible_points_remaining t) pts in
  modify_tracker (set_possible_points_remaining (Some r)) >>
  let* t := get_tracker in
  let* awarded := getitem (points t) (current_question t) in
  let* target := py_add (points_at_test_start t) pts in
  (if bool_decide (awarded = target) then
     print ("*** PASS: " +:+ py_str (current_test t))
   else
     let* awarded := getitem (points t) (current_question t) in
     if bool_decide (Some awarded = points_at_test_start t) then
       print "*** FAIL"
     else ret tt) >>
  modify_tracker (set_current_test None) >>
  modify_tracker (set_points_at_test_start None).

(** [Tracker.end_q] (lines 72-76) *)
Definition end_q : M unit :=
  let* t := get_tracker in
  assert (bool_decide (current_question t ≠ None)) >>
  assert (bool_decide (possible_points_remaining t = Some 0%Z)) >>
  modify_tracker (set_current_question None) >>
  modify_tracker (set_possible_points_remaining None).

(** [Tracker.add_points] (lines 78-79) *)
Definition add_points (pts : Z) : M unit :=
  let* t := get_tracker in
  let* p := getitem (points t) (current_question t) in
  match current_question t with
  | Some q => modify_tracker (set_points (<[q := (p + pts)%Z]> (points t)))
  | None => raise KeyError
  end.

(** *** The registry and the driver *)

(** An entry of [TESTS]: [(q, points, fn)] (line 93).  A test function is a
    call on the world.  It is handed the one Tracker and reaches the rest
    of the world through it: it may read and assign every attribute, call
    every method, print, and change the list of questions in place (which
    [main] then sees in the list it walks).  It returns or it raises.

    What a function of this type cannot do bounds what the theorems about
    [main] say: a call that never returns leaves no world to speak of; an
    attribute keeps the type that [__init__] gave it; and the registry
    [TESTS], which a test is not handed, stays as [main] found it. *)
Definition test_entry : Type := string * Z * M unit.

(** The first loop of [main] (lines 101-107), over the registry. *)
Definition collect (TESTS : list test_entry) (PREREQS : gmap string (gset string))
    : gset string * gmap string Z * gmap string (gset string) :=
  foldl (λ '(questions, maxes, PREREQS) '(q, points, _),
           ({[q]} ∪ questions,
            <[q := (default 0 (maxes !! q) + points)%Z]> maxes,
            if decide (q ∈ dom PREREQS) then PREREQS else <[q := ∅]> PREREQS))
        (∅, ∅, PREREQS) TESTS.

(** [list(sorted(questions))] (line 109): strings compare by code point. *)
Definition sorted (questions : gset string) : list string :=
  merge_sort String.le (elements questions).

(** The call [fn(tracker)] of the test at registry position [i]. *)
Definition call (i : nat) (fn : M unit) : M unit := λ w,
  let '(w', r) := fn w in
  (mkWorld (tracker w') (sys_stdout w') (next_id w') (printed w') (called w ++ [i])
     (loop_questions w'), r).

(** [sys.exit(code)] *)
Definition sys_exit (code : Z) : M unit := raise (SystemExit code).

(** The [try] statement (lines 119-125). *)
Definition try_test (i : nat) (fn : M unit) : M unit := λ w,
  match call i fn w with
  | (w', Return _) => (w', Return tt)
  | (w', Raise KeyboardInterrupt) => (unmute >> sys_exit 1) w'
  | (w', Raise _) => unmute w'
  end.

(** The inner loop (lines 116-125) over the entries from position [i] on. *)
Fixpoint run_tests (q : string) (i : nat) (tests : list test_entry) : M unit :=
  match tests with
  | [] => ret tt
  | (testq, points, fn) :: rest =>
      if decide (testq ≠ q) then run_tests q (S i) rest
      else try_test i fn >> run_tests q (S i) rest
  end.

(** The loop of lines 111-126 over a list [qs] that stays as it is while
    the loop runs.  It stands between the loop of the source, which walks a
    list that a test can change ([run_questions] below), and the run that
    the specification describes ([in_order] below). *)
Fixpoint loop_over (TESTS : list test_entry) (qs : list string) : M unit :=
  match qs with
  | [] => ret tt
  | q :: qs' =>
      let* started := begin_q q in
      if negb started then loop_over TESTS qs'
      else
        run_tests q 0 TESTS >>
        end_q >>
        loop_over TESTS qs'
  end.

(** The outer loop (lines 111-126).  [for q in questions] walks the list
    object by position: each run of the body takes the element at position
    [i] of the list as it is at that moment, and the loop ends when [i] is
    past the end of the list as it is at that moment.  [steps] bounds the
    number of times the loop asks for a next element; [None] says that the
    loop is still running after that many. *)
Fixpoint run_questions (steps : nat) (TESTS : list test_entry) (i : nat)
    (w : World) : option (World * result unit) :=
  match steps with
  | 0 => None
  | S steps' =>
      match loop_questions w !! i with
      | None => Some (w, Return tt)
      | Some q =>
          match begin_q q w with
          | (w1, Raise e) => Some (w1, Raise e)
          | (w1, Return started) =>
              if negb started then run_questions steps' TESTS (S i) w1
              else
                match run_tests q 0 TESTS w1 with
                | (w2, Raise e) => Some (w2, Raise e)
                | (w2, Return _) =>
                    match end_q w2 with
                    | (w3, Raise e) => Some (w3, Raise e)
                    | (w3, Return _) => run_questions steps' TESTS (S i) w3
                    end
                end
          end
      end
  end.

(** The locals [questions] (after line 109) and [maxes] of [main]. *)
Definition main_questions (TESTS : list test_entry)
    (PREREQS : gmap string (gset string)) : list string :=
  sorted (collect TESTS PREREQS).1.1.
Definition main_maxes (TESTS : list test_entry)
    (PREREQS : gmap string (gset string)) : gmap string Z :=
  (collect TESTS PREREQS).1.2.

(** The world in which the loop of line 111 starts: the Tracker of line 110,
    [sys.stdout] as the process found it, nothing printed or called yet;
    the list of line 109 is the one that the Tracker holds and the one that
    the loop walks. *)
Definition start (TESTS : list test_entry) (PREREQS : gmap string (gset string))
    (out : sink) : World :=
  let '(questions, maxes, PREREQS) := collect TESTS PREREQS in
  mkWorld (Tracker_init (sorted questions) maxes PREREQS false) out 0 [] []
    (sorted questions).

(** [main] (lines 97-126); [disable_graphics()] touches no part of the
    world. *)
Definition main (steps : nat) (TESTS : list test_entry)
    (PREREQS : gmap string (gset string)) (out : sink)
    : option (World * result unit) :=
  run_questions steps TESTS 0 (start TESTS PREREQS out).

(** [main] when the list it walks stays as it is. *)
Definition main_loop_over (TESTS : list test_entry)
    (PREREQS : gmap string (gset string)) (out : sink) : World * result unit :=
  loop_over TESTS (main_questions TESTS PREREQS) (start TESTS PREREQS out).

(** A call that leaves the list that [main] walks as it was. *)
Definition keeps_list {A} (m : M A) : Prop :=
  ∀ w, loop_questions (m w).1 = loop_questions w.

(** The exit status of the process when [main()] ends in [r] at top level. *)
Definition exit_status (r : result unit) : Z :=
  match r with
  | Return _ => 0
  | Raise (SystemExit code) => code
  | Raise _ => 1
  end.

(** The registry positions, from [i] on, of the tests of question [q]. *)
Fixpoint tests_of (q : string) (i : nat) (tests : list test_entry) : list nat :=
  match tests with
  | [] => []
  | (testq, _, _) :: rest =>
      if decide (testq = q) then i :: tests_of q (S i) rest
      else tests_of q (S i) rest
  end.

(** The sum of the declared points of the tests of question [q]. *)
Fixpoint declared (q : string) (tests : list test_entry) : Z :=
  match tests with
  | [] => 0
  | (testq, points, _) :: rest =>
      if decide (testq = q) then (points + declared q rest)%Z
      else declared q rest
  end.

(** The lines that a call prints, whatever sink they go to. *)
Definition emitted {A} (m : M A) (w : World) : list string :=
  snd <$> drop (length (printed w)) (printed (m w).1).

(** The question ids of the registry, in registration order. *)
Definition test_ids (tests : list test_entry) : list string :=
  (λ e : test_entry, e.1.1) <$> tests.

(** The order in which a complete run calls the tests: question after
    question in the order of [qs], registration order inside a question. *)
Definition schedule (TESTS : list test_entry) (qs : list string) : list nat :=
  concat ((λ q, tests_of q 0 TESTS) <$> qs).

(** The run of the specification, written from its words and not from the
    loops above.  What the driver does with the test at registry position
    [i]: it calls the function; an error of the test other than an
    interrupt is caught, output is unmuted, and the driver proceeds; an
    interrupt unmutes output and ends the process with exit code 1. *)
Definition attempt (TESTS : list test_entry) (i : nat) : M unit := λ w,
  match TESTS !! i with
  | None => (w, Return tt)
  | Some (_, _, fn) =>
      let '(w', r) := fn w in
      let after :=
        mkWorld (tracker w') (sys_stdout w') (next_id w') (printed w')
          (called w ++ [i]) (loop_questions w') in
      match r with
      | Return _ => (after, Return tt)
      | Raise KeyboardInterrupt => ((unmute after).1, Raise (SystemExit 1))
      | Raise _ => ((unmute after).1, Return tt)
      end
  end.

(** The tests at the positions [l], one after the other. *)
Fixpoint attempts (TESTS : list test_entry) (l : list nat) : M unit :=
  match l with
  | [] => ret tt
  | i :: l' => attempt TESTS i >> attempts TESTS l'
  end.

(** One question: it is begun, its tests are run in registration order,
    and it is ended. *)
Definition question (TESTS : list test_entry) (q : string) : M unit :=
  begin_q q >> attempts TESTS (tests_of q 0 TESTS) >> end_q.

(** The questions of [qs] one after the other; an exception ends the
    run. *)
Fixpoint in_order (TESTS : list test_entry) (qs : list string) : M unit :=
  match qs with
  | [] => ret tt
  | q :: qs' => question TESTS q >> in_order TESTS qs'
  end.

(** A test function that only awards points: whatever way it ends, it
    leaves [current_question] and [maxes] as they were, it raises the
    points of the current question by at most [pts], and it raises the
    points of no other question. *)
Definition awards_at_most (pts : Z) (fn : M unit) : Prop :=
  ∀ w w' r, fn w = (w', r) →
    current_question (tracker w') = current_question (tracker w) ∧
    maxes (tracker w') = maxes (tracker w) ∧
    ∀ q a, points (tracker w) !! q = Some a →
      ∃ b, points (tracker w') !! q = Some b ∧
           (b ≤ a + if decide (current_question (tracker w) = Some q)
                    then pts else 0)%Z.

(** Sample worlds and registries. *)

(** The world of a fresh process whose Tracker knows question "q1", worth
    two points, and writes to the terminal stream 0. *)
Definition sample : World :=
  mkWorld (Tracker_init ["q1"] {["q1" := 2%Z]} ∅ false) (Stream 0) 0 [] [] ["q1"].

(** A test of question "q1" that has just begun: the baseline and the
    awarded total are both 0. *)
Definition in_test : World := (begin_test "t" (begin_q "q1" sample).1).1.

(** A test that brackets its awards between [begin_test] and [end_test]:
    it awards [given] points and declares [pts]. *)
Definition bracket (name : string) (given pts : Z) : M unit :=
  begin_test name >> add_points given >> end_test pts.

(** Tests registered for "q2" and then for "q1". *)
Definition two_questions : list test_entry :=
  [("q2", 1%Z, bracket "b" 1 1); ("q1", 2%Z, bracket "a" 2 2)].

(** A test that declares two points and awards three. *)
Definition generous : list test_entry :=
  [("q1", 2%Z, bracket "a" 3 2)].

(** A first test that fails an assertion after one point, a second that is
    interrupted, and a third. *)
Definition interrupted : list test_entry :=
  [("q1", 1%Z, add_points 1 >> raise AssertionError);
   ("q1", 1%Z, raise KeyboardInterrupt);
   ("q1", 0%Z, ret tt)].

(** The shape of the one test registered in ml_example.py (lines 212-260),
    when the model under test passes every check: six points declared for
    "q3", two and then four awarded, no call of [begin_test] or [end_test]. *)
Definition unbracketed : list test_entry :=
  [("q3", 6%Z, add_points 2 >> add_points 4)].

(** [tracker.questions.append(q)], while the attribute names the list of
    [main]: the one list object grows. *)
Definition append_question (q : string) : M unit := λ w,
  (mkWorld
     (mkTracker (questions (tracker w) ++ [q]) (maxes (tracker w))
        (prereqs (tracker w)) (points (tracker w))
        (current_question (tracker w)) (current_test (tracker w))
        (points_at_test_start (tracker w))
        (possible_points_remaining (tracker w)) (mute_output (tracker w))
        (original_stdout (tracker w)) (muted (tracker w)))
     (sys_stdout w) (next_id w) (printed w) (called w)
     (loop_questions w ++ [q]),
   Return tt).

(** A test of "q1" that puts its question on the list once more, if it is
    there only once, and then awards the point it declares:
    [if len(tracker.questions) < 2: tracker.questions.append("q1")],
    followed by a bracket. *)
Definition stutter : list test_entry :=
  [("q1", 1%Z,
    let* t := get_tracker in
    (if bool_decide (length (questions t) < 2) then append_question "q1"
     else ret tt) >>
    bracket "a" 1 1)].

(** *** The Tracker methods, one by one *)

Ltac run :=
  cbv [mute unmute begin_q begin_test end_test end_q add_points
       bind ret raise get_tracker modify_tracker update get_stdout set_stdout
       new_WritableNull print assert getitem py_add py_sub];
  simpl.

Lemma mute_total w : (mute w).2 = Return tt.
Proof. run. by destruct (muted (tracker w)). Qed.

Lemma unmute_total w : (unmute w).2 = Return tt.
Proof. run. by destruct (muted (tracker w)). Qed.

Lemma mute_muted w : muted (tracker (mute w).1) = true.
Proof. run. by destruct (muted (tracker w)) eqn:E. Qed.

Lemma unmute_muted w : muted (tracker (unmute w).1) = false.
Proof. run. by destruct (muted (tracker w)) eqn:E. Qed.

Lemma mute_when_muted w : muted (tracker w) = true → mute w = (w, Return tt).
Proof. intros H. run. by rewrite H. Qed.

Lemma unmute_when_unmuted w : muted (tracker w) = false → unmute w = (w, Return tt).
Proof. intros H. run. by rewrite H. Qed.

(** C4, as stated, fails for a Tracker that is already muted: [mute] then
    [unmute] leaves the saved terminal stream in [sys.stdout], not the
    [WritableNull] that was active before the pair. *)
Lemma mute_unmute_restores_counterexample :
  let w := (mute sample).1 in
  sys_stdout w = WritableNull 0 ∧
  sys_stdout (unmute (mute w).1).1 = Stream 0 ∧
  sys_stdout (unmute (mute w).1).1 ≠ sys_stdout w.
Proof. vm_compute. repeat split; congruence. Qed.

(** C4 (amended): [mute] and [unmute] never raise; a second [mute] right
    after a [mute], and a second [unmute] right after an [unmute], change
    nothing at all (so neither [sys.stdout] nor the saved sink); from an
    unmuted Tracker [mute] then [unmute] puts back the sink that was active
    before, and from a muted Tracker the pair installs the saved sink. *)
Theorem mute_unmute_idempotent (w : World) :
  (mute w).2 = Return tt ∧
  (unmute w).2 = Return tt ∧
  mute (mute w).1 = ((mute w).1, Return tt) ∧
  unmute (unmute w).1 = ((unmute w).1, Return tt) ∧
  (muted (tracker w) = false →
     sys_stdout (unmute (mute w).1).1 = sys_stdout w) ∧
  (muted (tracker w) = true →
     sys_stdout (unmute (mute w).1).1 = original_stdout (tracker w)).
Proof.
  split; [apply mute_total|]. split; [apply unmute_total|].
  split; [apply mute_when_muted, mute_muted|].
  split; [apply unmute_when_unmuted, unmute_muted|].
  split; intros H; run; rewrite H; simpl; rewrite ?H; reflexivity.
Qed.

Lemma mute_unmute_idempotent_witness :
  muted (tracker sample) = false ∧
  muted (tracker (mute sample).1) = true ∧
  sys_stdout (unmute (mute sample).1).1 = sys_stdout sample ∧
  sys_stdout (unmute (mute (mute sample).1).1).1
    = original_stdout (tracker (mute sample).1).
Proof.
  split; [reflexivity|]. split; [reflexivity|]. split.
  - apply (mute_unmute_idempotent sample). reflexivity.
  - apply (mute_unmute_idempotent (mute sample).1). reflexivity.
Defined.

(** C5: [begin_q q] fails its assertion exactly when [q] is not a known
    question, and then nothing has been assigned; for a known [q] (with its
    entry [m] in [maxes]) it sets the current question to [q] and the
    remaining possible points to [m], and returns [True].  Where [maxes] has
    no entry for a known [q], the lookup [maxes[q]] raises [KeyError] after
    the current question was set. *)
Theorem begin_q_known (w : World) (q : string) :
  ((begin_q q w).2 = Raise AssertionError ↔ q ∉ questions (tracker w)) ∧
  (q ∉ questions (tracker w) → (begin_q q w).1 = w) ∧
  (∀ m, q ∈ questions (tracker w) → maxes (tracker w) !! q = Some m →
     begin_q q w =
       (update (set_possible_points_remaining (Some m))
          (update (set_current_question (Some q)) w), Return true) ∧
     current_question (tracker (begin_q q w).1) = Some q ∧
     possible_points_remaining (tracker (begin_q q w).1) = Some m) ∧
  (q ∈ questions (tracker w) → maxes (tracker w) !! q = None →
     begin_q q w = (update (set_current_question (Some q)) w, Raise KeyError)).
Proof.
  split; [|split; [|split]]; cycle 3.
  { intros Hq Hm. run. rewrite bool_decide_eq_true_2 by done. simpl.
    by rewrite Hm. }
  - run. destruct (bool_decide (q ∈ questions (tracker w))) eqn:E; simpl.
    + apply bool_decide_eq_true in E. split; [|done].
      destruct (maxes (tracker w) !! q); simpl; discriminate.
    + apply bool_decide_eq_false in E. done.
  - intros H. run. by rewrite bool_decide_eq_false_2.
  - intros m Hq Hm. run. rewrite bool_decide_eq_true_2 by done. simpl.
    rewrite Hm. done.
Qed.

Lemma begin_q_known_witness :
  begin_q "q1" sample =
    (update (set_possible_points_remaining (Some 2%Z))
       (update (set_current_question (Some "q1")) sample), Return true) ∧
  current_question (tracker (begin_q "q1" sample).1) = Some "q1" ∧
  possible_points_remaining (tracker (begin_q "q1" sample).1) = Some 2%Z.
Proof.
  apply (begin_q_known sample "q1").
  - vm_compute. left.
  - vm_compute. reflexivity.
Defined.

(** C6: [end_q] fails an assertion exactly when no question is current or
    the remaining possible points are not zero, and then nothing has been
    assigned; otherwise it returns, with the current question and the
    remaining possible points reset to [None] and [points] untouched. *)
Theorem end_q_checks (w : World) :
  ((end_q w).2 = Raise AssertionError ↔
     current_question (tracker w) = None ∨
     possible_points_remaining (tracker w) ≠ Some 0%Z) ∧
  (current_question (tracker w) = None ∨
   possible_points_remaining (tracker w) ≠ Some 0%Z → (end_q w).1 = w) ∧
  (current_question (tracker w) ≠ None →
   possible_points_remaining (tracker w) = Some 0%Z →
     end_q w =
       (update (set_possible_points_remaining None)
          (update (set_current_question None) w), Return tt) ∧
     current_question (tracker (end_q w).1) = None ∧
     possible_points_remaining (tracker (end_q w).1) = None ∧
     points (tracker (end_q w).1) = points (tracker w)).
Proof.
  split; [|split].
  - run. destruct (current_question (tracker w)) as [q|] eqn:Eq; simpl.
    + destruct (bool_decide (possible_points_remaining (tracker w) = Some 0%Z)) eqn:E;
        simpl.
      * apply bool_decide_eq_true in E. split; [done|]. intros [?|?]; done.
      * apply bool_decide_eq_false in E. split; [by right|done].
    + split; [by left|done].
  - run. intros [H|H].
    + by rewrite H.
    + destruct (bool_decide (current_question (tracker w) ≠ None)); simpl; [|done].
      by rewrite bool_decide_eq_false_2.
  - intros Hq Hr. run. rewrite bool_decide_eq_true_2 by done. simpl.
    rewrite bool_decide_eq_true_2 by done. done.
Qed.

Lemma end_q_checks_witness :
  let w := (begin_q "q1"
              (mkWorld (Tracker_init ["q1"] {["q1" := 0%Z]} ∅ false) (Stream 0) 0 [] []
                 ["q1"])).1 in
  current_question (tracker (end_q w).1) = None ∧
  possible_points_remaining (tracker (end_q w).1) = None ∧
  points (tracker (end_q w).1) = points (tracker w).
Proof.
  intros w.
  apply (end_q_checks w); vm_compute; [discriminate | reflexivity].
Defined.

(** [unmute] only touches [muted] and [sys.stdout]. *)
Lemma unmute_frame w :
  let t := tracker w in let t' := tracker (unmute w).1 in
  points t' = points t ∧ current_question t' = current_question t ∧
  current_test t' = current_test t ∧
  points_at_test_start t' = points_at_test_start t ∧
  possible_points_remaining t' = possible_points_remaining t ∧
  maxes t' = maxes t ∧ questions t' = questions t ∧
  printed (unmute w).1 = printed w ∧ called (unmute w).1 = called w.
Proof. run. by destruct (muted (tracker w)). Qed.

(** What [end_test] prints, in a Tracker with a current question and a
    current test. *)
Lemma end_test_emitted (w : World) (pts : Z) q name base rem awarded :
  current_question (tracker w) = Some q →
  current_test (tracker w) = Some name →
  points_at_test_start (tracker w) = Some base →
  possible_points_remaining (tracker w) = Some rem →
  points (tracker w) !! q = Some awarded →
  (end_test pts w).2 = Return tt ∧
  emitted (end_test pts) w =
    if bool_decide (awarded = (base + pts)%Z) then ["*** PASS: " +:+ name]
    else if bool_decide (awarded = base) then ["*** FAIL"] else [].
Proof.
  intros Hq Hn Hb Hr Hp. unfold emitted.
  destruct w as [t out nid pr cl lq]. simpl in *.
  assert (Hdrop : ∀ x : sink * string, drop (length pr) (pr ++ [x]) = [x]).
  { intros x. by rewrite drop_app_length. }
  assert (Hnil : drop (length pr) pr = []) by apply drop_all.
  run; (destruct (mute_output t); simpl; [destruct (muted t); simpl|]);
    repeat (progress (rewrite ?Hr, ?Hq, ?Hp, ?Hb, ?Hn; simpl));
    repeat (case_bool_decide;
            repeat (progress (rewrite ?Hr, ?Hq, ?Hp, ?Hb, ?Hn, ?Hdrop, ?Hnil; simpl)));
    try done; try congruence.
Qed.

(** C3, as stated, fails when [pts] is 0: the awarded total equals the
    baseline, and the line that [end_test 0] prints is the PASS line, so no
    FAIL line comes with it. *)
Lemma end_test_fail_iff_counterexample :
  ¬ ("*** FAIL" ∈ emitted (end_test 0) in_test ↔
     points (tracker in_test) !! "q1" = points_at_test_start (tracker in_test)).
Proof.
  intros [_ H].
  assert (Hin : "*** FAIL" ∈ emitted (end_test 0) in_test) by (apply H; reflexivity).
  vm_compute in Hin. apply list_elem_of_singleton in Hin. discriminate.
Qed.

(** C3 (amended): in a Tracker with a current question and a current test,
    [end_test pts] returns and prints the PASS line, alone, iff the awarded
    total is the baseline plus [pts]; it prints the FAIL line, alone, iff
    the awarded total is the baseline and [pts] is not 0; it prints nothing
    for a total strictly between the two, and more generally iff the total
    is neither of the two. *)
Theorem end_test_verdict (w : World) (pts : Z) q name base rem awarded :
  current_question (tracker w) = Some q →
  current_test (tracker w) = Some name →
  points_at_test_start (tracker w) = Some base →
  possible_points_remaining (tracker w) = Some rem →
  points (tracker w) !! q = Some awarded →
  (end_test pts w).2 = Return tt ∧
  (emitted (end_test pts) w = ["*** PASS: " +:+ name] ↔ awarded = (base + pts)%Z) ∧
  (emitted (end_test pts) w = ["*** FAIL"] ↔ awarded = base ∧ pts ≠ 0%Z) ∧
  ((base < awarded < base + pts)%Z → emitted (end_test pts) w = []) ∧
  (emitted (end_test pts) w = [] ↔ awarded ≠ (base + pts)%Z ∧ awarded ≠ base).
Proof.
  intros Hq Hn Hb Hr Hp.
  destruct (end_test_emitted w pts q name base rem awarded Hq Hn Hb Hr Hp)
    as [Hret ->].
  split; [done|].
  destruct (bool_decide (awarded = (base + pts)%Z)) eqn:E1;
    [apply bool_decide_eq_true in E1 | apply bool_decide_eq_false in E1];
    (destruct (bool_decide (awarded = base)) eqn:E2;
      [apply bool_decide_eq_true in E2 | apply bool_decide_eq_false in E2]).
  all: repeat split; intros; destruct_and?; simplify_eq/=; try lia; try done.
Qed.

Lemma end_test_verdict_witness :
  (end_test 2 in_test).2 = Return tt ∧
  (emitted (end_test 2) in_test = ["*** PASS: " +:+ "t"] ↔ 0%Z = (0 + 2)%Z) ∧
  (emitted (end_test 2) in_test = ["*** FAIL"] ↔ 0%Z = 0%Z ∧ 2%Z ≠ 0%Z) ∧
  ((0 < 0 < 0 + 2)%Z → emitted (end_test 2) in_test = []) ∧
  (emitted (end_test 2) in_test = [] ↔ 0%Z ≠ (0 + 2)%Z ∧ 0%Z ≠ 0%Z).
Proof.
  apply (end_test_verdict in_test 2 "q1" "t" 0 2 0); reflexivity.
Defined.

(** The three cases of the specification: baseline 0, two points declared,
    and 2, 0 or 1 point awarded. *)
Example end_test_cases :
  emitted (end_test 2) (add_points 2 in_test).1 = ["*** PASS: t"] ∧
  emitted (end_test 2) (add_points 0 in_test).1 = ["*** FAIL"] ∧
  emitted (end_test 2) (add_points 1 in_test).1 = [].
Proof. vm_compute. done. Qed.

(** C10: when the awarded total equals the baseline, [end_test 0] prints
    the PASS line and no FAIL line. *)
Theorem end_test_zero_pass (w : World) q name base rem :
  current_question (tracker w) = Some q →
  current_test (tracker w) = Some name →
  points_at_test_start (tracker w) = Some base →
  possible_points_remaining (tracker w) = Some rem →
  points (tracker w) !! q = Some base →
  (end_test 0 w).2 = Return tt ∧
  emitted (end_test 0) w = ["*** PASS: " +:+ name] ∧
  "*** FAIL" ∉ emitted (end_test 0) w.
Proof.
  intros Hq Hn Hb Hr Hp.
  destruct (end_test_emitted w 0 q name base rem base Hq Hn Hb Hr Hp)
    as [Hret ->].
  rewrite bool_decide_eq_true_2 by lia.
  split; [done|]. split; [done|].
  intros Hin%list_elem_of_singleton. discriminate.
Qed.

Lemma end_test_zero_pass_witness :
  (end_test 0 in_test).2 = Return tt ∧
  emitted (end_test 0) in_test = ["*** PASS: " +:+ "t"] ∧
  "*** FAIL" ∉ emitted (end_test 0) in_test.
Proof.
  apply (end_test_zero_pass in_test "q1" "t" 0 2); reflexivity.
Defined.

(** *** The driver: what it computes before the loop *)

Lemma declared_absent q (tests : list test_entry) :
  q ∉ test_ids tests → declared q tests = 0%Z.
Proof.
  induction tests as [|[[tq pts] fn] tests IH]; simpl; [done|].
  intros Hq. apply not_elem_of_cons in Hq as [Hne Hq].
  rewrite decide_False by done. auto.
Qed.

Lemma collect_fold (tests : list test_entry) :
  ∀ (qs : gset string) (mx : gmap string Z) (pre : gmap string (gset string)),
    let r := foldl (λ '(questions, maxes, PREREQS) '(q, points, _),
                      ({[q]} ∪ questions,
                       <[q := (default 0 (maxes !! q) + points)%Z]> maxes,
                       if decide (q ∈ dom PREREQS) then PREREQS
                       else <[q := ∅]> PREREQS))
                   (qs, mx, pre) tests in
    (∀ q, q ∈ r.1.1 ↔ q ∈ qs ∨ q ∈ test_ids tests) ∧
    (∀ q, r.1.2 !! q =
          if decide (q ∈ test_ids tests)
          then Some (default 0 (mx !! q) + declared q tests)%Z
          else mx !! q).
Proof.
  induction tests as [|[[tq pts] fn] tests IH]; intros qs mx pre; simpl.
  - split; intros q.
    + rewrite elem_of_nil. tauto.
    + destruct (decide (q ∈ [])) as [H|_]; [by apply elem_of_nil in H|done].
  - specialize (IH ({[tq]} ∪ qs) (<[tq := (default 0 (mx !! tq) + pts)%Z]> mx)
      (if decide (tq ∈ dom pre) then pre else <[tq := ∅]> pre)).
    simpl in IH. destruct IH as [IHq IHm]. split; intros q.
    + rewrite IHq, elem_of_union, elem_of_singleton, elem_of_cons. tauto.
    + rewrite IHm. destruct (decide (tq = q)) as [->|Hne].
      * rewrite lookup_insert_eq. simpl.
        rewrite (decide_True (P := q ∈ q :: test_ids tests)) by left.
        destruct (decide (q ∈ test_ids tests)) as [Hin|Hnin]; f_equal; [lia|].
        rewrite (declared_absent q tests Hnin). lia.
      * rewrite lookup_insert_ne by done.
        destruct (decide (q ∈ test_ids tests)) as [Hin|Hnin].
        -- by rewrite (decide_True (P := q ∈ tq :: test_ids tests)) by by right.
        -- rewrite (decide_False (P := q ∈ tq :: test_ids tests)); [done|].
           intros [?|?]%elem_of_cons; congruence.
Qed.

Lemma main_questions_elem TESTS PREREQS q :
  q ∈ main_questions TESTS PREREQS ↔ q ∈ test_ids TESTS.
Proof.
  unfold main_questions, sorted. rewrite merge_sort_Permutation, elem_of_elements.
  unfold collect. destruct (collect_fold TESTS ∅ ∅ PREREQS) as [Hq _].
  rewrite Hq. split; [|by right].
  intros [Hin|?]; [|done]. by apply not_elem_of_empty in Hin.
Qed.

Lemma main_questions_NoDup TESTS PREREQS : NoDup (main_questions TESTS PREREQS).
Proof.
  unfold main_questions, sorted. rewrite merge_sort_Permutation.
  apply NoDup_elements.
Qed.

Lemma main_maxes_lookup TESTS PREREQS q :
  main_maxes TESTS PREREQS !! q =
    if decide (q ∈ test_ids TESTS) then Some (declared q TESTS) else None.
Proof.
  unfold main_maxes, collect.
  destruct (collect_fold TESTS ∅ ∅ PREREQS) as [_ Hm]. rewrite Hm.
  rewrite lookup_empty. simpl. destruct (decide (q ∈ test_ids TESTS)); [|done].
  f_equal.
Qed.

Lemma start_tracker TESTS PREREQS out :
  questions (tracker (start TESTS PREREQS out)) = main_questions TESTS PREREQS ∧
  maxes (tracker (start TESTS PREREQS out)) = main_maxes TESTS PREREQS ∧
  points (tracker (start TESTS PREREQS out)) =
    list_to_map ((λ q, (q, 0%Z)) <$> main_questions TESTS PREREQS) ∧
  mute_output (tracker (start TESTS PREREQS out)) = false ∧
  called (start TESTS PREREQS out) = [].
Proof.
  unfold start, main_questions, main_maxes.
  destruct (collect TESTS PREREQS) as [[qs mx] pre]. done.
Qed.



(** *** The driver: which tests it calls, and in which order *)

Lemma begin_q_frame q w :
  called (begin_q q w).1 = called w ∧
  points (tracker (begin_q q w).1) = points (tracker w) ∧
  maxes (tracker (begin_q q w).1) = maxes (tracker w).
Proof.
  run. destruct (bool_decide (q ∈ questions (tracker w))); simpl; [|done].
  by destruct (maxes (tracker w) !! q).
Qed.

Lemma begin_q_returns q w w' b :
  begin_q q w = (w', Return b) →
  b = true ∧ current_question (tracker w') = Some q.
Proof.
  run. destruct (bool_decide (q ∈ questions (tracker w))); simpl; [|done].
  destruct (maxes (tracker w) !! q); simpl; [|done].
  intros [= <- <-]. done.
Qed.

Lemma end_q_frame w :
  called (end_q w).1 = called w ∧
  points (tracker (end_q w).1) = points (tracker w) ∧
  maxes (tracker (end_q w).1) = maxes (tracker w).
Proof.
  run. destruct (bool_decide (current_question (tracker w) ≠ None)); simpl; [|done].
  by destruct (bool_decide (possible_points_remaining (tracker w) = Some 0%Z)).
Qed.

(** The three ways out of the [try] statement. *)
Lemma try_test_cases i fn w :
  (∃ w', call i fn w = (w', Return tt) ∧ try_test i fn w = (w', Return tt)) ∨
  (∃ w', call i fn w = (w', Raise KeyboardInterrupt) ∧
         try_test i fn w = ((unmute w').1, Raise (SystemExit 1))) ∨
  (∃ w' e, call i fn w = (w', Raise e) ∧ e ≠ KeyboardInterrupt ∧
           try_test i fn w = ((unmute w').1, Return tt)).
Proof.
  unfold try_test. destruct (call i fn w) as [w' [[]|e]] eqn:E.
  - left. by exists w'.
  - right. pose proof (unmute_total w') as Hu.
    destruct (unmute w') as [w'' r] eqn:Eu. simpl in Hu. subst r.
    destruct e; try (right; eexists _, _; split; [done|]; split; [done|];
                     by rewrite ?Eu).
    left. exists w'. split; [done|]. unfold bind, sys_exit, raise.
    by rewrite Eu.
Qed.

Lemma call_called i fn w : called (call i fn w).1 = called w ++ [i].
Proof. unfold call. by destruct (fn w). Qed.

Lemma try_test_called i fn w : called (try_test i fn w).1 = called w ++ [i].
Proof.
  pose proof (call_called i fn w) as Hc.
  destruct (try_test_cases i fn w)
    as [(w' & E & ->)|[(w' & E & ->)|(w' & e & E & _ & ->)]];
    rewrite E in Hc; simpl in *; [done| |];
    destruct (unmute_frame w') as (_ & _ & _ & _ & _ & _ & _ & _ & ->); done.
Qed.

Lemma run_tests_called q (tests : list test_entry) :
  ∀ i w, ∃ l,
    called (run_tests q i tests w).1 = called w ++ l ∧
    l `prefix_of` tests_of q i tests ∧
    ((run_tests q i tests w).2 = Return tt → l = tests_of q i tests).
Proof.
  induction tests as [|[[tq pts] fn] tests IH]; intros i w; simpl.
  - exists []. by rewrite app_nil_r.
  - destruct (decide (tq ≠ q)) as [Hne|Heq].
    + rewrite decide_False by done. apply IH.
    + apply dec_stable in Heq. rewrite decide_True by done.
      unfold bind. pose proof (try_test_called i fn w) as Hc.
      destruct (try_test i fn w) as [w1 [[]|e]]; simpl in Hc.
      * destruct (IH (S i) w1) as (l & Hl & Hp & Hr). exists (i :: l).
        rewrite Hl, Hc, <- app_assoc. split; [done|]. split.
        -- by apply prefix_cons.
        -- intros H. by rewrite Hr.
      * exists [i]. simpl. split; [done|]. split; [|done].
        by apply prefix_cons, prefix_nil.
Qed.

Lemma loop_over_called TESTS qs :
  ∀ w, ∃ l,
    called (loop_over TESTS qs w).1 = called w ++ l ∧
    l `prefix_of` schedule TESTS qs ∧
    ((loop_over TESTS qs w).2 = Return tt → l = schedule TESTS qs).
Proof.
  unfold schedule. induction qs as [|q qs IH]; intros w; simpl.
  - exists []. by rewrite app_nil_r.
  - unfold bind. destruct (begin_q_frame q w) as (Hb & _).
    destruct (begin_q q w) as [w1 [b|e]] eqn:Eb; simpl in Hb.
    + apply begin_q_returns in Eb as [-> _]. simpl.
      destruct (run_tests_called q TESTS 0 w1) as (l1 & Hl1 & Hp1 & Hr1).
      destruct (run_tests q 0 TESTS w1) as [w2 [[]|e]]; simpl in *.
      * rewrite Hr1 in * by done. destruct (end_q_frame w2) as (He & _).
        destruct (end_q w2) as [w3 [[]|e]]; simpl in He.
        -- destruct (IH w3) as (l2 & Hl2 & Hp2 & Hr2).
           exists (tests_of q 0 TESTS ++ l2).
           rewrite Hl2, He, Hl1, Hb, <- app_assoc. split; [done|]. split.
           ++ by apply prefix_app.
           ++ intros H. by rewrite Hr2.
        -- exists (tests_of q 0 TESTS). simpl. rewrite He, Hl1, Hb.
           split; [done|]. split; [|done]. by apply prefix_app_r.
      * exists l1. rewrite Hl1, Hb. split; [done|]. split; [|done].
        by apply prefix_app_r.
    + exists []. simpl. rewrite Hb, app_nil_r. split; [done|]. split; [|done].
      apply prefix_nil.
Qed.

(** *** The loop of the source and the run of the specification *)

Lemma keeps_list_bind {A B} (m : M A) (k : A → M B) :
  keeps_list m → (∀ a, keeps_list (k a)) → keeps_list (bind m k).
Proof.
  intros Hm Hk w. unfold bind. specialize (Hm w).
  destruct (m w) as [w1 [a|e]]; simpl in *; [|done]. by rewrite Hk.
Qed.

Lemma begin_q_list q : keeps_list (begin_q q).
Proof.
  intros w. run. destruct (bool_decide (q ∈ questions (tracker w))); simpl; [|done].
  by destruct (maxes (tracker w) !! q).
Qed.

Lemma end_q_list : keeps_list end_q.
Proof.
  intros w. run.
  destruct (bool_decide (current_question (tracker w) ≠ None)); simpl; [|done].
  by destruct (bool_decide (possible_points_remaining (tracker w) = Some 0%Z)).
Qed.

Lemma mute_list : keeps_list mute.
Proof. intros w. run. by destruct (muted (tracker w)). Qed.

Lemma unmute_list : keeps_list unmute.
Proof. intros w. run. by destruct (muted (tracker w)). Qed.

Lemma add_points_list pts : keeps_list (add_points pts).
Proof.
  intros w. run. destruct (current_question (tracker w)) as [q|]; simpl; [|done].
  by destruct (points (tracker w) !! q).
Qed.

Lemma begin_test_list name : keeps_list (begin_test name).
Proof.
  unfold begin_test. apply keeps_list_bind; [done|]. intros _.
  apply keeps_list_bind; [done|]. intros t.
  apply keeps_list_bind.
  { intros w. unfold getitem. destruct (current_question t) as [q|]; [|done].
    by destruct (points t !! q). }
  intros p. apply keeps_list_bind; [done|]. intros _.
  apply keeps_list_bind; [done|]. intros t'.
  apply keeps_list_bind; [done|]. intros _.
  destruct (mute_output t'); [apply mute_list|done].
Qed.

Lemma end_test_list pts : keeps_list (end_test pts).
Proof.
  assert (Hget : ∀ (d : gmap string Z) k, keeps_list (getitem d k)).
  { intros d k w. unfold getitem. destruct k as [q|]; [|done].
    by destruct (d !! q). }
  unfold end_test. apply keeps_list_bind; [done|]. intros t.
  apply keeps_list_bind.
  { destruct (mute_output t); [apply unmute_list|done]. }
  intros _. apply keeps_list_bind; [done|]. intros t1.
  apply keeps_list_bind.
  { intros w. unfold py_sub. by destruct (possible_points_remaining t1). }
  intros r. apply keeps_list_bind; [done|]. intros _.
  apply keeps_list_bind; [done|]. intros t2.
  apply keeps_list_bind; [apply Hget|]. intros awarded.
  apply keeps_list_bind.
  { intros w. unfold py_add. by destruct (points_at_test_start t2). }
  intros target. apply keeps_list_bind.
  { destruct (bool_decide (awarded = target)); [done|].
    apply keeps_list_bind; [apply Hget|]. intros a.
    by destruct (bool_decide (Some a = points_at_test_start t2)). }
  intros _. apply keeps_list_bind; [done|]. intros _. done.
Qed.

Lemma bracket_list name given pts : keeps_list (bracket name given pts).
Proof.
  unfold bracket. apply keeps_list_bind; [apply begin_test_list|]. intros _.
  apply keeps_list_bind; [apply add_points_list|]. intros _.
  apply end_test_list.
Qed.

Lemma call_list i fn : keeps_list fn → keeps_list (call i fn).
Proof. intros H w. unfold call. specialize (H w). by destruct (fn w). Qed.

Lemma try_test_list i fn : keeps_list fn → keeps_list (try_test i fn).
Proof.
  intros H w. pose proof (call_list i fn H w) as Hc.
  destruct (try_test_cases i fn w)
    as [(w' & E & ->)|[(w' & E & ->)|(w' & e & E & _ & ->)]];
    rewrite E in Hc; simpl in *; rewrite ?unmute_list; done.
Qed.

Lemma run_tests_list q (tests : list test_entry) :
  (∀ pts fn, (q, pts, fn) ∈ tests → keeps_list fn) →
  ∀ i, keeps_list (run_tests q i tests).
Proof.
  induction tests as [|[[tq pts] fn] tests IH]; intros Hall i; simpl; [done|].
  assert (Hrest : ∀ pts fn, (q, pts, fn) ∈ tests → keeps_list fn).
  { intros ?? Hin. eapply Hall. right. exact Hin. }
  destruct (decide (tq ≠ q)) as [Hne|Heq]; [by apply IH|].
  apply dec_stable in Heq. subst tq.
  apply keeps_list_bind; [apply try_test_list; eapply Hall; left|].
  intros _. by apply IH.
Qed.

Lemma start_list TESTS PREREQS out :
  loop_questions (start TESTS PREREQS out) = main_questions TESTS PREREQS.
Proof.
  unfold start, main_questions.
  destruct (collect TESTS PREREQS) as [[qs mx] pre]. done.
Qed.

(** As long as the tests of the questions [qs] leave the list alone, the
    loop of the source, standing before a stretch [qs] of its list, does
    what the loop over the fixed list [qs] does and goes on behind it. *)
Lemma run_questions_loop_over TESTS (qs : list string) :
  (∀ q pts fn, q ∈ qs → (q, pts, fn) ∈ TESTS → keeps_list fn) →
  ∀ steps i w,
    qs `prefix_of` drop i (loop_questions w) →
    loop_questions (loop_over TESTS qs w).1 = loop_questions w ∧
    run_questions (length qs + steps) TESTS i w =
      match loop_over TESTS qs w with
      | (w', Return _) => run_questions steps TESTS (i + length qs) w'
      | (w', Raise e) => Some (w', Raise e)
      end.
Proof.
  induction qs as [|q qs IH]; intros Hall steps i w Hpre.
  { simpl. by rewrite Nat.add_0_r. }
  destruct Hpre as [k Hk].
  assert (Hq : loop_questions w !! i = Some q).
  { rewrite <- (Nat.add_0_r i), <- lookup_drop, Hk. done. }
  assert (Hrest : ∀ w', loop_questions w' = loop_questions w →
                        qs `prefix_of` drop (S i) (loop_questions w')).
  { intros w' ->. exists k.
    replace (S i) with (i + 1) by lia. by rewrite <- drop_drop, Hk. }
  assert (Hall' : ∀ q' pts fn, q' ∈ qs → (q', pts, fn) ∈ TESTS → keeps_list fn).
  { intros q' pts fn Hin. apply Hall. by right. }
  cbn [length Nat.add run_questions loop_over]. rewrite Hq. unfold bind.
  pose proof (begin_q_list q w) as L1.
  destruct (begin_q q w) as [w1 [b|e]]; [|done]. simpl in L1.
  destruct (negb b).
  { destruct (IH Hall' steps (S i) w1 (Hrest w1 L1)) as [L E].
    split; [congruence|]. rewrite E.
    by replace (i + S (length qs)) with (S i + length qs) by lia. }
  pose proof (run_tests_list q TESTS (λ pts fn, Hall q pts fn (list_elem_of_here _ _))
                0 w1) as L2.
  destruct (run_tests q 0 TESTS w1) as [w2 [[]|e]]; [|split; [simpl in *; congruence|done]].
  simpl in L2. pose proof (end_q_list w2) as L3.
  destruct (end_q w2) as [w3 [[]|e]]; [|split; [simpl in *; congruence|done]].
  simpl in L3.
  destruct (IH Hall' steps (S i) w3) as [L E].
  { apply Hrest. congruence. }
  split; [congruence|]. rewrite E.
  by replace (i + S (length qs)) with (S i + length qs) by lia.
Qed.

(** When no test changes the list that [main] walks, [main] does what the
    loop over the sorted questions does, as soon as it is given one step
    per question and one more to find the end of the list. *)
Lemma main_loop_over_run TESTS PREREQS out (more : nat) :
  (∀ tq pts fn, (tq, pts, fn) ∈ TESTS → keeps_list fn) →
  main (S (length (main_questions TESTS PREREQS)) + more) TESTS PREREQS out
    = Some (main_loop_over TESTS PREREQS out).
Proof.
  intros Hall. unfold main, main_loop_over.
  set (qs := main_questions TESTS PREREQS).
  destruct (run_questions_loop_over TESTS qs (λ q pts fn _, Hall q pts fn)
              (S more) 0 (start TESTS PREREQS out)) as [L E].
  { rewrite start_list. done. }
  replace (S (length qs) + more) with (length qs + S more) by lia.
  rewrite E. rewrite start_list in L.
  destruct (loop_over TESTS qs (start TESTS PREREQS out)) as [w' [[]|e]];
    [|done].
  simpl in *. rewrite L. fold qs. by rewrite lookup_ge_None_2.
Qed.

(** The [try] statement of the source does with a test what the
    specification says. *)
Lemma try_test_attempt (TESTS : list test_entry) i tq pts fn w :
  TESTS !! i = Some ((tq, pts, fn) : test_entry) →
  try_test i fn w = attempt TESTS i w.
Proof.
  intros Hi. unfold attempt. unfold test_entry, M in *. rewrite Hi.
  destruct (try_test_cases i fn w)
    as [(w' & E & ->)|[(w' & E & ->)|(w' & e & E & Hne & ->)]];
    unfold call in E; destruct (fn w) as [w1 r1]; injection E as <- ->;
    [done|done|].
  by destruct e.
Qed.

Lemma run_tests_attempts q (TESTS : list test_entry) :
  ∀ tests i, drop i TESTS = tests →
    ∀ w, run_tests q i tests w = attempts TESTS (tests_of q i tests) w.
Proof.
  induction tests as [|[[tq pts] fn] tests IH]; intros i Hd w; simpl; [done|].
  assert (Hi : TESTS !! i = Some ((tq, pts, fn) : test_entry)).
  { rewrite <- (Nat.add_0_r i), <- lookup_drop, Hd. done. }
  assert (Hd' : drop (S i) TESTS = tests).
  { replace (S i) with (i + 1) by lia. by rewrite <- drop_drop, Hd. }
  destruct (decide (tq ≠ q)) as [Hne|Heq].
  - rewrite decide_False by done. by apply IH.
  - apply dec_stable in Heq. subst tq. rewrite decide_True by done.
    cbn [attempts]. unfold bind.
    rewrite (try_test_attempt TESTS i q pts fn w Hi).
    destruct (attempt TESTS i w) as [w1 [[]|e]]; [|done]. by apply IH.
Qed.

(** On a list that stays as it is, the loop of the source is the run of
    the specification. *)
Lemma loop_over_in_order (TESTS : list test_entry) (qs : list string) :
  ∀ w, loop_over TESTS qs w = in_order TESTS qs w.
Proof.
  induction qs as [|q qs IH]; intros w; simpl; [done|].
  unfold question, bind.
  destruct (begin_q q w) as [w1 [b|e]] eqn:Eb; [|done].
  apply begin_q_returns in Eb as [-> _]. cbn [negb].
  rewrite (run_tests_attempts q TESTS TESTS 0 eq_refl w1).
  destruct (attempts TESTS (tests_of q 0 TESTS) w1) as [w2 [[]|e]]; [|done].
  destruct (end_q w2) as [w3 [[]|e]]; [|done]. apply IH.
Qed.

(** The run of the specification: tests registered for "q2" and then for
    "q1"; the driver calls the test of "q1" (position 1) first. *)
Example main_two_questions :
  main_questions two_questions ∅ = ["q1"; "q2"] ∧
  ∃ w, main 3 two_questions ∅ (Stream 0) = Some (w, Return tt) ∧
       called w = [1; 0] ∧
       snd <$> printed w =
         ["*** q1) a"; "*** PASS: a"; "*** q2) b"; "*** PASS: b"].
Proof.
  split; [vm_compute; done|]. eexists. split; [vm_compute; reflexivity|].
  vm_compute. done.
Qed.

(** A test that never calls [end_test] leaves the remaining possible points
    at the max of its question, and [end_q] then fails its second
    assertion: the run ends there, after the tests of the first question. *)
Example main_unbracketed :
  ∃ w, main 2 unbracketed ∅ (Stream 0) = Some (w, Raise AssertionError) ∧
       called w = [0] ∧
       points (tracker w) !! "q3" = Some 6%Z ∧
       possible_points_remaining (tracker w) = Some 6%Z.
Proof. eexists. split; [vm_compute; reflexivity|]. vm_compute. done. Qed.



Lemma two_questions_keep (tq : string) (pts : Z) (fn : M unit) :
  (tq, pts, fn) ∈ two_questions → keeps_list fn.
Proof.
  intros Hin. unfold two_questions in Hin.
  apply elem_of_cons in Hin as [[= -> -> ->]|Hin]; [apply bracket_list|].
  apply elem_of_cons in Hin as [[= -> -> ->]|Hin]; [apply bracket_list|].
  by apply elem_of_nil in Hin.
Qed.


(** *** The driver: a test that raises *)

(** A loop over a concatenation is the loop over the first part followed,
    unless that raised, by the loop over the second. *)
Lemma run_tests_app q (pre post : list test_entry) :
  ∀ i w, run_tests q i (pre ++ post) w =
         (run_tests q i pre >> run_tests q (i + length pre) post) w.
Proof.
  induction pre as [|[[tq pts] fn] pre IH]; intros i w; simpl.
  - unfold bind, ret. by rewrite Nat.add_0_r.
  - destruct (decide (tq ≠ q)).
    + rewrite IH. unfold bind. by replace (i + S (length pre)) with (S i + length pre) by lia.
    + unfold bind. destruct (try_test i fn w) as [w1 [[]|e]]; [|done].
      rewrite IH. unfold bind.
      by replace (i + S (length pre)) with (S i + length pre) by lia.
Qed.

Lemma loop_over_app TESTS (qs1 qs2 : list string) :
  ∀ w, loop_over TESTS (qs1 ++ qs2) w =
       (loop_over TESTS qs1 >> loop_over TESTS qs2) w.
Proof.
  induction qs1 as [|q qs1 IH]; intros w; simpl; [done|].
  unfold bind. destruct (begin_q q w) as [w1 [b|e]]; [|done].
  destruct (negb b); [by rewrite IH|].
  destruct (run_tests q 0 TESTS w1) as [w2 [[]|e]]; [|done].
  destruct (end_q w2) as [w3 [[]|e]]; [|done].
  by rewrite IH.
Qed.

(** A run in which the first test fails an assertion after awarding a
    point and the second is interrupted: the point stays, the third test is
    never called, and the process ends with status 1. *)
Example main_interrupted :
  ∃ w, main 2 interrupted ∅ (Stream 0) = Some (w, Raise (SystemExit 1)) ∧
       exit_status (Raise (SystemExit 1)) = 1%Z ∧
       called w = [0; 1] ∧
       points (tracker w) !! "q1" = Some 1%Z.
Proof. eexists. split; [vm_compute; reflexivity|]. vm_compute. done. Qed.

(** What [unmute] leaves: a muted Tracker is no longer muted and
    [sys.stdout] is the sink that [mute] had saved; nothing else changes,
    and a Tracker that is not muted is left alone. *)
Lemma unmute_world w :
  (unmute w).1 =
    if muted (tracker w)
    then mkWorld (set_muted false (tracker w)) (original_stdout (tracker w))
           (next_id w) (printed w) (called w) (loop_questions w)
    else w.
Proof. run. by destruct (muted (tracker w)). Qed.

(** C8: let the test at registry position [i], registered for the question
    being run, raise [e].  In both cases the driver calls [unmute]: the
    Tracker is not muted after it and, if the test had left it muted,
    [sys.stdout] is again the sink that was saved when it was muted; the
    points are as the test left them.  If [e] is not an interrupt, the
    driver goes on with the rest of the registry.  If [e] is an interrupt,
    the inner loop ends in [SystemExit(1)] without looking at the rest;
    and wherever the loop of [main] stands when this happens, it ends there
    in [SystemExit(1)], so the process exits with status 1 and no further
    test is called. *)
Theorem try_test_raise (q : string) (i : nat) (pts : Z) (fn : M unit)
    (rest : list test_entry) (w w' : World) (e : exn) :
  call i fn w = (w', Raise e) →
  muted (tracker (unmute w').1) = false ∧
  sys_stdout (unmute w').1 =
    (if muted (tracker w') then original_stdout (tracker w')
     else sys_stdout w') ∧
  (unmute w').1 =
    (if muted (tracker w')
     then mkWorld (set_muted false (tracker w')) (original_stdout (tracker w'))
            (next_id w') (printed w') (called w') (loop_questions w')
     else w') ∧
  points (tracker (unmute w').1) = points (tracker w') ∧
  called (unmute w').1 = called w ++ [i] ∧
  (e ≠ KeyboardInterrupt →
     run_tests q i ((q, pts, fn) :: rest) w =
       run_tests q (S i) rest (unmute w').1) ∧
  (e = KeyboardInterrupt →
     run_tests q i ((q, pts, fn) :: rest) w =
       ((unmute w').1, Raise (SystemExit 1)) ∧
     exit_status (Raise (SystemExit 1)) = 1%Z ∧
     (∀ (TESTS pre : list test_entry) steps j w0 w1,
        TESTS = pre ++ (q, pts, fn) :: rest →
        i = length pre →
        loop_questions w0 !! j = Some q →
        begin_q q w0 = (w1, Return true) →
        run_tests q 0 pre w1 = (w, Return tt) →
        run_questions (S steps) TESTS j w0
          = Some ((unmute w').1, Raise (SystemExit 1))) ∧
     (∀ (TESTS pre : list test_entry) PREREQS out before qs more w0 w1,
        TESTS = pre ++ (q, pts, fn) :: rest →
        i = length pre →
        main_questions TESTS PREREQS = before ++ q :: qs →
        (∀ tq pts' fn', tq ∈ before → (tq, pts', fn') ∈ TESTS →
                        keeps_list fn') →
        in_order TESTS before (start TESTS PREREQS out) = (w0, Return tt) →
        begin_q q w0 = (w1, Return true) →
        run_tests q 0 pre w1 = (w, Return tt) →
        main (S (length before) + more) TESTS PREREQS out
          = Some ((unmute w').1, Raise (SystemExit 1)))).
Proof.
  intros Hcall.
  split; [apply unmute_muted|].
  split; [rewrite unmute_world; by destruct (muted (tracker w'))|].
  split; [apply unmute_world|].
  destruct (unmute_frame w') as (Hpts & _ & _ & _ & _ & _ & _ & _ & Hcl).
  split; [done|]. split.
  { rewrite Hcl. pose proof (call_called i fn w) as Hc. by rewrite Hcall in Hc. }
  assert (Hstep : ∀ r, try_test i fn w = ((unmute w').1, r) →
            run_tests q i ((q, pts, fn) :: rest) w =
              match r with
              | Return _ => run_tests q (S i) rest (unmute w').1
              | Raise x => ((unmute w').1, Raise x)
              end).
  { intros r Hr. simpl. rewrite decide_False by (intros H; by apply H).
    unfold bind. rewrite Hr. by destruct r as [[]|x]. }
  destruct (try_test_cases i fn w)
    as [(w2 & E & _)|[(w2 & E & Ht)|(w2 & e2 & E & Hne & Ht)]];
    rewrite Hcall in E; [discriminate E| |]; injection E as <- <-.
  - split; [intros H; by destruct H|]. intros _.
    split; [by rewrite (Hstep _ Ht)|]. split; [done|].
    assert (Hloop : ∀ (TESTS pre : list test_entry) steps j w0 w1,
              TESTS = pre ++ (q, pts, fn) :: rest →
              i = length pre →
              loop_questions w0 !! j = Some q →
              begin_q q w0 = (w1, Return true) →
              run_tests q 0 pre w1 = (w, Return tt) →
              run_questions (S steps) TESTS j w0
                = Some ((unmute w').1, Raise (SystemExit 1))).
    { intros TESTS pre steps j w0 w1 HT Hi Hj Hbegin Hpre. subst TESTS i.
      cbn [run_questions]. rewrite Hj, Hbegin. cbn [negb].
      rewrite run_tests_app. unfold bind at 1.
      rewrite Hpre, Nat.add_0_l.
      set (x := run_tests q _ _ w).
      assert (x = ((unmute w').1, Raise (SystemExit 1))) as ->
        by exact (Hstep _ Ht).
      done. }
    split; [exact Hloop|].
    intros TESTS pre PREREQS out before qs more w0 w1 HT Hi Hqs Hkeep Hbefore
      Hbegin Hpre.
    rewrite <- loop_over_in_order in Hbefore. unfold main.
    destruct (run_questions_loop_over TESTS before Hkeep (S more) 0
                (start TESTS PREREQS out)) as [L E].
    { rewrite start_list, Hqs. simpl. by apply prefix_app_r. }
    replace (S (length before) + more) with (length before + S more) by lia.
    rewrite E, Hbefore. simpl.
    apply (Hloop TESTS pre more (length before) w0 w1 HT Hi); [|done|done].
    rewrite Hbefore in L. simpl in L. rewrite L, start_list, Hqs.
    by rewrite lookup_app_r, Nat.sub_diag by lia.
  - split; [intros _; by rewrite (Hstep _ Ht)|]. intros H. by destruct Hne.
Qed.

Lemma try_test_raise_witness :
  let w := (begin_q "q1" (start interrupted ∅ (Stream 0))).1 in
  let fn0 : M unit := add_points 1 >> raise AssertionError in
  let fn1 : M unit := raise KeyboardInterrupt in
  let rest := [("q1", 0%Z, ret tt)] : list test_entry in
  (run_tests "q1" 0 (("q1", 1%Z, fn0) :: ("q1", 1%Z, fn1) :: rest) w =
     run_tests "q1" 1 (("q1", 1%Z, fn1) :: rest) (unmute (call 0 fn0 w).1).1) ∧
  (main (S (length ([] : list string)) + 0) interrupted ∅ (Stream 0) =
     Some ((unmute (call 1 fn1 (unmute (call 0 fn0 w).1).1).1).1,
           Raise (SystemExit 1))).
Proof.
  intros w fn0 fn1 rest. split.
  - apply (try_test_raise "q1" 0 1 fn0 (("q1", 1%Z, fn1) :: rest) w
             (call 0 fn0 w).1 AssertionError); [reflexivity | discriminate].
  - destruct (try_test_raise "q1" 1 1 fn1 rest (unmute (call 0 fn0 w).1).1
                (call 1 fn1 (unmute (call 0 fn0 w).1).1).1 KeyboardInterrupt
                eq_refl) as (_ & _ & _ & _ & _ & _ & H).
    destruct (H eq_refl) as (_ & _ & _ & Hmain).
    apply (Hmain interrupted [("q1", 1%Z, fn0)] ∅ (Stream 0) [] [] 0
             (start interrupted ∅ (Stream 0)) w); try reflexivity.
    intros tq pts' fn' Hin. by apply elem_of_nil in Hin.
Defined.

(** *** The driver: points against maxes *)

(** C9, as stated, fails: nothing caps what a test awards.  With one test
    that declares two points and awards three, every assertion holds,
    [main] returns, and the points of "q1" exceed its max. *)
Lemma points_within_max_counterexample :
  ∃ w, main 2 generous ∅ (Stream 0) = Some (w, Return tt) ∧
       points (tracker w) !! "q1" = Some 3%Z ∧
       maxes (tracker w) !! "q1" = Some 2%Z ∧
       ¬ (∀ q a m, points (tracker w) !! q = Some a →
                   maxes (tracker w) !! q = Some m → (a ≤ m)%Z).
Proof.
  eexists. split; [vm_compute; reflexivity|].
  split; [vm_compute; done|]. split; [vm_compute; done|].
  intros Hall. specialize (Hall "q1" 3%Z 2%Z).
  assert (3 ≤ 2)%Z; [|lia].
  apply Hall; vm_compute; done.
Qed.

(** What one pass through the [try] statement does to the points. *)
Lemma try_test_awards pts fn i w :
  awards_at_most pts fn →
  current_question (tracker (try_test i fn w).1) = current_question (tracker w) ∧
  maxes (tracker (try_test i fn w).1) = maxes (tracker w) ∧
  ∀ q a, points (tracker w) !! q = Some a →
    ∃ b, points (tracker (try_test i fn w).1) !! q = Some b ∧
         (b ≤ a + if decide (current_question (tracker w) = Some q)
                  then pts else 0)%Z.
Proof.
  intros Hfn.
  assert (Hcall : tracker (call i fn w).1 = tracker (fn w).1).
  { unfold call. by destruct (fn w). }
  destruct (fn w) as [w1 r1] eqn:Efn. destruct (Hfn _ _ _ Efn) as (Hc & Hm & Hp).
  simpl in Hcall.
  destruct (try_test_cases i fn w)
    as [(w' & E & ->)|[(w' & E & ->)|(w' & e & E & _ & ->)]];
    rewrite E in Hcall; simpl in *;
    try (destruct (unmute_frame w') as (-> & -> & _ & _ & _ & -> & _));
    rewrite Hcall; done.
Qed.

Lemma run_tests_awards q (tests : list test_entry) :
  (∀ tq pts fn, (tq, pts, fn) ∈ tests → awards_at_most pts fn) →
  ∀ i w w',
    current_question (tracker w) = Some q →
    run_tests q i tests w = (w', Return tt) →
    current_question (tracker w') = Some q ∧
    maxes (tracker w') = maxes (tracker w) ∧
    ∀ q' a, points (tracker w) !! q' = Some a →
      ∃ b, points (tracker w') !! q' = Some b ∧
           (b ≤ a + if decide (q' = q) then declared q tests else 0)%Z.
Proof.
  induction tests as [|[[tq pts] fn] tests IH]; intros Hall i w w' Hq; simpl.
  - intros [= <-]. split; [done|]. split; [done|]. intros q' a Ha.
    exists a. split; [done|]. destruct (decide (q' = q)); lia.
  - assert (Hrest : ∀ tq pts fn, (tq, pts, fn) ∈ tests → awards_at_most pts fn).
    { intros ??? Hin. eapply Hall. right. exact Hin. }
    destruct (decide (tq ≠ q)) as [Hne|Heq].
    + destruct (decide (tq = q)) as [?|_]; [done|]. by apply IH.
    + apply dec_stable in Heq. subst tq.
      destruct (decide (q = q)) as [_|?]; [|done].
      unfold bind.
      destruct (try_test_awards pts fn i w) as (Hc1 & Hm1 & Hp1).
      { eapply Hall. left. }
      destruct (try_test i fn w) as [w1 [[]|e]]; simpl in *; [|done].
      intros Hrun.
      destruct (IH Hrest (S i) w1 w') as (Hc2 & Hm2 & Hp2); [congruence|done|].
      split; [done|]. split; [congruence|]. intros q' a Ha.
      destruct (Hp1 q' a Ha) as (b1 & Hb1 & Hle1).
      destruct (Hp2 q' b1 Hb1) as (b2 & Hb2 & Hle2).
      exists b2. split; [done|]. rewrite Hq in Hle1.
      destruct (decide (q' = q)) as [->|Hne'].
      * rewrite decide_True in Hle1 by done. lia.
      * rewrite decide_False in Hle1 by congruence. lia.
Qed.

Lemma loop_over_awards TESTS (qs : list string) :
  (∀ tq pts fn, (tq, pts, fn) ∈ TESTS → awards_at_most pts fn) →
  NoDup qs →
  ∀ w w',
    loop_over TESTS qs w = (w', Return tt) →
    maxes (tracker w') = maxes (tracker w) ∧
    ∀ q a, points (tracker w) !! q = Some a →
      ∃ b, points (tracker w') !! q = Some b ∧
           (b ≤ a + if decide (q ∈ qs) then declared q TESTS else 0)%Z.
Proof.
  intros Hall. induction qs as [|q qs IH]; intros Hnd w w'; cbn [loop_over].
  - intros [= <-]. split; [done|]. intros q a Ha. exists a. split; [done|].
    rewrite decide_False by apply not_elem_of_nil. lia.
  - apply NoDup_cons in Hnd as [Hq Hnd]. unfold bind.
    destruct (begin_q_frame q w) as (_ & Hpb & Hmb).
    destruct (begin_q q w) as [w1 [b|e]] eqn:Eb; [|done].
    apply begin_q_returns in Eb as [-> Hcq]. cbn [negb fst] in *.
    destruct (run_tests q 0 TESTS w1) as [w2 [[]|e]] eqn:Et; [|done].
    destruct (run_tests_awards q TESTS Hall 0 w1 w2 Hcq Et) as (_ & Hm2 & Hp2).
    destruct (end_q_frame w2) as (_ & Hpe & Hme).
    destruct (end_q w2) as [w3 [[]|e]]; [|done]. cbn [fst] in *.
    intros Hrun. destruct (IH Hnd w3 w' Hrun) as (Hm3 & Hp3).
    split; [congruence|]. intros q' a Ha.
    rewrite <- Hpb in Ha. destruct (Hp2 q' a Ha) as (b2 & Hb2 & Hle2).
    rewrite <- Hpe in Hb2. destruct (Hp3 q' b2 Hb2) as (b3 & Hb3 & Hle3).
    exists b3. split; [done|].
    destruct (decide (q' = q)) as [->|Hne].
    + rewrite decide_False in Hle3 by done.
      rewrite (decide_True (P := q ∈ q :: qs)) by left. lia.
    + destruct (decide (q' ∈ qs)) as [Hin|Hnin].
      * rewrite (decide_True (P := q' ∈ q :: qs)) by by right. lia.
      * rewrite (decide_False (P := q' ∈ q :: qs)); [lia|].
        intros [?|?]%elem_of_cons; done.
Qed.

Lemma zero_points_lookup (qs : list string) q :
  q ∈ qs →
  (list_to_map ((λ q, (q, 0%Z)) <$> qs) : gmap string Z) !! q = Some 0%Z.
Proof.
  induction qs as [|x qs IH]; simpl; [by intros ?%elem_of_nil|].
  intros Hq. destruct (decide (x = q)) as [->|Hne].
  - by rewrite lookup_insert_eq.
  - rewrite lookup_insert_ne by done. apply IH.
    apply elem_of_cons in Hq as [?|?]; [congruence|done].
Qed.

(** A bracketed test that awards no more than it declares only awards
    points. *)
Lemma bracket_awards name given pts :
  (given ≤ pts)%Z → awards_at_most pts (bracket name given pts).
Proof.
  intros Hle w w' r H.
  assert (w' = (bracket name given pts w).1) as -> by (by rewrite H).
  clear H. destruct w as [t out nid pr cl lq]. unfold bracket. run.
  destruct (current_question t) as [q0|] eqn:Eq; simpl;
    [destruct (points t !! q0) as [p|] eqn:Ep; simpl|].
  all: repeat (match goal with
               | |- context [match ?x with _ => _ end] =>
                   lazymatch x with
                   | context [match _ with _ => _ end] => fail
                   | _ => destruct x eqn:?; simpl in *
                   end
               end; rewrite ?Eq, ?Ep, ?lookup_insert_eq in *; simpl in * ).
  all: split; [done|]; split; [done|]; intros q a Ha.
  all: try (exists a; split; [done|]; try case_decide; simplify_eq; lia).
  all: match goal with
       | |- context [<[?k := _]> _ !! ?q] => destruct (decide (k = q)) as [->|Hne]
       end;
    [rewrite lookup_insert_eq; eexists; split; [done|];
     rewrite decide_True by done; simplify_eq; lia
    |rewrite lookup_insert_ne by done; exists a; split; [done|];
     rewrite decide_False by congruence; lia].
Qed.

(** A test that awards no more than it declares can still push a question
    over its max by changing the list of questions: the test of [stutter]
    only awards points, at most the one it declares, and yet its run ends
    with two points against a max of one. *)
Lemma stutter_awards (tq : string) (pts : Z) (fn : M unit) :
  (tq, pts, fn) ∈ stutter → awards_at_most pts fn.
Proof.
  intros Hin. unfold stutter in Hin.
  apply elem_of_cons in Hin as [[= -> -> ->]|Hin];
    [|by apply elem_of_nil in Hin].
  intros w w' r H. unfold bind, get_tracker in H. cbn [fst snd] in H.
  destruct (bool_decide (length (questions (tracker w)) < 2)).
  - cbn in H.
    apply (bracket_awards "a" 1 1 ltac:(lia)) in H. exact H.
  - cbn in H.
    apply (bracket_awards "a" 1 1 ltac:(lia)) in H. exact H.
Qed.

(** C9 (amended): let every registered test only award points, at most the
    points it declares, and leave the list of questions that [main] walks
    as it is.  Then, at the moment the loop of [main] has run the first
    questions of its sorted list and each [end_q] has returned, the points
    of each of these questions are at most its max, which is the sum of the
    points declared for it. *)
Theorem points_within_max (TESTS : list test_entry)
    (PREREQS : gmap string (gset string)) (out : sink)
    (before rest : list string) (w : World) (more : nat) :
  (∀ tq pts fn, (tq, pts, fn) ∈ TESTS →
                awards_at_most pts fn ∧ keeps_list fn) →
  main_questions TESTS PREREQS = before ++ rest →
  in_order TESTS before (start TESTS PREREQS out) = (w, Return tt) →
  main (length before + more) TESTS PREREQS out
    = run_questions more TESTS (length before) w ∧
  ∀ q, q ∈ before →
    ∃ a m, points (tracker w) !! q = Some a ∧
           maxes (tracker w) !! q = Some m ∧
           m = declared q TESTS ∧ (a ≤ m)%Z.
Proof.
  intros Hboth Hqs Hrun. rewrite <- loop_over_in_order in Hrun.
  assert (Hall : ∀ tq pts fn, (tq, pts, fn) ∈ TESTS → awards_at_most pts fn).
  { intros tq pts fn Hin. by destruct (Hboth tq pts fn Hin). }
  split.
  { unfold main.
    destruct (run_questions_loop_over TESTS before
                (λ q pts fn _ Hin, proj2 (Hboth q pts fn Hin))
                more 0 (start TESTS PREREQS out)) as [_ E].
    { rewrite start_list, Hqs. by apply prefix_app_r. }
    by rewrite E, Hrun. }
  intros q Hq.
  pose proof (main_questions_NoDup TESTS PREREQS) as Hnd.
  rewrite Hqs in Hnd. apply NoDup_app in Hnd as (Hnd & _ & _).
  destruct (loop_over_awards TESTS before Hall Hnd _ _ Hrun) as (Hm & Hp).
  destruct (start_tracker TESTS PREREQS out) as (_ & Hmx & Hpts & _ & _).
  assert (Hin : q ∈ main_questions TESTS PREREQS).
  { rewrite Hqs. apply elem_of_app. by left. }
  destruct (Hp q 0%Z) as (b & Hb & Hle).
  { rewrite Hpts. by apply zero_points_lookup. }
  rewrite decide_True in Hle by done.
  exists b, (declared q TESTS). split; [done|]. split; [|split; [done|lia]].
  rewrite Hm, Hmx, main_maxes_lookup.
  apply main_questions_elem in Hin. by rewrite decide_True.
Qed.

Lemma two_questions_award (tq : string) (pts : Z) (fn : M unit) :
  (tq, pts, fn) ∈ two_questions → awards_at_most pts fn ∧ keeps_list fn.
Proof.
  intros Hin. split; [|by eapply two_questions_keep].
  unfold two_questions in Hin.
  apply elem_of_cons in Hin as [[= -> -> ->]|Hin]; [by apply bracket_awards|].
  apply elem_of_cons in Hin as [[= -> -> ->]|Hin]; [by apply bracket_awards|].
  by apply elem_of_nil in Hin.
Qed.

Lemma points_within_max_witness :
  let w := (in_order two_questions ["q1"; "q2"]
              (start two_questions ∅ (Stream 0))).1 in
  (main (length ["q1"; "q2"] + 1) two_questions ∅ (Stream 0)
     = run_questions 1 two_questions (length ["q1"; "q2"]) w) ∧
  (∃ a m, points (tracker w) !! "q1" = Some a ∧
          maxes (tracker w) !! "q1" = Some m ∧
          m = declared "q1" two_questions ∧ (a ≤ m)%Z) ∧
  (∃ a m, points (tracker w) !! "q2" = Some a ∧
          maxes (tracker w) !! "q2" = Some m ∧
          m = declared "q2" two_questions ∧ (a ≤ m)%Z).
Proof.
  intros w.
  destruct (points_within_max two_questions ∅ (Stream 0) ["q1"; "q2"] [] w 1
              two_questions_award) as [Hmain Hq].
  - vm_compute. reflexivity.
  - vm_compute. reflexivity.
  - split; [exact Hmain|]. split; apply Hq; [left|right; left].
Defined.

(** ** More of the harness *)

(** *** Further definitions *)

(** [for line in lines: print(line)] *)
Fixpoint print_all (lines : list string) : M unit :=
  match lines with
  | [] => ret tt
  | line :: rest => print line >> print_all rest
  end.

(** A test body as a test function would run it against the Tracker: a
    bracket that prints [lines] before it awards [given] points. *)
Definition noisy_bracket (name : string) (lines : list string) (given pts : Z)
    : M unit :=
  begin_test name >> print_all lines >> add_points given >> end_test pts.

(** One bracket after the other; an entry is [(name, given, pts)]. *)
Fixpoint brackets (bs : list (string * Z * Z)) : M unit :=
  match bs with
  | [] => ret tt
  | (name, given, pts) :: rest => bracket name given pts >> brackets rest
  end.

(** The points awarded and the weights declared by a list of brackets. *)
Definition total_given (bs : list (string * Z * Z)) : Z :=
  foldr (λ b acc, (b.1.2 + acc)%Z) 0%Z bs.
Definition total_weight (bs : list (string * Z * Z)) : Z :=
  foldr (λ b acc, (b.2 + acc)%Z) 0%Z bs.

(** A question from [begin_q] to [end_q], with bracketed tests between. *)
Definition session (q : string) (bs : list (string * Z * Z)) : M unit :=
  begin_q q >> brackets bs >> end_q.

(** The decorator [test(q, points)] applied to [fn] (lines 91-95): the new
    state of the global [TESTS], and the value bound to the function's
    name. *)
Definition test (q : string) (points : Z) (fn : M unit)
    (TESTS : list test_entry) : list test_entry * M unit :=
  (TESTS ++ [(q, points, fn)], fn).

(** The second argument of [add_prereq]: a string or a list of strings. *)
Inductive prearg : Type :=
  | PreStr (s : string)
  | PreList (l : list string).

(** [add_prereq] (lines 83-89), on the global [PREREQS]. *)
Definition add_prereq (q : string) (pre : prearg)
    (PREREQS : gmap string (gset string)) : gmap string (gset string) :=
  let pre := match pre with PreStr s => [s] | PreList l => l end in
  let PREREQS :=
    if decide (q ∈ dom PREREQS) then PREREQS else <[q := ∅]> PREREQS in
  <[q := default ∅ (PREREQS !! q) ∪ list_to_set pre]> PREREQS.

(** A registry whose tests are all brackets closed with the declared
    points; an entry of the description is [(q, name, given, pts)]. *)
Definition bracketed (specs : list (string * string * Z * Z)) : list test_entry :=
  (λ s : string * string * Z * Z,
     (s.1.1.1, s.2, bracket s.1.1.2 s.1.2 s.2)) <$> specs.

(** The points given to question [q] by the tests of a description. *)
Fixpoint awarded (q : string) (specs : list (string * string * Z * Z)) : Z :=
  match specs with
  | [] => 0
  | (sq, _, given, _) :: rest =>
      if decide (sq = q) then (given + awarded q rest)%Z else awarded q rest
  end.

(** A test function that leaves the accounting of the Tracker alone:
    whatever way it ends, [possible_points_remaining], [maxes] and the
    list of questions (the attribute and the list that [main] walks) are as
    before. *)
Definition keeps_accounting (fn : M unit) : Prop :=
  ∀ w w' r, fn w = (w', r) →
    possible_points_remaining (tracker w') = possible_points_remaining (tracker w) ∧
    maxes (tracker w') = maxes (tracker w) ∧
    questions (tracker w') = questions (tracker w) ∧
    loop_questions w' = loop_questions w.

(** *** [add_points] *)

(** Two awards in a row are one award of the sum, in every state: when
    there is no current question with an entry in [points], both sides
    raise [KeyError] and change nothing; otherwise both add to the points
    of the current question and touch nothing else. *)
Theorem add_points_twice (a b : Z) (w : World) :
  (add_points a >> add_points b) w = add_points (a + b) w ∧
  (∀ q p, current_question (tracker w) = Some q →
          points (tracker w) !! q = Some p →
          add_points a w =
            (update (set_points (<[q := (p + a)%Z]> (points (tracker w)))) w,
             Return tt)) ∧
  ((∀ q, current_question (tracker w) = Some q →
         points (tracker w) !! q = None) →
   add_points a w = (w, Raise KeyError)).
Proof.
  destruct w as [t out nid pr cl lq]. split; [|split].
  - run. destruct (current_question t) as [q|] eqn:Eq; simpl; [|done].
    destruct (points t !! q) as [p|] eqn:Ep; simpl; [|done].
    rewrite Eq. simpl. rewrite lookup_insert_eq. simpl.
    unfold set_points. simpl. rewrite insert_insert_eq.
    by replace (p + a + b)%Z with (p + (a + b))%Z by lia.
  - intros q p Hq Hp. simpl in *. run. rewrite Hq. simpl. rewrite Hp. done.
  - intros H. simpl in *. run. destruct (current_question t) as [q|]; [|done].
    simpl. by rewrite (H q eq_refl).
Qed.

Lemma add_points_twice_witness :
  add_points 2 in_test =
    (update (set_points (<["q1" := (0 + 2)%Z]> (points (tracker in_test)))) in_test,
     Return tt) ∧
  add_points 2 sample = (sample, Raise KeyError).
Proof.
  split.
  - apply (proj1 (proj2 (add_points_twice 2 0 in_test)) "q1" 0%Z); reflexivity.
  - apply (proj2 (proj2 (add_points_twice 2 0 sample))).
    intros q Hq. discriminate Hq.
Defined.

(** *** Muting between [begin_test] and [end_test] *)

Lemma print_all_spec (lines : list string) :
  ∀ w, print_all lines w =
       (mkWorld (tracker w) (sys_stdout w) (next_id w)
          (printed w ++ ((λ l, (sys_stdout w, l)) <$> lines)) (called w)
          (loop_questions w),
        Return tt).
Proof.
  induction lines as [|l lines IH]; intros [t out nid pr cl lq]; simpl.
  - unfold ret. by rewrite app_nil_r.
  - unfold bind, print. simpl. rewrite IH. simpl. by rewrite <- app_assoc.
Qed.

(** A test that prints between [begin_test] and [end_test], run on a
    Tracker that is not muted: the header and the verdict go to the sink
    that was [sys.stdout] at [begin_test]; the lines of the test go to a
    fresh [WritableNull] when [mute_output] is set, and to that same sink
    otherwise; and [sys.stdout] is that sink again after [end_test]. *)
Theorem noisy_bracket_output (w : World) (name : string) (lines : list string)
    (given pts : Z) q p rem :
  current_question (tracker w) = Some q →
  points (tracker w) !! q = Some p →
  possible_points_remaining (tracker w) = Some rem →
  muted (tracker w) = false →
  let out := sys_stdout w in
  let inner := if mute_output (tracker w) then WritableNull (next_id w) else out in
  let verdict :=
    if bool_decide (given = pts) then [(out, "*** PASS: " +:+ name)]
    else if bool_decide (given = 0%Z) then [(out, "*** FAIL")] else [] in
  (noisy_bracket name lines given pts w).2 = Return tt ∧
  sys_stdout (noisy_bracket name lines given pts w).1 = out ∧
  muted (tracker (noisy_bracket name lines given pts w).1) = false ∧
  printed (noisy_bracket name lines given pts w).1 =
    printed w ++ [(out, "*** " +:+ q +:+ ") " +:+ name)]
              ++ ((λ l, (inner, l)) <$> lines) ++ verdict.
Proof.
  intros Hq Hp Hr Hm. destruct w as [t out nid pr cl lq]. simpl in *.
  unfold noisy_bracket. run. rewrite Hq. simpl. rewrite Hp. simpl.
  destruct (mute_output t) eqn:Emo;
    repeat (progress (rewrite ?Emo, ?Hm, ?Hq, ?Hp, ?Hr, ?lookup_insert_eq,
                        ?print_all_spec; simpl));
    (destruct (bool_decide (given = pts)) eqn:E1;
      [apply bool_decide_eq_true in E1;
       rewrite (bool_decide_eq_true_2 ((p + given)%Z = (p + pts)%Z)) by lia
      |apply bool_decide_eq_false in E1;
       rewrite (bool_decide_eq_false_2 ((p + given)%Z = (p + pts)%Z)) by lia]);
    repeat (progress (rewrite ?Emo, ?Hm, ?Hq, ?Hp, ?Hr, ?lookup_insert_eq; simpl));
    try (destruct (bool_decide (given = 0%Z)) eqn:E2;
      [apply bool_decide_eq_true in E2;
       rewrite (bool_decide_eq_true_2 (Some (p + given)%Z = Some p))
         by (f_equal; lia)
      |apply bool_decide_eq_false in E2;
       rewrite (bool_decide_eq_false_2 (Some (p + given)%Z = Some p))
         by (intros [=]; lia)]);
    simpl; rewrite <- ?app_assoc; simpl; rewrite ?app_nil_r; done.
Qed.

(** The Tracker of [sample], told to mute tests, with question "q1"
    begun. *)
Definition muting : World :=
  (begin_q "q1"
     (mkWorld (Tracker_init ["q1"] {["q1" := 2%Z]} ∅ true) (Stream 0) 0 [] []
        ["q1"])).1.

Lemma noisy_bracket_output_witness :
  (noisy_bracket "t" ["loss: 3"; "loss: 2"] 2 2 muting).2 = Return tt ∧
  sys_stdout (noisy_bracket "t" ["loss: 3"; "loss: 2"] 2 2 muting).1 = Stream 0 ∧
  muted (tracker (noisy_bracket "t" ["loss: 3"; "loss: 2"] 2 2 muting).1) = false ∧
  printed (noisy_bracket "t" ["loss: 3"; "loss: 2"] 2 2 muting).1 =
    [] ++ [(Stream 0, "*** " +:+ "q1" +:+ ") " +:+ "t")]
       ++ ((λ l, (WritableNull 0, l)) <$> ["loss: 3"; "loss: 2"])
       ++ [(Stream 0, "*** PASS: " +:+ "t")].
Proof.
  apply (noisy_bracket_output muting "t" ["loss: 3"; "loss: 2"] 2 2 "q1" 0 2);
    reflexivity.
Defined.

(** *** The accounting of a question *)

Lemma begin_q_ok q w m :
  q ∈ questions (tracker w) → maxes (tracker w) !! q = Some m →
  (begin_q q w).2 = Return true ∧
  current_question (tracker (begin_q q w).1) = Some q ∧
  possible_points_remaining (tracker (begin_q q w).1) = Some m ∧
  points (tracker (begin_q q w).1) = points (tracker w) ∧
  maxes (tracker (begin_q q w).1) = maxes (tracker w) ∧
  questions (tracker (begin_q q w).1) = questions (tracker w).
Proof.
  intros Hq Hm. run. rewrite bool_decide_eq_true_2 by done. simpl.
  by rewrite Hm.
Qed.

Lemma end_q_result w :
  current_question (tracker w) ≠ None →
  (possible_points_remaining (tracker w) = Some 0%Z →
     (end_q w).2 = Return tt) ∧
  (possible_points_remaining (tracker w) ≠ Some 0%Z →
     end_q w = (w, Raise AssertionError)) ∧
  points (tracker (end_q w).1) = points (tracker w) ∧
  maxes (tracker (end_q w).1) = maxes (tracker w) ∧
  questions (tracker (end_q w).1) = questions (tracker w).
Proof.
  intros Hq. run. rewrite bool_decide_eq_true_2 by done. simpl.
  destruct (bool_decide (possible_points_remaining (tracker w) = Some 0%Z)) eqn:E;
    [apply bool_decide_eq_true in E | apply bool_decide_eq_false in E]; simpl.
  - repeat split; done.
  - repeat split; done.
Qed.

(** One bracket, in a Tracker with a current question that has points and
    remaining possible points. *)
Lemma bracket_step w name given pts q p rem :
  current_question (tracker w) = Some q →
  points (tracker w) !! q = Some p →
  possible_points_remaining (tracker w) = Some rem →
  (bracket name given pts w).2 = Return tt ∧
  current_question (tracker (bracket name given pts w).1) = Some q ∧
  points (tracker (bracket name given pts w).1) =
    <[q := (p + given)%Z]> (points (tracker w)) ∧
  possible_points_remaining (tracker (bracket name given pts w).1) =
    Some (rem - pts)%Z ∧
  maxes (tracker (bracket name given pts w).1) = maxes (tracker w) ∧
  questions (tracker (bracket name given pts w).1) = questions (tracker w) ∧
  called (bracket name given pts w).1 = called w.
Proof.
  intros Hq Hp Hr. destruct w as [t out nid pr cl lq]. simpl in *.
  unfold bracket. run.
  destruct (mute_output t) eqn:Emo; [destruct (muted t) eqn:Emu|];
    repeat (progress (rewrite ?Emo, ?Emu, ?Hq, ?Hp, ?Hr, ?lookup_insert_eq; simpl));
    repeat (case_bool_decide;
            repeat (progress (rewrite ?Emo, ?Emu, ?Hq, ?Hp, ?Hr,
                                ?lookup_insert_eq; simpl)));
    done.
Qed.

Lemma brackets_spec q (bs : list (string * Z * Z)) :
  ∀ w p rem,
    current_question (tracker w) = Some q →
    points (tracker w) !! q = Some p →
    possible_points_remaining (tracker w) = Some rem →
    (brackets bs w).2 = Return tt ∧
    current_question (tracker (brackets bs w).1) = Some q ∧
    points (tracker (brackets bs w).1) !! q = Some (p + total_given bs)%Z ∧
    (∀ q', q' ≠ q →
       points (tracker (brackets bs w).1) !! q' = points (tracker w) !! q') ∧
    possible_points_remaining (tracker (brackets bs w).1) =
      Some (rem - total_weight bs)%Z ∧
    maxes (tracker (brackets bs w).1) = maxes (tracker w) ∧
    questions (tracker (brackets bs w).1) = questions (tracker w).
Proof.
  induction bs as [|[[name given] pts] bs IH]; intros w p rem Hq Hp Hr; simpl.
  - rewrite Hq, Hp, Hr, Z.add_0_r, Z.sub_0_r. done.
  - unfold bind.
    destruct (bracket_step w name given pts q p rem Hq Hp Hr)
      as (H2 & Hq1 & Hp1 & Hr1 & Hm1 & Hqs1 & _).
    destruct (bracket name given pts w) as [w1 r1]. simpl in *. subst r1.
    destruct (IH w1 (p + given)%Z (rem - pts)%Z Hq1) as (H2' & Hq2 & Hp2 & Ho2 & Hr2 & Hm2 & Hqs2);
      [by rewrite Hp1, lookup_insert_eq | done |].
    split; [done|]. split; [done|]. split.
    { rewrite Hp2. f_equal. lia. }
    split.
    { intros q' Hne. rewrite (Ho2 q' Hne), Hp1. by rewrite lookup_insert_ne. }
    split.
    { rewrite Hr2. f_equal. lia. }
    split; congruence.
Qed.

(** A question run as [begin_q], bracketed tests, [end_q], for a known
    question with a max and points: [end_q] returns exactly when the
    weights passed to [end_test] add up to the max of the question, and
    fails its assertion otherwise; either way the points of the question
    have grown by what the tests awarded, whatever the weights, and no other
    question's points have changed. *)
Theorem session_accounting (w : World) (q : string) (bs : list (string * Z * Z))
    (m p0 : Z) :
  q ∈ questions (tracker w) →
  maxes (tracker w) !! q = Some m →
  points (tracker w) !! q = Some p0 →
  ((session q bs w).2 = Return tt ↔ total_weight bs = m) ∧
  (total_weight bs ≠ m → (session q bs w).2 = Raise AssertionError) ∧
  points (tracker (session q bs w).1) !! q = Some (p0 + total_given bs)%Z ∧
  (∀ q', q' ≠ q →
     points (tracker (session q bs w).1) !! q' = points (tracker w) !! q').
Proof.
  intros Hq Hm Hp. unfold session, bind.
  destruct (begin_q_ok q w m Hq Hm) as (Hb & Hq1 & Hr1 & Hp1 & _).
  destruct (begin_q q w) as [w1 r1]. simpl in *. subst r1.
  rewrite <- Hp1 in Hp.
  destruct (brackets_spec q bs w1 p0 m Hq1 Hp Hr1)
    as (H2 & Hq2 & Hp2 & Ho2 & Hr2 & _).
  destruct (brackets bs w1) as [w2 r2]. simpl in *. subst r2.
  destruct (end_q_result w2) as (Hret & Hfail & Hpe & _); [congruence|].
  rewrite Hr2 in Hret, Hfail.
  destruct (decide (total_weight bs = m)) as [Heq|Hne].
  - assert (He : (end_q w2).2 = Return tt) by (apply Hret; f_equal; lia).
    split; [done|]. split; [done|]. rewrite Hpe, Hp2. split; [done|].
    intros q' Hq'. rewrite (Ho2 q' Hq'). by rewrite Hp1.
  - rewrite Hfail by (intros [=]; lia). simpl.
    split; [split; [done|intros; done]|]. split; [done|].
    rewrite Hp2. split; [done|]. intros q' Hq'. rewrite (Ho2 q' Hq').
    by rewrite Hp1.
Qed.

Lemma session_accounting_witness :
  ((session "q1" [("a", 1%Z, 1%Z); ("b", 0%Z, 1%Z)] sample).2 = Return tt ↔
     total_weight [("a", 1%Z, 1%Z); ("b", 0%Z, 1%Z)] = 2%Z) ∧
  (total_weight [("a", 1%Z, 1%Z); ("b", 0%Z, 1%Z)] ≠ 2%Z →
     (session "q1" [("a", 1%Z, 1%Z); ("b", 0%Z, 1%Z)] sample).2
       = Raise AssertionError) ∧
  points (tracker (session "q1" [("a", 1%Z, 1%Z); ("b", 0%Z, 1%Z)] sample).1)
    !! "q1" = Some (0 + total_given [("a", 1%Z, 1%Z); ("b", 0%Z, 1%Z)])%Z ∧
  (∀ q', q' ≠ "q1" →
     points (tracker (session "q1" [("a", 1%Z, 1%Z); ("b", 0%Z, 1%Z)] sample).1)
       !! q' = points (tracker sample) !! q').
Proof.
  apply (session_accounting sample "q1" [("a", 1%Z, 1%Z); ("b", 0%Z, 1%Z)] 2 0).
  - vm_compute. left.
  - reflexivity.
  - reflexivity.
Defined.

(** *** The driver on a registry of bracketed tests *)

Lemma try_test_return i fn w w' :
  fn w = (w', Return tt) →
  try_test i fn w =
    (mkWorld (tracker w') (sys_stdout w') (next_id w') (printed w')
       (called w ++ [i]) (loop_questions w'), Return tt).
Proof. intros H. unfold try_test, call. by rewrite H. Qed.

Lemma bracketed_ids specs q :
  q ∈ test_ids (bracketed specs) ↔ q ∈ (λ s : string * string * Z * Z, s.1.1.1) <$> specs.
Proof.
  unfold test_ids, bracketed. rewrite <- list_fmap_compose. done.
Qed.

Lemma run_tests_bracketed q (specs : list (string * string * Z * Z)) :
  ∀ i w p rem,
    current_question (tracker w) = Some q →
    points (tracker w) !! q = Some p →
    possible_points_remaining (tracker w) = Some rem →
    let r := run_tests q i (bracketed specs) w in
    r.2 = Return tt ∧
    current_question (tracker r.1) = Some q ∧
    points (tracker r.1) !! q = Some (p + awarded q specs)%Z ∧
    (∀ q', q' ≠ q → points (tracker r.1) !! q' = points (tracker w) !! q') ∧
    possible_points_remaining (tracker r.1) =
      Some (rem - declared q (bracketed specs))%Z ∧
    maxes (tracker r.1) = maxes (tracker w) ∧
    questions (tracker r.1) = questions (tracker w).
Proof.
  induction specs as [|[[[sq name] given] pts] specs IH];
    intros i w p rem Hq Hp Hr; cbn [bracketed fmap list_fmap run_tests awarded declared fst snd].
  - simpl. rewrite Hq, Hp, Hr, Z.add_0_r, Z.sub_0_r. done.
  - fold (bracketed specs).
    destruct (decide (sq = q)) as [->|Hne].
    + destruct (decide (q ≠ q)) as [H|_]; [by destruct H|].
      destruct (bracket_step w name given pts q p rem Hq Hp Hr)
        as (H2 & Hq1 & Hp1 & Hr1 & Hm1 & Hqs1 & _).
      destruct (bracket name given pts w) as [w1 r1] eqn:Eb. simpl in *. subst r1.
      unfold bind. rewrite (try_test_return i _ w w1 Eb).
      specialize (IH (S i)
        (mkWorld (tracker w1) (sys_stdout w1) (next_id w1) (printed w1)
           (called w ++ [i]) (loop_questions w1)) (p + given)%Z (rem - pts)%Z).
      simpl in IH.
      destruct IH as (H2' & Hq2 & Hp2 & Ho2 & Hr2 & Hm2 & Hqs2);
        [done | by rewrite Hp1, lookup_insert_eq | done |].
      split; [done|]. split; [done|]. split.
      { rewrite Hp2. f_equal. lia. }
      split.
      { intros q' Hq'. rewrite (Ho2 q' Hq'), Hp1. by rewrite lookup_insert_ne. }
      split.
      { rewrite Hr2. f_equal. lia. }
      split; congruence.
    + destruct (decide (sq ≠ q)) as [_|H]; [|by destruct H]. by apply IH.
Qed.

Lemma loop_over_bracketed (specs : list (string * string * Z * Z))
    (qs : list string) :
  NoDup qs →
  ∀ w,
    (∀ q, q ∈ qs →
       q ∈ questions (tracker w) ∧
       maxes (tracker w) !! q = Some (declared q (bracketed specs)) ∧
       is_Some (points (tracker w) !! q)) →
    let r := loop_over (bracketed specs) qs w in
    r.2 = Return tt ∧
    ∀ q, points (tracker r.1) !! q =
         if decide (q ∈ qs)
         then (λ p, (p + awarded q specs)%Z) <$> points (tracker w) !! q
         else points (tracker w) !! q.
Proof.
  induction qs as [|q qs IH]; intros Hnd w Hw; cbn [loop_over].
  - unfold ret. cbn [fst snd]. split; [done|]. intros q.
    by rewrite decide_False by apply not_elem_of_nil.
  - apply NoDup_cons in Hnd as [Hq Hnd].
    destruct (Hw q) as (Hin & Hm & [p Hp]); [left|].
    destruct (begin_q_ok q w _ Hin Hm) as (Hb & Hq1 & Hr1 & Hp1 & Hm1 & Hqs1).
    unfold bind. destruct (begin_q q w) as [w1 r1]. simpl in Hb. subst r1.
    cbn [negb fst snd] in *. rewrite <- Hp1 in Hp.
    destruct (run_tests_bracketed q specs 0 w1 p _ Hq1 Hp Hr1)
      as (H2 & Hq2 & Hp2 & Ho2 & Hr2 & Hm2 & Hqs2).
    destruct (run_tests q 0 (bracketed specs) w1) as [w2 r2].
    cbn [fst snd] in *. subst r2.
    destruct (end_q_result w2) as (Hret & _ & Hpe & Hme & Hqse); [congruence|].
    assert (He : (end_q w2).2 = Return tt).
    { apply Hret. rewrite Hr2. f_equal. lia. }
    destruct (end_q w2) as [w3 r3]. cbn [fst snd] in *.
    subst r3.
    destruct (IH Hnd w3) as [H3 Hp3].
    { intros q' Hq'. destruct (Hw q') as (Hin' & Hm' & [p' Hp']); [by right|].
      split; [congruence|]. split; [congruence|].
      rewrite Hpe, Ho2 by (intros ->; done). rewrite Hp1. eauto. }
    split; [done|]. intros q'. rewrite Hp3, Hpe.
    destruct (decide (q' = q)) as [->|Hne].
    + rewrite (decide_False (P := q ∈ qs)) by done.
      rewrite (decide_True (P := q ∈ q :: qs)) by left.
      rewrite Hp2. rewrite Hp1 in Hp. by rewrite Hp.
    + rewrite (Ho2 q' Hne), Hp1.
      destruct (decide (q' ∈ qs)) as [Hin'|Hnin'].
      * by rewrite (decide_True (P := q' ∈ q :: qs)) by by right.
      * rewrite (decide_False (P := q' ∈ q :: qs)); [done|].
        intros [?|?]%elem_of_cons; done.
Qed.

(** When every registered test is a bracket closed with its declared
    points, [main] returns, having called every test in schedule order, and
    each question ends with the sum of the points its tests awarded (which
    may be below, at or above its max). *)
Theorem main_bracketed (specs : list (string * string * Z * Z))
    (PREREQS : gmap string (gset string)) (out : sink) (more : nat) :
  let TESTS := bracketed specs in
  ∃ w,
    main (S (length (main_questions TESTS PREREQS)) + more) TESTS PREREQS out
      = Some (w, Return tt) ∧
    exit_status (Return tt) = 0%Z ∧
    called w = schedule TESTS (main_questions TESTS PREREQS) ∧
    ∀ q, q ∈ main_questions TESTS PREREQS →
         points (tracker w) !! q = Some (awarded q specs).
Proof.
  intros TESTS.
  rewrite (main_loop_over_run TESTS PREREQS out more).
  2: { intros tq pts fn Hin. unfold TESTS, bracketed in Hin.
       apply list_elem_of_fmap in Hin as (spec & [= _ _ ->] & _).
       apply bracket_list. }
  unfold main_loop_over.
  destruct (start_tracker TESTS PREREQS out) as (Hqs & Hmx & Hpts & _ & Hc).
  destruct (loop_over_bracketed specs (main_questions TESTS PREREQS)
              (main_questions_NoDup TESTS PREREQS) (start TESTS PREREQS out))
    as [Hr Hp].
  { intros q Hq. rewrite Hqs, Hmx, Hpts, main_maxes_lookup.
    split; [done|]. split.
    - apply main_questions_elem in Hq. by rewrite decide_True.
    - rewrite zero_points_lookup by done. eauto. }
  cbv zeta in Hr, Hp. subst TESTS.
  destruct (loop_over_called (bracketed specs)
              (main_questions (bracketed specs) PREREQS)
              (start (bracketed specs) PREREQS out)) as (l & Hl & _ & Hfull).
  destruct (loop_over (bracketed specs)
              (main_questions (bracketed specs) PREREQS)
              (start (bracketed specs) PREREQS out)) as [w r].
  simpl in *. subst r. exists w. split; [done|]. split; [done|]. split.
  - rewrite Hl, Hc, (Hfull eq_refl). done.
  - intros q Hq. rewrite Hp, decide_True by done.
    rewrite Hpts, zero_points_lookup by done. simpl. done.
Qed.

(** *** What escapes [main] *)

Lemma begin_q_raises q w w' e :
  begin_q q w = (w', Raise e) → e = AssertionError ∨ e = KeyError.
Proof.
  run. destruct (bool_decide (q ∈ questions (tracker w))); simpl.
  - destruct (maxes (tracker w) !! q); simpl; [done|]. intros [= _ <-]. by right.
  - intros [= _ <-]. by left.
Qed.

Lemma end_q_raises w w' e : end_q w = (w', Raise e) → e = AssertionError.
Proof.
  run. destruct (bool_decide (current_question (tracker w) ≠ None)); simpl.
  - destruct (bool_decide (possible_points_remaining (tracker w) = Some 0%Z));
      simpl; [done|]. by intros [= _ <-].
  - by intros [= _ <-].
Qed.

Lemma run_tests_raises q (tests : list test_entry) :
  ∀ i w w' e, run_tests q i tests w = (w', Raise e) → e = SystemExit 1.
Proof.
  induction tests as [|[[tq pts] fn] tests IH]; intros i w w' e; simpl; [done|].
  destruct (decide (tq ≠ q)); [apply IH|]. unfold bind.
  destruct (try_test_cases i fn w)
    as [(w1 & _ & ->)|[(w1 & _ & ->)|(w1 & e1 & _ & _ & ->)]].
  - apply IH.
  - by intros [= _ <-].
  - apply IH.
Qed.

Lemma loop_over_raises TESTS (qs : list string) :
  ∀ w w' e, loop_over TESTS qs w = (w', Raise e) →
            e = AssertionError ∨ e = KeyError ∨ e = SystemExit 1.
Proof.
  induction qs as [|q qs IH]; intros w w' e; simpl; [done|]. unfold bind.
  destruct (begin_q q w) as [w1 [b|e1]] eqn:Eb.
  - destruct (negb b); [apply IH|].
    destruct (run_tests q 0 TESTS w1) as [w2 [[]|e2]] eqn:Et.
    + destruct (end_q w2) as [w3 [[]|e3]] eqn:Ee; [apply IH|].
      intros [= _ <-]. left. by eapply end_q_raises.
    + intros [= _ <-]. right. right. by eapply run_tests_raises.
  - intros [= _ <-]. destruct (begin_q_raises _ _ _ _ Eb); auto.
Qed.

(** *** Tests that leave the accounting alone *)

Lemma end_q_nonzero w :
  possible_points_remaining (tracker w) ≠ Some 0%Z →
  end_q w = (w, Raise AssertionError).
Proof.
  intros H. run.
  destruct (bool_decide (current_question (tracker w) ≠ None)); simpl; [|done].
  by rewrite bool_decide_eq_false_2.
Qed.

Lemma try_test_keeps i fn w :
  keeps_accounting fn →
  possible_points_remaining (tracker (try_test i fn w).1) =
    possible_points_remaining (tracker w) ∧
  maxes (tracker (try_test i fn w).1) = maxes (tracker w) ∧
  questions (tracker (try_test i fn w).1) = questions (tracker w).
Proof.
  intros Hfn.
  assert (Hcall : tracker (call i fn w).1 = tracker (fn w).1).
  { unfold call. by destruct (fn w). }
  destruct (fn w) as [w1 r1] eqn:Efn.
  destruct (Hfn _ _ _ Efn) as (Hr & Hm & Hq & _).
  simpl in Hcall.
  destruct (try_test_cases i fn w)
    as [(w' & E & ->)|[(w' & E & ->)|(w' & e & E & _ & ->)]];
    rewrite E in Hcall; simpl in *;
    try (destruct (unmute_frame w') as (_ & _ & _ & _ & -> & -> & -> & _));
    rewrite Hcall; done.
Qed.

Lemma run_tests_keeps q (tests : list test_entry) :
  (∀ tq pts fn, (tq, pts, fn) ∈ tests → keeps_accounting fn) →
  ∀ i w,
    possible_points_remaining (tracker (run_tests q i tests w).1) =
      possible_points_remaining (tracker w) ∧
    maxes (tracker (run_tests q i tests w).1) = maxes (tracker w) ∧
    questions (tracker (run_tests q i tests w).1) = questions (tracker w).
Proof.
  induction tests as [|[[tq pts] fn] tests IH]; intros Hall i w; simpl; [done|].
  assert (Hrest : ∀ tq pts fn, (tq, pts, fn) ∈ tests → keeps_accounting fn).
  { intros ??? Hin. eapply Hall. right. exact Hin. }
  destruct (decide (tq ≠ q)); [by apply IH|]. unfold bind.
  destruct (try_test_keeps i fn w) as (Hr & Hm & Hq); [eapply Hall; left|].
  destruct (try_test i fn w) as [w1 [[]|e]]; simpl in *; [|done].
  destruct (IH Hrest (S i) w1) as (Hr' & Hm' & Hq'). split; [congruence|].
  split; congruence.
Qed.

Lemma loop_over_unaccounted TESTS PREREQS (qs : list string) :
  (∀ tq pts fn, (tq, pts, fn) ∈ TESTS → keeps_accounting fn) →
  ∀ w,
    maxes (tracker w) = main_maxes TESTS PREREQS →
    (∀ q, q ∈ qs → q ∈ test_ids TESTS) →
    (∃ q, q ∈ qs ∧ declared q TESTS ≠ 0%Z) →
    (loop_over TESTS qs w).2 ≠ Return tt.
Proof.
  intros Hall. induction qs as [|q qs IH]; intros w Hm Hids (q0 & Hq0 & Hne).
  { by apply elem_of_nil in Hq0. }
  simpl. unfold bind.
  destruct (begin_q_frame q w) as (_ & _ & Hmb).
  destruct (begin_q q w) as [w1 [b|e]] eqn:Eb; [|done].
  assert (Hr1 : possible_points_remaining (tracker w1) = Some (declared q TESTS)).
  { revert Eb. run.
    destruct (bool_decide (q ∈ questions (tracker w))); simpl; [|done].
    rewrite Hm, main_maxes_lookup, decide_True by (apply Hids; left).
    simpl. by intros [= <- _]. }
  apply begin_q_returns in Eb as [-> _]. simpl in *.
  destruct (run_tests_keeps q TESTS Hall 0 w1) as (Hr2 & Hm2 & _).
  destruct (run_tests q 0 TESTS w1) as [w2 [[]|e]]; simpl in *; [|done].
  destruct (decide (declared q TESTS = 0%Z)) as [Hz|Hnz].
  - destruct (end_q_frame w2) as (_ & _ & Hme).
    destruct (end_q w2) as [w3 [[]|e]]; simpl in *; [|done].
    apply IH.
    + congruence.
    + intros q' Hq'. apply Hids. by right.
    + exists q0. split; [|done].
      apply elem_of_cons in Hq0 as [->|?]; [done|done].
  - rewrite end_q_nonzero; [done|]. rewrite Hr2, Hr1. intros [=]. done.
Qed.

Lemma keeps_accounting_list fn : keeps_accounting fn → keeps_list fn.
Proof.
  intros H w. destruct (fn w) as [w' r] eqn:E.
  by destruct (H _ _ _ E) as (_ & _ & _ & ?).
Qed.

(** When no registered test changes [possible_points_remaining], [maxes]
    or the list of questions (as a test that only calls [add_points]
    does), and some question has a declared total other than 0, [main] does
    not return: it ends in [AssertionError] (the second assertion of
    [end_q], or an assertion reached because a test tampered with the
    current question) or in [SystemExit(1)] after an interrupt. *)
Theorem main_unaccounted (TESTS : list test_entry)
    (PREREQS : gmap string (gset string)) (out : sink) (q : string)
    (more : nat) :
  (∀ tq pts fn, (tq, pts, fn) ∈ TESTS → keeps_accounting fn) →
  q ∈ test_ids TESTS → declared q TESTS ≠ 0%Z →
  ∃ w r,
    main (S (length (main_questions TESTS PREREQS)) + more) TESTS PREREQS out
      = Some (w, r) ∧
    (r = Raise AssertionError ∨ r = Raise (SystemExit 1)).
Proof.
  intros Hall Hq Hne.
  rewrite (main_loop_over_run TESTS PREREQS out more)
    by (intros tq pts fn Hin; eapply keeps_accounting_list, Hall, Hin).
  assert (Hnr : (main_loop_over TESTS PREREQS out).2 ≠ Return tt).
  { unfold main_loop_over. destruct (start_tracker TESTS PREREQS out) as (_ & Hmx & _).
    apply (loop_over_unaccounted TESTS PREREQS); try done.
    - intros q'. apply main_questions_elem.
    - exists q. split; [by apply main_questions_elem|done]. }
  assert (Hnk : (main_loop_over TESTS PREREQS out).2 ≠ Raise KeyError).
  { unfold main_loop_over. destruct (start_tracker TESTS PREREQS out) as (_ & Hmx & _).
    revert Hmx.
    assert (Hsub : ∀ q', q' ∈ main_questions TESTS PREREQS → q' ∈ test_ids TESTS)
      by (intros q'; apply main_questions_elem).
    revert Hsub. generalize (start TESTS PREREQS out).
    induction (main_questions TESTS PREREQS) as [|q1 qs IH]; intros w Hsub Hmx;
      simpl; [done|].
    unfold bind. destruct (begin_q_frame q1 w) as (_ & _ & Hmb).
    destruct (begin_q q1 w) as [w1 [b|e]] eqn:Eb.
    - apply begin_q_returns in Eb as [-> _]. simpl in *.
      destruct (run_tests_keeps q1 TESTS Hall 0 w1) as (_ & Hm2 & _).
      destruct (run_tests q1 0 TESTS w1) as [w2 [[]|e]] eqn:Et; simpl in *.
      + destruct (end_q_frame w2) as (_ & _ & Hme).
        destruct (end_q w2) as [w3 [[]|e]] eqn:Ee; simpl in *.
        * apply IH; [intros q' ?; apply Hsub; by right | congruence].
        * apply end_q_raises in Ee as ->. done.
      + apply run_tests_raises in Et as ->. done.
    - simpl. revert Eb. run.
      destruct (bool_decide (q1 ∈ questions (tracker w))); simpl.
      + rewrite Hmx, main_maxes_lookup, decide_True by (apply Hsub; left).
        simpl. done.
      + intros [= _ <-]. done. }
  revert Hnr Hnk. unfold main_loop_over.
  destruct (loop_over TESTS (main_questions TESTS PREREQS)
              (start TESTS PREREQS out)) as [w [[]|e]] eqn:E; simpl; [done|].
  intros _ Hnk. exists w, (Raise e). split; [done|].
  destruct (loop_over_raises _ _ _ _ _ E) as [-> | [-> | ->]]; auto; done.
Qed.

Lemma add_points_keeps n : keeps_accounting (add_points n).
Proof.
  intros w w' r. run.
  destruct (current_question (tracker w)) as [q|]; simpl;
    [destruct (points (tracker w) !! q); simpl|]; intros [= <- _]; done.
Qed.

Lemma then_keeps (m k : M unit) :
  keeps_accounting m → keeps_accounting k → keeps_accounting (m >> k).
Proof.
  intros Hm Hk w w' r. unfold bind.
  destruct (m w) as [w1 [[]|e]] eqn:Em.
  - intros Ek. destruct (Hm _ _ _ Em) as (? & ? & ? & ?).
    destruct (Hk _ _ _ Ek) as (? & ? & ? & ?). repeat split; congruence.
  - intros [= <- _]. by apply (Hm _ _ _ Em).
Qed.

Lemma unbracketed_keeps (tq : string) (pts : Z) (fn : M unit) :
  (tq, pts, fn) ∈ unbracketed → keeps_accounting fn.
Proof.
  intros Hin. unfold unbracketed in Hin.
  apply elem_of_cons in Hin as [[= -> -> ->]|Hin].
  - apply then_keeps; apply add_points_keeps.
  - by apply elem_of_nil in Hin.
Qed.

Lemma main_unaccounted_witness :
  ∃ w r,
    main (S (length (main_questions unbracketed ∅)) + 0) unbracketed ∅ (Stream 0)
      = Some (w, r) ∧
    (r = Raise AssertionError ∨ r = Raise (SystemExit 1)).
Proof.
  apply (main_unaccounted unbracketed ∅ (Stream 0) "q3" 0 unbracketed_keeps).
  - vm_compute. left.
  - vm_compute. discriminate.
Defined.

(** *** Registration *)

Lemma tests_of_app q (l1 l2 : list test_entry) :
  ∀ i, tests_of q i (l1 ++ l2) = tests_of q i l1 ++ tests_of q (i + length l1) l2.
Proof.
  induction l1 as [|[[tq pts] fn] l1 IH]; intros i; simpl.
  - by rewrite Nat.add_0_r.
  - rewrite IH. replace (S i + length l1) with (i + S (length l1)) by lia.
    by destruct (decide (tq = q)).
Qed.

Lemma declared_app q (l1 l2 : list test_entry) :
  declared q (l1 ++ l2) = (declared q l1 + declared q l2)%Z.
Proof.
  induction l1 as [|[[tq pts] fn] l1 IH]; simpl; [done|].
  rewrite IH. destruct (decide (tq = q)); lia.
Qed.

(** Registering a test with [@test(q, points)] binds the undecorated
    function, puts the test at the end of the registry, so that it runs last
    among the tests of [q], raises the max of [q] by [points], makes [q] a
    question of the driver, and leaves the tests and the max of every other
    question as they were. *)
Theorem test_registers (q : string) (pts : Z) (fn : M unit)
    (TESTS : list test_entry) (PREREQS : gmap string (gset string)) :
  let TESTS' := (test q pts fn TESTS).1 in
  (test q pts fn TESTS).2 = fn ∧
  TESTS' !! length TESTS = Some (q, pts, fn) ∧
  tests_of q 0 TESTS' = tests_of q 0 TESTS ++ [length TESTS] ∧
  main_maxes TESTS' PREREQS !! q = Some (declared q TESTS + pts)%Z ∧
  q ∈ main_questions TESTS' PREREQS ∧
  (∀ q', q' ≠ q →
     tests_of q' 0 TESTS' = tests_of q' 0 TESTS ∧
     main_maxes TESTS' PREREQS !! q' = main_maxes TESTS PREREQS !! q' ∧
     (q' ∈ main_questions TESTS' PREREQS ↔ q' ∈ main_questions TESTS PREREQS)).
Proof.
  intros TESTS'. subst TESTS'. unfold test. cbn [fst snd].
  assert (Hids : ∀ q', q' ∈ test_ids (TESTS ++ [(q, pts, fn)]) ↔
                       q' ∈ test_ids TESTS ∨ q' = q).
  { intros q'. unfold test_ids. rewrite fmap_app, elem_of_app. simpl.
    by rewrite list_elem_of_singleton. }
  split; [done|]. split.
  { rewrite lookup_app_r by done. by rewrite Nat.sub_diag. }
  split.
  { rewrite tests_of_app. simpl. by rewrite decide_True. }
  split.
  { rewrite main_maxes_lookup, decide_True by (apply Hids; by right).
    rewrite declared_app. simpl. rewrite decide_True by done. f_equal. lia. }
  split.
  { apply main_questions_elem, Hids. by right. }
  intros q' Hne. split; [|split].
  - rewrite tests_of_app. simpl. rewrite decide_False by done.
    by rewrite app_nil_r.
  - rewrite !main_maxes_lookup, declared_app. simpl.
    rewrite (decide_False (P := q = q')) by done.
    destruct (decide (q' ∈ test_ids TESTS)) as [Hin|Hnin].
    + rewrite decide_True by (apply Hids; by left). f_equal. lia.
    + rewrite decide_False; [done|]. rewrite Hids. intros [?|?]; done.
  - rewrite !main_questions_elem, Hids. split; [intros [?|?]; done|by left].
Qed.

(** *** Prerequisites *)

Lemma add_prereq_lookup q pre PREREQS q' :
  add_prereq q pre PREREQS !! q' =
    if decide (q' = q)
    then Some (default ∅ (PREREQS !! q) ∪
               list_to_set (match pre with PreStr s => [s] | PreList l => l end))
    else PREREQS !! q'.
Proof.
  unfold add_prereq. destruct (decide (q' = q)) as [->|Hne].
  - rewrite lookup_insert_eq. f_equal. f_equal.
    destruct (decide (q ∈ dom PREREQS)) as [Hin|Hnin]; [done|].
    rewrite lookup_insert_eq. apply not_elem_of_dom in Hnin. by rewrite Hnin.
  - rewrite lookup_insert_ne by done.
    destruct (decide (q ∈ dom PREREQS)); [done|].
    by rewrite lookup_insert_ne.
Qed.

(** [add_prereq(q, pre)] adds to the prerequisites of [q] and to nothing
    else: a string counts as one prerequisite (not as its characters), a
    list as its elements; what was recorded before stays; calls commute,
    for the same or for different questions, and repeating a call changes
    nothing. *)
Theorem add_prereq_union (q : string) (pre : prearg)
    (PREREQS : gmap string (gset string)) :
  (∀ x, x ∈ default ∅ (add_prereq q pre PREREQS !! q) ↔
        x ∈ default ∅ (PREREQS !! q) ∨
        match pre with PreStr s => x = s | PreList l => x ∈ l end) ∧
  (∀ q', q' ≠ q → add_prereq q pre PREREQS !! q' = PREREQS !! q') ∧
  add_prereq q pre (add_prereq q pre PREREQS) = add_prereq q pre PREREQS ∧
  (∀ q2 pre2,
     add_prereq q pre (add_prereq q2 pre2 PREREQS) =
     add_prereq q2 pre2 (add_prereq q pre PREREQS)).
Proof.
  split; [|split; [|split]].
  - intros x. rewrite add_prereq_lookup, decide_True by done. simpl.
    rewrite elem_of_union, elem_of_list_to_set.
    destruct pre; [by rewrite list_elem_of_singleton|done].
  - intros q' Hne. by rewrite add_prereq_lookup, decide_False.
  - apply map_eq. intros q'. rewrite !add_prereq_lookup.
    destruct (decide (q' = q)) as [->|Hne]; [|done].
    rewrite decide_True by done. simpl. f_equal.
    apply set_eq. intros x. rewrite !elem_of_union. tauto.
  - intros q2 pre2. apply map_eq. intros q'. rewrite !add_prereq_lookup.
    repeat case_decide; simplify_eq/=; try done.
    f_equal. apply set_eq. intros x. rewrite !elem_of_union. tauto.
Qed.

Lemma collect_prereqs (tests : list test_entry) :
  ∀ (qs : gset string) (mx : gmap string Z) (pre : gmap string (gset string)) q,
    (foldl (λ '(questions, maxes, PREREQS) '(q, points, _),
              ({[q]} ∪ questions,
               <[q := (default 0 (maxes !! q) + points)%Z]> maxes,
               if decide (q ∈ dom PREREQS) then PREREQS
               else <[q := ∅]> PREREQS))
           (qs, mx, pre) tests).2 !! q =
    match pre !! q with
    | Some s => Some s
    | None => if decide (q ∈ test_ids tests) then Some ∅ else None
    end.
Proof.
  induction tests as [|[[tq pts] fn] tests IH]; intros qs mx pre q; simpl.
  - by destruct (pre !! q).
  - rewrite IH. destruct (decide (tq ∈ dom pre)) as [Hin|Hnin].
    + destruct (pre !! q) eqn:E; [done|].
      destruct (decide (tq = q)) as [->|Hne].
      * apply elem_of_dom in Hin as [s Hs]. congruence.
      * destruct (decide (q ∈ test_ids tests)) as [Hq|Hq].
        -- by rewrite decide_True by by right.
        -- rewrite decide_False; [done|].
           intros [?|?]%elem_of_cons; congruence.
    + destruct (decide (tq = q)) as [->|Hne].
      * rewrite lookup_insert_eq. apply not_elem_of_dom in Hnin.
        rewrite Hnin. by rewrite decide_True by left.
      * rewrite lookup_insert_ne by done. destruct (pre !! q); [done|].
        destruct (decide (q ∈ test_ids tests)) as [Hq|Hq].
        -- by rewrite decide_True by by right.
        -- rewrite decide_False; [done|].
           intros [?|?]%elem_of_cons; congruence.
Qed.

(** The prerequisites that [main] hands to the Tracker: what [add_prereq]
    recorded is passed on unchanged, for questions and for other keys
    alike; every question without an entry gets the empty set; so every
    question of the Tracker has an entry. *)
Theorem main_prereqs (TESTS : list test_entry)
    (PREREQS : gmap string (gset string)) (out : sink) :
  let given := prereqs (tracker (start TESTS PREREQS out)) in
  (∀ q s, PREREQS !! q = Some s → given !! q = Some s) ∧
  (∀ q, PREREQS !! q = None →
        given !! q = if decide (q ∈ test_ids TESTS) then Some ∅ else None) ∧
  (∀ q, q ∈ questions (tracker (start TESTS PREREQS out)) → is_Some (given !! q)).
Proof.
  intros given. subst given.
  assert (H : ∀ q, prereqs (tracker (start TESTS PREREQS out)) !! q =
                   match PREREQS !! q with
                   | Some s => Some s
                   | None => if decide (q ∈ test_ids TESTS) then Some ∅ else None
                   end).
  { intros q. rewrite <- (collect_prereqs TESTS ∅ ∅ PREREQS q).
    unfold start. fold (collect TESTS PREREQS).
    by destruct (collect TESTS PREREQS) as [[qs mx] pre]. }
  split; [|split].
  - intros q s Hq. by rewrite H, Hq.
  - intros q Hq. by rewrite H, Hq.
  - intros q Hq.
    destruct (start_tracker TESTS PREREQS out) as (Hqs & _).
    rewrite Hqs in Hq. apply main_questions_elem in Hq. rewrite H.
    destruct (PREREQS !! q); [eauto|]. rewrite decide_True by done. eauto.
Qed.

(** *** The Tracker that [main] builds *)

Lemma zero_points_dom (qs : list string) q :
  is_Some ((list_to_map ((λ q, (q, 0%Z)) <$> qs) : gmap string Z) !! q) → q ∈ qs.
Proof.
  induction qs as [|x qs IH]; simpl.
  - rewrite lookup_empty. by intros [? ?].
  - destruct (decide (x = q)) as [->|Hne]; [left|].
    rewrite lookup_insert_ne by done. intros H. right. auto.
Qed.

(** In the Tracker that [main] builds, [questions], [maxes] and [points]
    have the same keys, the registered question ids; every question has 0
    points; and [begin_q] of any question returns [True], with the declared
    total of the question as its remaining possible points. *)
Theorem start_consistent (TESTS : list test_entry)
    (PREREQS : gmap string (gset string)) (out : sink) (q : string) :
  let w := start TESTS PREREQS out in
  (q ∈ questions (tracker w) ↔ q ∈ test_ids TESTS) ∧
  (is_Some (maxes (tracker w) !! q) ↔ q ∈ test_ids TESTS) ∧
  (is_Some (points (tracker w) !! q) ↔ q ∈ test_ids TESTS) ∧
  (q ∈ test_ids TESTS →
     points (tracker w) !! q = Some 0%Z ∧
     (begin_q q w).2 = Return true ∧
     possible_points_remaining (tracker (begin_q q w).1)
       = Some (declared q TESTS)).
Proof.
  intros w. subst w.
  destruct (start_tracker TESTS PREREQS out) as (Hqs & Hmx & Hpts & _).
  rewrite Hqs, Hmx, Hpts. split; [apply main_questions_elem|]. split.
  { rewrite main_maxes_lookup. destruct (decide (q ∈ test_ids TESTS)).
    - split; eauto.
    - split; [by intros [? ?]|done]. }
  split.
  { split.
    - intros H%zero_points_dom. by apply main_questions_elem in H.
    - intros H. rewrite zero_points_lookup; [eauto|].
      by apply main_questions_elem. }
  intros Hq. split.
  { apply zero_points_lookup. by apply main_questions_elem. }
  destruct (begin_q_ok q (start TESTS PREREQS out) (declared q TESTS))
    as (Hb & _ & Hr & _).
  - rewrite Hqs. by apply main_questions_elem.
  - by rewrite Hmx, main_maxes_lookup, decide_True.
  - done.
Qed.

(** *** Calls out of order *)

Lemma end_test_unstarted w pts q p rem :
  current_question (tracker w) = Some q →
  points (tracker w) !! q = Some p →
  possible_points_remaining (tracker w) = Some rem →
  points_at_test_start (tracker w) = None →
  end_test pts w =
    (update (set_possible_points_remaining (Some (rem - pts)%Z))
       (if mute_output (tracker w) then (unmute w).1 else w),
     Raise TypeError).
Proof.
  intros Hq Hp Hr Hs. destruct w as [t out nid pr cl lq]. simpl in *. run.
  destruct (mute_output t); simpl; [destruct (muted t); simpl|];
    repeat (progress (rewrite ?Hr, ?Hq, ?Hp, ?Hs; simpl)); done.
Qed.

Lemma bracket_clears w name given pts q p rem :
  current_question (tracker w) = Some q →
  points (tracker w) !! q = Some p →
  possible_points_remaining (tracker w) = Some rem →
  points_at_test_start (tracker (bracket name given pts w).1) = None.
Proof.
  intros Hq Hp Hr. destruct w as [t out nid pr cl lq]. simpl in *.
  unfold bracket. run.
  destruct (mute_output t) eqn:Emo; [destruct (muted t) eqn:Emu|];
    repeat (progress (rewrite ?Emo, ?Emu, ?Hq, ?Hp, ?Hr, ?lookup_insert_eq; simpl));
    repeat (case_bool_decide;
            repeat (progress (rewrite ?Emo, ?Emu, ?Hq, ?Hp, ?Hr,
                                ?lookup_insert_eq; simpl)));
    done.
Qed.

(** [begin_test] outside a question raises [KeyError] with the test name
    already stored.  [end_test] outside a question raises [TypeError] after
    its [unmute].  [end_test] inside a question but without a [begin_test]
    before it (for instance a second [end_test] in a row) raises
    [TypeError] only after it has taken [pts] off the remaining possible
    points, so the accounting of the question is off from then on. *)
Theorem tracker_out_of_order (w : World) (name : string) (pts : Z) :
  let w0 := if mute_output (tracker w) then (unmute w).1 else w in
  (current_question (tracker w) = None →
     begin_test name w = (update (set_current_test (Some name)) w, Raise KeyError)) ∧
  (possible_points_remaining (tracker w) = None →
     end_test pts w = (w0, Raise TypeError)) ∧
  (∀ q p rem,
     current_question (tracker w) = Some q →
     points (tracker w) !! q = Some p →
     possible_points_remaining (tracker w) = Some rem →
     points_at_test_start (tracker w) = None →
     end_test pts w =
       (update (set_possible_points_remaining (Some (rem - pts)%Z)) w0,
        Raise TypeError)) ∧
  (∀ q p rem given,
     current_question (tracker w) = Some q →
     points (tracker w) !! q = Some p →
     possible_points_remaining (tracker w) = Some rem →
     ((bracket name given pts >> end_test pts) w).2 = Raise TypeError ∧
     possible_points_remaining
       (tracker ((bracket name given pts >> end_test pts) w).1)
       = Some (rem - pts - pts)%Z).
Proof.
  intros w0. subst w0. split; [|split; [|split]].
  - intros Hq. destruct w as [t out nid pr cl lq]. simpl in *. run.
    by rewrite Hq.
  - intros Hr. destruct w as [t out nid pr cl lq]. simpl in *. run.
    destruct (mute_output t); simpl; [destruct (muted t); simpl|];
      rewrite Hr; done.
  - intros q p rem Hq Hp Hr Hs. by apply (end_test_unstarted w pts q p rem).
  - intros q p rem given Hq Hp Hr.
    destruct (bracket_step w name given pts q p rem Hq Hp Hr)
      as (Hret & Hq' & Hp' & Hr' & _).
    pose proof (bracket_clears w name given pts q p rem Hq Hp Hr) as Hs'.
    assert ((bracket name given pts >> end_test pts) w
            = end_test pts (bracket name given pts w).1) as ->.
    { revert Hret. unfold bind.
      destruct (bracket name given pts w) as [w1 [[]|e]]; simpl; done. }
    rewrite (end_test_unstarted _ pts q (p + given)%Z (rem - pts)%Z).
    + by split.
    + done.
    + by rewrite Hp', lookup_insert_eq.
    + done.
    + done.
Qed.

End Harness.

(** ** The helpers of the tests: graphics switches and [verify_node] *)

Module Checks.

Import Harness.

(** *** Definitions *)

(** The part of the process state that the graphics switches touch: the
    module attribute [backend.use_graphics].  A statement reads and writes
    it, and returns or raises. *)
Definition G (A : Type) : Type := bool → bool * result A.

(** [disable_graphics] (lines 156-157) *)
Definition disable_graphics : G unit := λ _, (false, Return tt).

(** [with no_graphics(): body] (lines 159-164), by the protocol of
    [contextlib.contextmanager]: the generator runs up to its [yield], then
    the body runs; when the body returns, the generator is resumed and runs
    to its end; when the body raises, the exception is raised inside the
    generator at the [yield], which has no handler there, and leaves the
    [with] statement. *)
Definition no_graphics (body : G unit) : G unit := λ use_graphics,
  let old_use_graphics := use_graphics in
  match body false with
  | (_, Return _) => (old_use_graphics, Return tt)
  | (g, Raise e) => (g, Raise e)
  end.

(** What [verify_node] observes of the object it is given: the outcome of
    its three [isinstance] tests (against [nn.Parameter], against the two
    loss classes, against [nn.Node]) and the tuple [node.data.shape], [None]
    when the object has no such attribute. *)
Record object := mkObject {
  is_Parameter : bool;
  is_loss : bool;
  is_Node : bool;
  data_shape : option (list Z)
}.

(** An entry of [expected_shape]: the string '?' or an integer. *)
Inductive dim : Type :=
  | Wild
  | Exactly (n : Z).

(** [assert b, message] *)
Definition check (b : bool) : result unit :=
  if b then Return tt else Raise AssertionError.

(** [expected == '?' or actual == expected] *)
Definition dim_ok (actual : Z) (expected : dim) : bool :=
  match expected with
  | Wild => true
  | Exactly n => bool_decide (actual = n)
  end.

(** [all([... for (actual, expected) in zip(shape, expected_shape)])] *)
Fixpoint all_zip (shape : list Z) (expected_shape : list dim) : bool :=
  match shape, expected_shape with
  | actual :: shape', expected :: expected_shape' =>
      dim_ok actual expected && all_zip shape' expected_shape'
  | _, _ => true
  end.

(** [verify_node] (lines 166-191); [node] is [None] or an object,
    [expected_shape] is [None] or a tuple. *)
Definition verify_node (node : option object) (expected_type : string)
    (expected_shape : option (list dim)) : result unit :=
  let typed :=
    if decide (expected_type = "parameter") then
      match node with
      | None => Raise AssertionError
      | Some o => check (is_Parameter o)
      end
    else if decide (expected_type = "loss") then
      match node with
      | None => Raise AssertionError
      | Some o => check (is_loss o)
      end
    else if decide (expected_type = "node") then
      match node with
      | None => Raise AssertionError
      | Some o => check (is_Node o)
      end
    else Raise AssertionError in
  match typed with
  | Raise e => Raise e
  | Return _ =>
      if decide (expected_type ≠ "loss") then
        match node with
        | None => Raise (OtherError "AttributeError")
        | Some o =>
            match data_shape o with
            | None => Raise (OtherError "AttributeError")
            | Some shape =>
                match expected_shape with
                | None => Raise TypeError
                | Some expected => check (all_zip shape expected)
                end
            end
        end
      else Return tt
  end.

(** *** The graphics switches *)

(** [with no_graphics()] runs its body with graphics off.  After a body
    that returns, [backend.use_graphics] has the value it had before the
    [with] statement, whatever the body did to it.  After a body that
    raises it is not restored: it keeps the value the body left (off, unless
    the body switched graphics on), and the exception leaves the
    statement.  Nesting the statement changes nothing. *)
Theorem no_graphics_scope (body : G unit) (g : bool) :
  (∀ g', body false = (g', Return tt) → no_graphics body g = (g, Return tt)) ∧
  (∀ g' e, body false = (g', Raise e) → no_graphics body g = (g', Raise e)) ∧
  no_graphics (no_graphics body) g = no_graphics body g ∧
  (no_graphics disable_graphics g = (g, Return tt)).
Proof.
  unfold no_graphics. split; [|split; [|split]].
  - intros g' H. by rewrite H.
  - intros g' e H. by rewrite H.
  - by destruct (body false) as [g' [[]|e]].
  - done.
Qed.

(** *** [verify_node] *)

Lemma all_zip_spec (shape : list Z) :
  ∀ expected,
    all_zip shape expected = true ↔
    ∀ i a e, shape !! i = Some a → expected !! i = Some e →
             e = Wild ∨ e = Exactly a.
Proof.
  induction shape as [|a shape IH]; intros [|e expected]; simpl.
  - split; [|done]. intros _ i ? ? Hi. by rewrite lookup_nil in Hi.
  - split; [|done]. intros _ i ? ? Hi. by rewrite lookup_nil in Hi.
  - split; [|done]. intros _ i ? ? _ Hi. by rewrite lookup_nil in Hi.
  - rewrite andb_true_iff, IH. split.
    + intros [Hd Hrest] [|i] a' e' Ha He; simpl in *.
      * injection Ha as <-. injection He as <-. destruct e; [by left|].
        simpl in Hd. apply bool_decide_eq_true in Hd. right. by subst.
      * eauto.
    + intros H. split.
      * destruct (H 0 a e eq_refl eq_refl) as [-> | ->]; [done|].
        simpl. by apply bool_decide_eq_true.
      * intros i a' e' Ha He. by apply (H (S i)).
Qed.

(** [verify_node] returns exactly when the object is there and passes the
    [isinstance] test that [expected_type] names ("parameter", "loss" or
    "node"; any other name fails) and, unless a loss is expected, every
    position that the object's shape and the expected shape both have holds
    the expected integer or faces a '?'.  So for a loss the shape is never
    looked at, and the lengths of the two shapes are never compared. *)
Theorem verify_node_accepts (node : option object) (expected_type : string)
    (expected_shape : option (list dim)) :
  verify_node node expected_type expected_shape = Return tt ↔
  ∃ o, node = Some o ∧
       ((expected_type = "parameter" ∧ is_Parameter o = true) ∨
        (expected_type = "loss" ∧ is_loss o = true) ∨
        (expected_type = "node" ∧ is_Node o = true)) ∧
       (expected_type = "loss" ∨
        ∃ shape expected,
          data_shape o = Some shape ∧ expected_shape = Some expected ∧
          ∀ i a e, shape !! i = Some a → expected !! i = Some e →
                   e = Wild ∨ e = Exactly a).
Proof.
  unfold verify_node, check. split.
  - intros H. destruct node as [o|].
    2: { repeat case_decide; done. }
    exists o. split; [done|].
    destruct (decide (expected_type = "parameter")) as [->|Hp].
    { rewrite decide_True in H by done.
      destruct (is_Parameter o) eqn:E; [|done]. split; [by left|]. right.
      destruct (data_shape o) as [s|]; [|done].
      destruct expected_shape as [es|]; [|done].
      exists s, es. split; [done|]. split; [done|]. apply all_zip_spec.
      by destruct (all_zip s es). }
    destruct (decide (expected_type = "loss")) as [->|Hl].
    { destruct (is_loss o) eqn:E; [|done]. split; [right; by left|by left]. }
    destruct (decide (expected_type = "node")) as [->|Hn]; [|done].
    rewrite decide_True in H by done.
    destruct (is_Node o) eqn:E; [|done]. split; [right; by right|]. right.
    destruct (data_shape o) as [s|]; [|done].
    destruct expected_shape as [es|]; [|done].
    exists s, es. split; [done|]. split; [done|]. apply all_zip_spec.
    by destruct (all_zip s es).
  - intros (o & -> & Hty & Hsh).
    destruct Hty as [[-> Ho]|[[-> Ho]|[-> Ho]]]; simpl; rewrite Ho.
    + destruct Hsh as [?|(s & es & -> & -> & Hall)]; [done|].
      apply all_zip_spec in Hall. by rewrite Hall.
    + done.
    + destruct Hsh as [?|(s & es & -> & -> & Hall)]; [done|].
      apply all_zip_spec in Hall. by rewrite Hall.
Qed.

(** A batch of two rows with ten scores each passes as ('?', 10); so does
    an object whose shape has one entry only, and so does any shape against
    the empty expectation. *)
Example verify_node_lengths :
  verify_node (Some (mkObject false false true (Some [2; 10]%Z))) "node"
    (Some [Wild; Exactly 10]) = Return tt ∧
  verify_node (Some (mkObject false false true (Some [2]%Z))) "node"
    (Some [Wild; Exactly 10]) = Return tt ∧
  verify_node (Some (mkObject false false true (Some [2; 11]%Z))) "node"
    (Some []) = Return tt ∧
  verify_node (Some (mkObject false false true (Some [2; 11]%Z))) "node"
    (Some [Wild; Exactly 10]) = Raise AssertionError ∧
  verify_node (Some (mkObject false true true None)) "loss" None = Return tt.
Proof. vm_compute. done. Qed.

End Checks.

(** ** The models of models.py *)

Module Models.

Import Harness.
Import Tracer.

(** *** Computation graphs *)

(** Modelled from the specification: the node classes of the tensor
    library are not among the sources.  A node is an object with an
    identity, a class and the list of its parents, which is fixed when the
    node is made; a call of a node constructor makes a new object whose
    parents are the node arguments of the call, in their order, and leaves
    every other object as it is.  Shapes and numeric data are left out, so a
    constructor never fails here. *)
Inductive class : Type :=
  | nn_Parameter
  | nn_Constant
  | nn_Linear
  | nn_AddBias
  | nn_ReLU
  | nn_Add
  | nn_SoftmaxLoss.

(** The objects made so far: [graph] holds the [parents] list of each, as
    in [Tracer]; [class_of] its class; [next] is the identity that the next
    object gets. *)
Record Heap := mkHeap {
  graph : gmap nat (list nat);
  class_of : gmap nat class;
  next : nat
}.

Definition empty : Heap := mkHeap ∅ ∅ 0.

(** A constructor call [nn.C(p1, ..., pn)], with [ps] the node arguments. *)
Definition new (c : class) (ps : list nat) (h : Heap) : Heap * nat :=
  (mkHeap (<[next h := ps]> (graph h)) (<[next h := c]> (class_of h))
     (S (next h)),
   next h).

(** Every object was made before [next], from parents made before it. *)
Definition wf (h : Heap) : Prop :=
  (∀ k ps, graph h !! k = Some ps → k < next h ∧ ∀ p, p ∈ ps → p < k) ∧
  (∀ k c, class_of h !! k = Some c → k < next h).

(** From [h] to [h'] the objects of [h] are unchanged and no [nn.Parameter]
    has been made. *)
Definition frame (h h' : Heap) : Prop :=
  next h ≤ next h' ∧
  (∀ k, k < next h →
     graph h' !! k = graph h !! k ∧ class_of h' !! k = class_of h !! k) ∧
  (∀ k, next h ≤ k → class_of h' !! k ≠ Some nn_Parameter).

Definition is_parameter (h : Heap) (p : nat) : Prop :=
  p < next h ∧ class_of h !! p = Some nn_Parameter ∧ graph h !! p = Some [].

Lemma wf_parent h p k : wf h → parent_of (graph h) p k → p < k ∧ k < next h.
Proof.
  unfold parent_of, parents. intros [Hg _] Hp.
  destruct (graph h !! k) as [ps|] eqn:E; simpl in Hp;
    [|by apply elem_of_nil in Hp].
  destruct (Hg k ps E) as [? Hps]. split; [by apply Hps|done].
Qed.

Lemma wf_acyclic h : wf h → acyclic (graph h).
Proof.
  intros Hwf n Hn.
  assert (Hlt : ∀ a b, tc (parent_of (graph h)) a b → a < b).
  { induction 1 as [a b Hab|a b c Hab _ IH].
    - by apply (wf_parent h) in Hab as [? ?].
    - apply (wf_parent h) in Hab as [? ?]; [lia|done]. }
  specialize (Hlt n n Hn). lia.
Qed.

Lemma frame_refl h : wf h → frame h h.
Proof.
  intros [_ Hc]. split; [done|]. split; [done|].
  intros k Hk E. apply Hc in E. lia.
Qed.

Lemma frame_trans h1 h2 h3 : frame h1 h2 → frame h2 h3 → frame h1 h3.
Proof.
  intros (Hle1 & Hold1 & Hnew1) (Hle2 & Hold2 & Hnew2).
  split; [lia|]. split.
  - intros k Hk. destruct (Hold1 k Hk) as [<- <-]. apply Hold2. lia.
  - intros k Hk. destruct (decide (k < next h2)) as [Hlt|Hge].
    + destruct (Hold2 k Hlt) as [_ ->]. by apply Hnew1.
    + apply Hnew2. lia.
Qed.

Lemma frame_reachable h h' n k :
  wf h → frame h h' → k < next h →
  reachable (graph h') n k ↔ reachable (graph h) n k.
Proof.
  intros Hwf (Hle & Hold & _) Hk. split; intros Hr; revert Hk; revert k Hr.
  - apply (rtc_ind_r (λ k, k < next h → reachable (graph h) n k));
      [intros; apply rtc_refl|].
    intros y z Hny Hyz IH Hk.
    assert (Hyz' : parent_of (graph h) y z).
    { unfold parent_of, parents in *. by destruct (Hold z Hk) as [<- _]. }
    destruct (wf_parent h y z Hwf Hyz') as [? _].
    eapply rtc_r; [apply IH; lia|done].
  - apply (rtc_ind_r (λ k, k < next h → reachable (graph h') n k));
      [intros; apply rtc_refl|].
    intros y z Hny Hyz IH Hk.
    destruct (wf_parent h y z Hwf Hyz) as [? _].
    eapply rtc_r; [apply IH; lia|].
    unfold parent_of, parents in *. by destruct (Hold z Hk) as [-> _].
Qed.

Lemma frame_parameter h h' p : frame h h' → is_parameter h p → is_parameter h' p.
Proof.
  intros (Hle & Hold & _) (Hp & Hc & Hg). destruct (Hold p Hp) as [Eg Ec].
  split; [lia|]. by rewrite Eg, Ec.
Qed.

Lemma new_wf c ps h :
  wf h → (∀ p, p ∈ ps → p < next h) → wf (new c ps h).1.
Proof.
  intros [Hg Hc] Hps. split; simpl.
  - intros k ps' [[<- <-]|[Hne E]]%lookup_insert_Some.
    + split; [lia|done].
    + destruct (Hg k ps' E) as [? ?]. split; [lia|done].
  - intros k c' [[<- <-]|[Hne E]]%lookup_insert_Some; [lia|].
    apply Hc in E. lia.
Qed.

Lemma new_frame c ps h : wf h → c ≠ nn_Parameter → frame h (new c ps h).1.
Proof.
  intros [Hg Hc] Hne. split; [simpl; lia|]. split; simpl.
  - intros k Hk. rewrite !lookup_insert_ne by lia. done.
  - intros k Hk. destruct (decide (k = next h)) as [->|Hk'].
    + rewrite lookup_insert_eq. congruence.
    + rewrite lookup_insert_ne by done. intros E. apply Hc in E. lia.
Qed.

Lemma reachable_node g n k ps :
  parents g k = ps →
  reachable g n k ↔ n = k ∨ Exists (λ p, reachable g n p) ps.
Proof.
  intros <-. rewrite Exists_exists. split.
  - intros H. apply rtc_inv_r in H as [->|(y & Hr & Hp)]; [by left|].
    right. by exists y.
  - intros [->|(p & Hp & Hr)]; [apply rtc_refl|]. by eapply rtc_r.
Qed.

Lemma reachable_parameter h n p :
  is_parameter h p → reachable (graph h) n p ↔ n = p.
Proof.
  intros (_ & _ & Hg). rewrite (reachable_node _ n p []).
  - rewrite Exists_nil. tauto.
  - unfold parents. by rewrite Hg.
Qed.

Lemma wf_reachable h n k : wf h → reachable (graph h) n k → n ≤ k.
Proof.
  intros Hwf. induction 1 as [|a b c Hab _ IH]; [done|].
  apply (wf_parent h) in Hab as [? ?]; [lia|done].
Qed.

Lemma trace_node_reachable g root depth :
  acyclic g → size g < depth →
  ∃ trace, trace_node g depth root = Some trace ∧
           ∀ n, n ∈ trace ↔ reachable g n root.
Proof.
  intros Hac Hd.
  destruct (visit_total g depth root initial Hac Hd) as [st Hst].
  destruct (visit_spec g Hac _ _ _ _ Hst (initial_closed g) initial_tape_ok)
    as (_ & _ & Hn).
  exists (nodes st). unfold trace_node, trace_node_run. rewrite Hst.
  split; [done|]. intros n. rewrite Hn. simpl. split; [|by right].
  intros [H|H]; [by apply not_elem_of_empty in H|done].
Qed.

Lemma frame_lookup h h' k ps :
  wf h → frame h h' → graph h !! k = Some ps → graph h' !! k = Some ps.
Proof.
  intros [Hg _] (_ & Hold & _) E. destruct (Hg k ps E) as [Hk _].
  destruct (Hold k Hk) as [-> _]. done.
Qed.

Lemma new_spec c ps h h' n :
  new c ps h = (h', n) → wf h → Forall (λ p, p < next h) ps →
  c ≠ nn_Parameter →
  n = next h ∧ next h' = S (next h) ∧ wf h' ∧ frame h h' ∧
  graph h' !! next h = Some ps ∧ class_of h' !! next h = Some c.
Proof.
  intros E Hwf Hps Hc.
  assert (h' = (new c ps h).1) as -> by (by rewrite E).
  assert (n = (new c ps h).2) as -> by (by rewrite E).
  split; [done|]. split; [done|]. split.
  { apply new_wf; [done|]. by apply Forall_forall. }
  split; [by apply new_frame|]. simpl. by rewrite !lookup_insert_eq.
Qed.

(** One constructor call: the heap after it is named [h'], the fact about
    the parents of the new node [G]; what is known of the heap before is
    carried over. *)
Ltac step h' G :=
  match goal with
  | |- context [new ?c ?ps ?h] =>
      let n := fresh "n" in
      let E := fresh "E" in
      let N := fresh "N" in
      let W := fresh "W" in
      let F := fresh "F" in
      let C := fresh "C" in
      destruct (new c ps h) as [h' n] eqn:E;
      apply new_spec in E as (-> & N & W & F & G & C);
      [|done|repeat constructor; lia|done];
      match goal with
      | W0 : wf h |- _ =>
          repeat match goal with
                 | H : graph h !! _ = Some _ |- _ =>
                     apply (frame_lookup h h' _ _ W0 F) in H
                 | H : is_parameter h _ |- _ =>
                     apply (frame_parameter h h' _ F) in H
                 | H : frame _ h |- _ =>
                     apply (λ H0, frame_trans _ _ _ H0 F) in H
                 end
      end
  end.

Ltac node G :=
  match type of G with
  | graph ?h !! ?k = Some ?ps =>
      rewrite (reachable_node (graph h) _ k ps)
        by (unfold parents; by rewrite G);
      rewrite ?Exists_cons, ?Exists_nil; cbv beta
  end.

Lemma empty_wf : wf empty.
Proof. split; intros k ?; simpl; by rewrite lookup_empty. Qed.

Lemma new_parameter h :
  wf h →
  wf (new nn_Parameter [] h).1 ∧
  is_parameter (new nn_Parameter [] h).1 (next h) ∧
  next (new nn_Parameter [] h).1 = S (next h) ∧
  ∀ p, is_parameter h p → is_parameter (new nn_Parameter [] h).1 p.
Proof.
  intros Hwf. split.
  { apply new_wf; [done|]. by intros p ?%elem_of_nil. }
  split.
  { split; [simpl; lia|]. simpl. by rewrite !lookup_insert_eq. }
  split; [done|].
  intros p (Hp & Hc & Hg). split; [simpl; lia|]. simpl.
  rewrite !lookup_insert_ne by lia. done.
Qed.

Lemma new_constant h :
  wf h →
  wf (new nn_Constant [] h).1 ∧
  next (new nn_Constant [] h).1 = S (next h) ∧
  ∀ p, is_parameter h p → is_parameter (new nn_Constant [] h).1 p.
Proof.
  intros Hwf. split.
  { apply new_wf; [done|]. by intros p ?%elem_of_nil. }
  split; [done|]. intros p. apply frame_parameter. by apply new_frame.
Qed.

(** *** The perceptron *)

(** What the training loops compute with (weights, data points, the state
    of a model and of its data set) lives in the tensor library; a loop uses
    it only through the operations named below, which are the variables of
    its section. *)

Module PerceptronModel.

Section Train.

Context {W X : Type}.

(** [nn.as_scalar(self.run(x)) >= 0], for the weights [w] *)
Variable nonnegative : W → X → bool.

(** [nn.Parameter.update(self.w, x, multiplier)]: the weights after the
    update. *)
Variable update : W → X → Z → W.

(** [get_prediction] (lines 34-43) *)
Definition get_prediction (w : W) (x : X) : Z :=
  if nonnegative w x then 1%Z else (-1)%Z.

(** One run of the [for] loop of [train] (lines 52-55) over the examples of
    [dataset.iterate_once(1)], from the weights [w] and the current value
    of [flag]. *)
Fixpoint pass (data : list (X * Z)) (w : W) (flag : bool) : W * bool :=
  match data with
  | [] => (w, flag)
  | (x, y) :: rest =>
      if decide (y ≠ get_prediction w x) then pass rest (update w x y) false
      else pass rest w flag
  end.

(** [train] (lines 45-58); [passes] bounds the number of runs of the body
    of the [while] loop, and [None] says that the loop is still running
    after that many. *)
Fixpoint train (data : list (X * Z)) (passes : nat) (w : W) : option W :=
  match passes with
  | 0 => None
  | S passes' =>
      let '(w', flag) := pass data w true in
      if flag then Some w' else train data passes' w'
  end.

Lemma pass_false data : ∀ w, (pass data w false).2 = false.
Proof.
  induction data as [|[x y] data IH]; intros w; simpl; [done|].
  case_decide; apply IH.
Qed.

Lemma pass_true data :
  ∀ w flag w', pass data w flag = (w', true) →
    flag = true ∧ w' = w ∧ Forall (λ xy, get_prediction w xy.1 = xy.2) data.
Proof.
  induction data as [|[x y] data IH]; intros w flag w' H; simpl in H.
  - by injection H as -> ->.
  - destruct (decide (y ≠ get_prediction w x)) as [Hne|Heq].
    + pose proof (pass_false data (update w x y)) as Hf. by rewrite H in Hf.
    + destruct (IH _ _ _ H) as (-> & -> & Hall). split; [done|]. split; [done|].
      constructor; [|done]. simpl.
      by destruct (decide (y = get_prediction w x)) as [->|?].
Qed.

Lemma pass_clean data w :
  Forall (λ xy, get_prediction w xy.1 = xy.2) data → pass data w true = (w, true).
Proof.
  induction 1 as [|[x y] data Hxy _ IH]; simpl; [done|].
  simpl in Hxy. rewrite decide_False; [done|]. intros Hne. by apply Hne.
Qed.

Lemma pass_stray data :
  ∀ w flag, (∃ xy, xy ∈ data ∧ xy.2 ≠ 1%Z ∧ xy.2 ≠ (-1)%Z) →
    (pass data w flag).2 = false.
Proof.
  induction data as [|[x y] data IH]; intros w flag (xy & Hin & H1 & H2).
  - by apply elem_of_nil in Hin.
  - simpl. apply elem_of_cons in Hin as [->|Hin].
    + simpl in *. rewrite decide_True; [apply pass_false|].
      unfold get_prediction. by destruct (nonnegative w x).
    + case_decide; apply IH; eauto.
Qed.

End Train.

(** The perceptron on the integer line: one weight, the score of [x] is
    [w * x], an update adds [multiplier * x]. *)
Definition line_nonnegative (w x : Z) : bool := bool_decide (0 ≤ w * x)%Z.
Definition line_update (w x multiplier : Z) : Z := (w + multiplier * x)%Z.

End PerceptronModel.

(** *** The digit classifier *)

Module DigitClassificationModel.

(** The attributes of an instance: the identities of its four parameter
    nodes. *)
Record model := mkModel { w0 : nat; b0 : nat; w1 : nat; b1 : nat }.

(** [__init__] (lines 133-140) *)
Definition init (h : Heap) : Heap * model :=
  let '(h, b0) := new nn_Parameter [] h in
  let '(h, w0) := new nn_Parameter [] h in
  let '(h, b1) := new nn_Parameter [] h in
  let '(h, w1) := new nn_Parameter [] h in
  (h, mkModel w0 b0 w1 b1).

(** [run] (lines 142-160) *)
Definition run (self : model) (x : nat) (h : Heap) : Heap * nat :=
  let '(h, xm0) := new nn_Linear [x; w0 self] h in
  let '(h, a0) := new nn_AddBias [xm0; b0 self] h in
  let '(h, r0) := new nn_ReLU [a0] h in
  let '(h, xm1) := new nn_Linear [r0; w1 self] h in
  new nn_AddBias [xm1; b1 self] h.

(** [get_loss] (lines 164-178) *)
Definition get_loss (self : model) (x y : nat) (h : Heap) : Heap * nat :=
  let '(h, out) := run self x h in
  new nn_SoftmaxLoss [out; y] h.

Definition parameters (self : model) : list nat :=
  [w0 self; b0 self; w1 self; b1 self].

(** The attributes of [self] are parameter nodes of the heap. *)
Definition is_model (h : Heap) (self : model) : Prop :=
  Forall (is_parameter h) (parameters self).

(** A model made on the empty heap, and two constants made after it (the
    nodes 4 and 5). *)
Definition sample_model : model := (init empty).2.

Definition sample_heap : Heap :=
  (new nn_Constant [] (new nn_Constant [] (init empty).1).1).1.

Section Train.

Context {St : Type}.

(** One run of the [for] loop of [train] (lines 186-191) from the state
    [s] of the model and the data set: the state after it, and whether it
    returned or raised. *)
Variable epoch : St → St * result unit.

(** [dataset.get_validation_accuracy()] *)
Variable get_validation_accuracy : St → QArith_base.Q.

(** [train] (lines 180-194); [epochs] bounds the number of runs of the body
    of the [while] loop, and [None] says that the loop is still running
    after that many. *)
Fixpoint train (epochs : nat) (s : St) : option (St * result unit) :=
  match epochs with
  | 0 => None
  | S epochs' =>
      match epoch s with
      | (s', Raise e) => Some (s', Raise e)
      | (s', Return _) =>
          if QArith_base.Qlt_le_dec (QArith_base.Qmake 1 1)
               (get_validation_accuracy s')
          then Some (s', Return tt)
          else train epochs' s'
      end
  end.

End Train.

Lemma digit_run_spec h self x :
  wf h → is_model h self → x < next h →
  let h' := (run self x h).1 in
  let out := (run self x h).2 in
  wf h' ∧ frame h h' ∧ is_model h' self ∧ out < next h' ∧ next h ≤ out ∧
  class_of h' !! out = Some nn_AddBias ∧
  ∀ n, reachable (graph h') n out ↔
       (next h ≤ n < next h') ∨ n ∈ parameters self ∨ reachable (graph h) n x.
Proof.
  intros Hwf Hm Hx. pose proof Hm as Hm0.
  unfold is_model, parameters in Hm.
  rewrite !Forall_cons in Hm. destruct Hm as (Hw0 & Hb0 & Hw1 & Hb1 & _).
  pose proof Hw0 as (? & _). pose proof Hb0 as (? & _).
  pose proof Hw1 as (? & _). pose proof Hb1 as (? & _).
  pose proof (frame_refl h Hwf) as Hf.
  unfold run.
  step h1 G1. step h2 G2. step h3 G3. step h4 G4. step h5 G5.
  simpl.
  split; [done|]. split; [done|].
  split. { unfold is_model, parameters. by rewrite !Forall_cons. }
  split; [lia|]. split; [lia|]. split; [done|].
  intros n. node G5. node G4. node G3. node G2. node G1.
  rewrite (frame_reachable h h5 n x Hwf Hf Hx).
  rewrite !(reachable_parameter h5) by done.
  unfold parameters. rewrite !elem_of_cons, elem_of_nil.
  intuition lia.
Qed.

Lemma digit_init_spec h :
  wf h →
  wf (init h).1 ∧ is_model (init h).1 (init h).2 ∧
  NoDup (parameters (init h).2) ∧ next (init h).1 = 4 + next h.
Proof.
  intros W0.
  destruct (new_parameter h W0) as (W1 & P1 & N1 & T1).
  set (h1 := (new nn_Parameter [] h).1) in *.
  destruct (new_parameter h1 W1) as (W2 & P2 & N2 & T2).
  set (h2 := (new nn_Parameter [] h1).1) in *.
  destruct (new_parameter h2 W2) as (W3 & P3 & N3 & T3).
  set (h3 := (new nn_Parameter [] h2).1) in *.
  destruct (new_parameter h3 W3) as (W4 & P4 & N4 & T4).
  set (h4 := (new nn_Parameter [] h3).1) in *.
  change (init h).1 with h4.
  change (init h).2 with (mkModel (next h1) (next h) (next h3) (next h2)).
  split; [done|]. split.
  { unfold is_model, parameters. simpl. rewrite !Forall_cons.
    split; [auto|]. split; [auto|]. split; [auto|]. split; [auto|]. done. }
  split; [|lia].
  unfold parameters. simpl. rewrite !NoDup_cons, !elem_of_cons, !elem_of_nil.
  split; [lia|]. split; [lia|]. split; [lia|]. split; [tauto|].
  apply NoDup_nil_2.
Qed.

Lemma digit_sample_ok : wf sample_heap ∧ is_model sample_heap sample_model.
Proof.
  destruct (digit_init_spec empty empty_wf) as (W0 & M0 & _ & _).
  destruct (new_constant _ W0) as (W1 & _ & T1).
  destruct (new_constant _ W1) as (W2 & _ & T2).
  split; [exact W2|].
  eapply Forall_impl; [exact M0|]. intros p Hp. by apply T2, T1.
Qed.

End DigitClassificationModel.

(** *** The language identifier *)

Module LanguageIDModel.

Record model := mkModel {
  w : nat; b0 : nat; wHidden : nat; b1 : nat; wFinal : nat; b2 : nat
}.

(** [__init__] (lines 204-219) *)
Definition init (h : Heap) : Heap * model :=
  let '(h, w) := new nn_Parameter [] h in
  let '(h, b0) := new nn_Parameter [] h in
  let '(h, wHidden) := new nn_Parameter [] h in
  let '(h, b1) := new nn_Parameter [] h in
  let '(h, wFinal) := new nn_Parameter [] h in
  let '(h, b2) := new nn_Parameter [] h in
  (h, mkModel w b0 wHidden b1 wFinal b2).

(** What the read of a local variable that was never assigned raises. *)
Definition UnboundLocalError : exn := OtherError "UnboundLocalError".

(** One run of the body of the [for] loop of [run] (lines 254-262), from
    the values of the locals [flag] and [ans] ([None]: never assigned) to
    their values after it. *)
Definition body (self : model) (x : nat) (flag : bool) (ans : option nat)
    (h : Heap) : Heap * result (bool * option nat) :=
  let '(h, xm0) := new nn_Linear [x; w self] h in
  let '(h, a0) := new nn_AddBias [xm0; b0 self] h in
  let '(h, r0) := new nn_ReLU [a0] h in
  let '(h, xm1) := new nn_Linear [r0; wHidden self] h in
  let '(h, a1) := new nn_AddBias [xm1; b1 self] h in
  let '(h, r1) := new nn_ReLU [a1] h in
  if flag then (h, Return (false, Some r1))
  else
    let '(h, a2) := new nn_AddBias [xm1; b1 self] h in
    match ans with
    | None => (h, Raise UnboundLocalError)
    | Some a =>
        let '(h, r) := new nn_ReLU [a] h in
        let '(h, l) := new nn_Linear [r; wHidden self] h in
        let '(h, s) := new nn_Add [a2; l] h in
        (h, Return (false, Some s))
    end.

(** The [for] loop (lines 253-262) *)
Fixpoint loop (self : model) (xs : list nat) (flag : bool) (ans : option nat)
    (h : Heap) : Heap * result (bool * option nat) :=
  match xs with
  | [] => (h, Return (flag, ans))
  | x :: xs' =>
      match body self x flag ans h with
      | (h', Return (flag', ans')) => loop self xs' flag' ans' h'
      | (h', Raise e) => (h', Raise e)
      end
  end.

(** [run] (lines 222-263) *)
Definition run (self : model) (xs : list nat) (h : Heap) : Heap * result nat :=
  match loop self xs true None h with
  | (h, Raise e) => (h, Raise e)
  | (h, Return (_, None)) => (h, Raise UnboundLocalError)
  | (h, Return (_, Some ans)) =>
      let '(h, r) := new nn_ReLU [ans] h in
      let '(h, l) := new nn_Linear [r; wFinal self] h in
      let '(h, out) := new nn_AddBias [l; b2 self] h in
      (h, Return out)
  end.

(** The parameters that the loop uses, and all of them. *)
Definition recurrent (self : model) : list nat :=
  [w self; b0 self; wHidden self; b1 self].

Definition parameters (self : model) : list nat :=
  [w self; b0 self; wHidden self; b1 self; wFinal self; b2 self].

Definition is_model (h : Heap) (self : model) : Prop :=
  Forall (is_parameter h) (parameters self).

(** What the loop has reached when [ans] is the node [a'], from the heap
    [h], the inputs [xs] and the earlier value [prev] of [ans]: [a'] depends
    on every input, on [prev] and on the four parameters of the loop, and on
    nothing older than the loop but these and their ancestors. *)
Definition good (self : model) (h : Heap) (xs : list nat) (prev : option nat)
    (h' : Heap) (a' : nat) : Prop :=
  wf h' ∧ frame h h' ∧ a' < next h' ∧
  (∀ x, x ∈ xs → reachable (graph h') x a') ∧
  (∀ a, prev = Some a → reachable (graph h') a a') ∧
  (∀ p, p ∈ recurrent self → reachable (graph h') p a') ∧
  (∀ n, reachable (graph h') n a' →
        next h ≤ n ∨ n ∈ recurrent self ∨
        (∃ x, x ∈ xs ∧ reachable (graph h) n x) ∨
        (∃ a, prev = Some a ∧ reachable (graph h) n a)).

(** The two locals go together: [flag] holds as long as [ans] was never
    assigned. *)
Definition started (h : Heap) (flag : bool) (ans : option nat) : Prop :=
  (flag = true ∧ ans = None) ∨ (flag = false ∧ ∃ a, ans = Some a ∧ a < next h).

(** A model made on the empty heap, and two constants made after it (the
    nodes 6 and 7). *)
Definition sample_model : model := (init empty).2.

Definition sample_heap : Heap :=
  (new nn_Constant [] (new nn_Constant [] (init empty).1).1).1.

Lemma language_body_spec self h x flag ans :
  wf h → is_model h self → x < next h → started h flag ans →
  ∃ h' a', body self x flag ans h = (h', Return (false, Some a')) ∧
           good self h [x] ans h' a'.
Proof.
  intros Hwf Hm Hx Hst.
  unfold is_model, parameters in Hm.
  rewrite !Forall_cons in Hm.
  destruct Hm as (Hw & Hb0 & HwH & Hb1 & HwF & Hb2 & _).
  pose proof Hw as (? & _). pose proof Hb0 as (? & _).
  pose proof HwH as (? & _). pose proof Hb1 as (? & _).
  pose proof (frame_refl h Hwf) as Hf.
  unfold body.
  step h1 G1. step h2 G2. step h3 G3. step h4 G4. step h5 G5. step h6 G6.
  destruct Hst as [[-> ->]|(-> & a & -> & Ha)].
  - eexists _, _. split; [reflexivity|].
    assert (Hiff : ∀ n, reachable (graph h6) n (next h5) ↔
              (next h ≤ n < next h6) ∨ n ∈ recurrent self ∨
              reachable (graph h) n x).
    { intros n. node G6. node G5. node G4. node G3. node G2. node G1.
      rewrite (frame_reachable h h6 n x Hwf Hf Hx).
      rewrite !(reachable_parameter h6) by done.
      unfold recurrent. rewrite !elem_of_cons, elem_of_nil.
      intuition lia. }
    split; [done|]. split; [done|]. split; [lia|].
    split; [|split; [done|split]].
    + intros x0 ->%list_elem_of_singleton. apply Hiff. right. right.
      apply rtc_refl.
    + intros p Hp. apply Hiff. by right; left.
    + intros n [Hn|[Hn|Hn]]%Hiff; [left; lia|by right; left|].
      right. right. left. exists x. split; [by left|done].
  - step h7 G7. step h8 G8. step h9 G9. step h10 G10.
    eexists _, _. split; [reflexivity|].
    assert (Hiff : ∀ n, reachable (graph h10) n (next h9) ↔
              n ∈ [next h; next h1; next h2; next h3; next h6; next h7;
                   next h8; next h9] ∨
              n ∈ recurrent self ∨
              reachable (graph h) n x ∨ reachable (graph h) n a).
    { intros n. node G10. node G9. node G8. node G7. node G4. node G3.
      node G2. node G1.
      rewrite (frame_reachable h h10 n x Hwf Hf Hx).
      rewrite (frame_reachable h h10 n a Hwf Hf Ha).
      rewrite !(reachable_parameter h10) by done.
      unfold recurrent. rewrite !elem_of_cons, !elem_of_nil.
      intuition lia. }
    split; [done|]. split; [done|]. split; [lia|].
    split; [|split; [|split]].
    + intros x0 ->%list_elem_of_singleton. apply Hiff. right. right. left.
      apply rtc_refl.
    + intros a0 [= <-]. apply Hiff. right. right. right. apply rtc_refl.
    + intros p Hp. apply Hiff. by right; left.
    + intros n [Hn|[Hn|[Hn|Hn]]]%Hiff.
      * left. revert Hn. rewrite !elem_of_cons, elem_of_nil. lia.
      * by right; left.
      * right. right. left. exists x. split; [by left|done].
      * right. right. right. by exists a.
Qed.

Lemma language_loop_spec self xs :
  ∀ h flag ans,
    wf h → is_model h self → Forall (λ x, x < next h) xs →
    started h flag ans →
    ∃ h' flag' ans',
      loop self xs flag ans h = (h', Return (flag', ans')) ∧
      ((xs = [] ∧ h' = h ∧ flag' = flag ∧ ans' = ans) ∨
       (xs ≠ [] ∧ ∃ a', ans' = Some a' ∧ good self h xs ans h' a')).
Proof.
  induction xs as [|x xs IH]; intros h flag ans Hwf Hm Hxs Hst.
  - simpl. eexists _, _, _. split; [done|]. by left.
  - apply Forall_cons in Hxs as [Hx Hxs].
    destruct (language_body_spec self h x flag ans Hwf Hm Hx Hst)
      as (h1 & a1 & Eb & Hg1).
    simpl. rewrite Eb.
    pose proof Hg1 as (W1 & F1 & Ha1 & Hx1 & Hp1 & Hr1 & Hu1).
    destruct (IH h1 false (Some a1)) as (h' & flag' & ans' & El & Hcase).
    + done.
    + eapply Forall_impl; [exact Hm|]. intros p. by apply frame_parameter.
    + eapply Forall_impl; [exact Hxs|]. intros x0 Hx0. simpl in *.
      destruct F1 as [? _]. lia.
    + right. split; [done|]. by exists a1.
    + rewrite El. eexists _, _, _. split; [done|]. right. split; [done|].
      destruct Hcase as [(-> & -> & -> & ->)|(Hne & a' & -> & Hg')].
      { exists a1. split; [done|]. exact Hg1. }
      exists a'. split; [done|].
      destruct Hg' as (W' & F' & Ha' & Hx' & Hp' & Hr' & Hu').
      assert (Hup : ∀ k, reachable (graph h1) k a1 → reachable (graph h') k a').
      { intros k Hk. apply (frame_reachable h1 h' k a1 W1 F' Ha1) in Hk.
        unfold reachable in *. etrans; [exact Hk|]. by apply Hp'. }
      split; [done|]. split; [by eapply frame_trans|]. split; [done|].
      split.
      { intros x0 [->|Hin]%elem_of_cons; [|by apply Hx'].
        apply Hup, Hx1. by left. }
      split; [intros a Ea; by apply Hup, Hp1|].
      split; [done|].
      intros n Hn.
      destruct (Hu' n Hn) as [Hge|[Hrec|[(x0 & Hin & Hr0)|(a0 & [= <-] & Hr0)]]].
      * left. destruct F1 as [? _]. lia.
      * by right; left.
      * right. right. left. exists x0. split; [by right|].
        apply (frame_reachable h h1 n x0 Hwf F1); [|done].
        by apply (Forall_forall (λ x, x < next h) xs).
      * destruct (Hu1 n Hr0) as [?|[?|[(x0 & Hin & ?)|?]]]; auto.
        apply list_elem_of_singleton in Hin as ->.
        right. right. left. exists x. split; [by left|done].
Qed.

Lemma language_run_spec self xs h :
  wf h → is_model h self → Forall (λ x, x < next h) xs → xs ≠ [] →
  ∃ h' out,
    run self xs h = (h', Return out) ∧ wf h' ∧ frame h h' ∧ out < next h' ∧
    class_of h' !! out = Some nn_AddBias ∧
    (∀ x, x ∈ xs → reachable (graph h') x out) ∧
    (∀ p, p ∈ parameters self → reachable (graph h') p out) ∧
    (∀ n, reachable (graph h') n out →
          next h ≤ n ∨ n ∈ parameters self ∨
          ∃ x, x ∈ xs ∧ reachable (graph h) n x).
Proof.
  intros Hwf Hm Hxs Hne.
  destruct (language_loop_spec self xs h true None Hwf Hm Hxs) as
    (h1 & flag' & ans' & El & [[? _]|(_ & a' & -> & Hg)]);
    [by left|done|].
  destruct Hg as (W1 & F1 & Ha1 & Hx1 & _ & Hr1 & Hu1).
  unfold run. rewrite El.
  assert (Hm1 : Forall (is_parameter h1) (parameters self)).
  { eapply Forall_impl; [exact Hm|]. intros p. by apply frame_parameter. }
  unfold parameters in Hm1. rewrite !Forall_cons in Hm1.
  destruct Hm1 as (Hw & Hb0 & HwH & Hb1 & HwF & Hb2 & _).
  pose proof HwF as (? & _). pose proof Hb2 as (? & _).
  pose proof (frame_refl h1 W1) as Hf. pose proof F1 as [Hle1 _].
  step h2 G2. step h3 G3. step h4 G4.
  eexists _, _. split; [reflexivity|].
  assert (Hiff : ∀ n, reachable (graph h4) n (next h3) ↔
            n ∈ [next h1; next h2; next h3; wFinal self; b2 self] ∨
            reachable (graph h1) n a').
  { intros n. node G4. node G3. node G2.
    rewrite (frame_reachable h1 h4 n a' W1 Hf Ha1).
    rewrite !(reachable_parameter h4) by done.
    rewrite !elem_of_cons, !elem_of_nil. intuition lia. }
  split; [done|]. split; [exact F1|]. split; [lia|].
  split; [done|]. split; [|split].
  - intros x Hx. apply Hiff. right. by apply Hx1.
  - intros p Hp. apply Hiff. unfold parameters in Hp.
    rewrite !elem_of_cons, elem_of_nil in Hp.
    rewrite !elem_of_cons, elem_of_nil.
    destruct Hp as [->|[->|[->|[->|[->|[->|[]]]]]]];
      try (right; apply Hr1; unfold recurrent; rewrite !elem_of_cons;
           by auto);
      left; auto 10.
  - intros n [Hn|Hn]%Hiff.
    + rewrite !elem_of_cons, elem_of_nil in Hn.
      unfold parameters. rewrite !elem_of_cons.
      destruct Hn as [->|[->|[->|[->|[->|[]]]]]]; auto 10 with lia.
    + destruct (Hu1 n Hn) as [?|[Hrec|[?|(? & ? & _)]]]; [auto|
        |auto|done].
      right. left. revert Hrec. unfold recurrent, parameters.
      rewrite !elem_of_cons, !elem_of_nil. tauto.
Qed.

Lemma language_init_spec h :
  wf h →
  wf (init h).1 ∧ is_model (init h).1 (init h).2 ∧
  NoDup (parameters (init h).2).
Proof.
  intros W0.
  destruct (new_parameter h W0) as (W1 & P1 & N1 & T1).
  set (h1 := (new nn_Parameter [] h).1) in *.
  destruct (new_parameter h1 W1) as (W2 & P2 & N2 & T2).
  set (h2 := (new nn_Parameter [] h1).1) in *.
  destruct (new_parameter h2 W2) as (W3 & P3 & N3 & T3).
  set (h3 := (new nn_Parameter [] h2).1) in *.
  destruct (new_parameter h3 W3) as (W4 & P4 & N4 & T4).
  set (h4 := (new nn_Parameter [] h3).1) in *.
  destruct (new_parameter h4 W4) as (W5 & P5 & N5 & T5).
  set (h5 := (new nn_Parameter [] h4).1) in *.
  destruct (new_parameter h5 W5) as (W6 & P6 & N6 & T6).
  set (h6 := (new nn_Parameter [] h5).1) in *.
  change (init h).1 with h6.
  change (init h).2
    with (mkModel (next h) (next h1) (next h2) (next h3) (next h4) (next h5)).
  split; [done|]. split.
  { unfold is_model, parameters. simpl. rewrite !Forall_cons.
    split; [auto 10|]. split; [auto 10|]. split; [auto 10|].
    split; [auto|]. split; [auto|]. split; [auto|]. done. }
  unfold parameters. simpl. rewrite !NoDup_cons, !elem_of_cons, !elem_of_nil.
  split; [lia|]. split; [lia|]. split; [lia|]. split; [lia|].
  split; [lia|]. split; [tauto|]. apply NoDup_nil_2.
Qed.

Lemma language_sample_ok :
  wf sample_heap ∧ is_model sample_heap sample_model.
Proof.
  destruct (language_init_spec empty empty_wf) as (W0 & M0 & _).
  destruct (new_constant _ W0) as (W1 & _ & T1).
  destruct (new_constant _ W1) as (W2 & _ & T2).
  split; [exact W2|].
  eapply Forall_impl; [exact M0|]. intros p Hp. by apply T2, T1.
Qed.

End LanguageIDModel.

(** *** What the training loops do *)

(** [PerceptronModel.train] stops only on weights that classify every
    example of the data set as it is labelled; weights that do so from the
    start are returned after one pass without any update; and with an
    example whose label is neither 1 nor -1 in the data set the loop never
    ends. *)
Theorem perceptron_train_converged {W X : Type} (nonnegative : W → X → bool)
    (update : W → X → Z → W) (data : list (X * Z)) (passes : nat) (w : W) :
  (∀ w', PerceptronModel.train nonnegative update data passes w = Some w' →
     Forall (λ xy, PerceptronModel.get_prediction nonnegative w' xy.1 = xy.2)
       data) ∧
  (Forall (λ xy, PerceptronModel.get_prediction nonnegative w xy.1 = xy.2) data →
     PerceptronModel.train nonnegative update data (S passes) w = Some w) ∧
  ((∃ xy, xy ∈ data ∧ xy.2 ≠ 1%Z ∧ xy.2 ≠ (-1)%Z) →
     PerceptronModel.train nonnegative update data passes w = None).
Proof.
  split; [|split].
  - revert w. induction passes as [|n IH]; intros w w' H; [done|].
    simpl in H.
    destruct (PerceptronModel.pass nonnegative update data w true)
      as [w1 flag] eqn:E.
    destruct flag.
    + injection H as <-.
      by destruct (PerceptronModel.pass_true _ _ _ _ _ _ E) as (_ & -> & ?).
    + by apply (IH w1).
  - intros Hall. simpl.
    by rewrite (PerceptronModel.pass_clean nonnegative update data w Hall).
  - intros Hbad. revert w. induction passes as [|n IH]; intros w; [done|].
    simpl.
    pose proof (PerceptronModel.pass_stray nonnegative update data w true Hbad)
      as Hf.
    destruct (PerceptronModel.pass nonnegative update data w true)
      as [w1 flag].
    simpl in Hf. subst flag. apply IH.
Qed.

(** On the integer line, from the weight 0 and the examples (1, 1) and
    (-2, -1): the first pass updates the weight to 2, the second finds no
    mistake. *)
Example perceptron_train_line :
  PerceptronModel.train PerceptronModel.line_nonnegative
    PerceptronModel.line_update [(1, 1); (-2, -1)]%Z 1 0%Z = None ∧
  PerceptronModel.train PerceptronModel.line_nonnegative
    PerceptronModel.line_update [(1, 1); (-2, -1)]%Z 2 0%Z = Some 2%Z.
Proof. vm_compute. done. Qed.

(** [DigitClassificationModel.train] returns only when the validation
    accuracy is greater than 1.  With an accuracy that is a fraction of the
    validation set, so at most 1, it never returns: after any number of
    epochs it is still running, unless an epoch has raised. *)
Theorem digit_train_never_returns {St : Type} (epoch : St → St * result unit)
    (get_validation_accuracy : St → QArith_base.Q) (epochs : nat) (s : St) :
  (∀ s', QArith_base.Qle (get_validation_accuracy s') (QArith_base.Qmake 1 1)) →
  DigitClassificationModel.train epoch get_validation_accuracy epochs s = None ∨
  ∃ s' e, DigitClassificationModel.train epoch get_validation_accuracy epochs s
          = Some (s', Raise e).
Proof.
  intros Hacc. revert s. induction epochs as [|n IH]; intros s; [by left|].
  simpl. destruct (epoch s) as [s1 [[]|e]]; [|right; eauto].
  destruct (QArith_base.Qlt_le_dec _ _) as [Hlt|_]; [|apply IH].
  exfalso. eapply QArith_base.Qlt_not_le; [exact Hlt|apply Hacc].
Qed.

Lemma accuracy_at_most_one (n : nat) :
  QArith_base.Qle (QArith_base.Qmake (Z.of_nat n) (Pos.of_succ_nat n))
    (QArith_base.Qmake 1 1).
Proof. unfold QArith_base.Qle. simpl. lia. Qed.

Lemma digit_train_never_returns_witness :
  DigitClassificationModel.train (λ n : nat, (S n, Return tt))
    (λ n, QArith_base.Qmake (Z.of_nat n) (Pos.of_succ_nat n)) 50 0 = None ∨
  ∃ s' e, DigitClassificationModel.train (λ n : nat, (S n, Return tt))
            (λ n, QArith_base.Qmake (Z.of_nat n) (Pos.of_succ_nat n)) 50 0
          = Some (s', Raise e).
Proof.
  apply (digit_train_never_returns (λ n : nat, (S n, Return tt))
           (λ n, QArith_base.Qmake (Z.of_nat n) (Pos.of_succ_nat n)) 50 0).
  exact accuracy_at_most_one.
Defined.

(** *** What the models build *)

Import DigitClassificationModel.

(** [DigitClassificationModel.run] on an input node [x], for a model whose
    four attributes are parameter nodes (as [__init__] makes them, and as
    they still are after any number of calls): the call makes no parameter,
    leaves the model as it is, and returns an [nn.AddBias] node from which
    [trace_node] finds [x] and each of the four parameters; any other
    parameter in the trace was an ancestor of [x] before the call.  So with
    constants as inputs every call detects the same four parameters. *)
Theorem digit_run_trace (h : Heap) (self : model) (x depth : nat) :
  wf h → is_model h self → x < next h →
  size (graph (run self x h).1) < depth →
  let h' := (run self x h).1 in
  let out := (run self x h).2 in
  wf h' ∧ is_model h' self ∧ class_of h' !! out = Some nn_AddBias ∧
  ∃ trace,
    trace_node (graph h') depth out = Some trace ∧
    x ∈ trace ∧
    Forall (λ p, p ∈ trace) (parameters self) ∧
    ∀ n, n ∈ trace → class_of h' !! n = Some nn_Parameter →
         n ∈ parameters self ∨ reachable (graph h) n x.
Proof.
  intros Hwf Hm Hx Hd h' out.
  destruct (digit_run_spec h self x Hwf Hm Hx)
    as (W' & F' & M' & Hout & Hge & Hc & Hiff).
  fold h' out in W', F', M', Hout, Hge, Hc, Hiff.
  split; [done|]. split; [done|]. split; [done|].
  destruct (trace_node_reachable (graph h') out depth (wf_acyclic h' W') Hd)
    as (trace & Et & Htr).
  exists trace. split; [done|]. split; [|split].
  - apply Htr, Hiff. right. right. apply rtc_refl.
  - apply Forall_forall. intros p Hp. apply Htr, Hiff. by right; left.
  - intros n Hn Hcn. apply Htr, Hiff in Hn as [[Hn _]|[?|?]];
      [|by left|by right].
    destruct F' as (_ & _ & Hnew). by destruct (Hnew n Hn).
Qed.

Lemma digit_run_trace_witness :
  let h' := (run sample_model 4 sample_heap).1 in
  let out := (run sample_model 4 sample_heap).2 in
  wf h' ∧ is_model h' sample_model ∧ class_of h' !! out = Some nn_AddBias ∧
  ∃ trace,
    trace_node (graph h') 20 out = Some trace ∧
    4 ∈ trace ∧
    Forall (λ p, p ∈ trace) (parameters sample_model) ∧
    ∀ n, n ∈ trace → class_of h' !! n = Some nn_Parameter →
         n ∈ parameters sample_model ∨ reachable (graph sample_heap) n 4.
Proof.
  apply (digit_run_trace sample_heap sample_model 4 20
           (proj1 digit_sample_ok) (proj2 digit_sample_ok)).
  - vm_compute. lia.
  - vm_compute. lia.
Defined.

(** [DigitClassificationModel.get_loss] on input nodes [x] and [y], for
    such a model: the call makes no parameter, leaves the model as it is,
    and returns an [nn.SoftmaxLoss] node from which [trace_node] finds [x],
    [y] and each of the four parameters of [run]; any other parameter in the
    trace was an ancestor of [x] or of [y] before the call. *)
Theorem digit_get_loss_trace (h : Heap) (self : model) (x y depth : nat) :
  wf h → is_model h self → x < next h → y < next h →
  size (graph (get_loss self x y h).1) < depth →
  let h' := (get_loss self x y h).1 in
  let loss := (get_loss self x y h).2 in
  wf h' ∧ is_model h' self ∧ class_of h' !! loss = Some nn_SoftmaxLoss ∧
  ∃ trace,
    trace_node (graph h') depth loss = Some trace ∧
    x ∈ trace ∧ y ∈ trace ∧
    Forall (λ p, p ∈ trace) (parameters self) ∧
    ∀ n, n ∈ trace → class_of h' !! n = Some nn_Parameter →
         n ∈ parameters self ∨ reachable (graph h) n x ∨
         reachable (graph h) n y.
Proof.
  intros Hwf Hm Hx Hy.
  destruct (digit_run_spec h self x Hwf Hm Hx)
    as (W1 & F1 & M1 & Hout & Hge & Hc & Hiff).
  unfold get_loss. destruct (run self x h) as [h1 out]. simpl in *.
  pose proof F1 as (Hle & _ & _).
  assert (W2 : wf (new nn_SoftmaxLoss [out; y] h1).1).
  { apply new_wf; [done|]. intros p. rewrite !elem_of_cons, elem_of_nil.
    lia. }
  assert (F2 : frame h1 (new nn_SoftmaxLoss [out; y] h1).1)
    by (by apply new_frame).
  assert (G : graph (new nn_SoftmaxLoss [out; y] h1).1 !! next h1
              = Some [out; y]) by (simpl; by rewrite lookup_insert_eq).
  assert (C : class_of (new nn_SoftmaxLoss [out; y] h1).1 !! next h1
              = Some nn_SoftmaxLoss) by (simpl; by rewrite lookup_insert_eq).
  set (h2 := (new nn_SoftmaxLoss [out; y] h1).1) in *.
  change (new nn_SoftmaxLoss [out; y] h1).2 with (next h1).
  pose proof (frame_trans _ _ _ F1 F2) as F.
  intros Hd. simpl. split; [done|]. split.
  { eapply Forall_impl; [exact Hm|]. intros p. by apply frame_parameter. }
  split; [done|].
  destruct (trace_node_reachable (graph h2) (next h1) depth
              (wf_acyclic h2 W2) Hd) as (trace & Et & Htr).
  assert (Hl : ∀ n, reachable (graph h2) n (next h1) ↔
                    n = next h1 ∨ reachable (graph h1) n out ∨
                    reachable (graph h) n y).
  { intros n. node G.
    rewrite (frame_reachable h1 h2 n out W1 F2 Hout).
    rewrite (frame_reachable h h2 n y Hwf F Hy). tauto. }
  exists trace. split; [done|]. split; [|split; [|split]].
  - apply Htr, Hl. right. left. apply Hiff. right. right. apply rtc_refl.
  - apply Htr, Hl. right. right. apply rtc_refl.
  - apply Forall_forall. intros p Hp. apply Htr, Hl. right. left.
    apply Hiff. by right; left.
  - intros n Hn Hcn. destruct F as (_ & _ & Hnew).
    apply Htr, Hl in Hn as [->|[Hn|?]]; [|
      |by right; right].
    + destruct (Hnew (next h1)); [lia|done].
    + apply Hiff in Hn as [[Hn _]|[?|?]]; [|by left|by right; left].
      by destruct (Hnew n Hn).
Qed.

Lemma digit_get_loss_trace_witness :
  let h' := (get_loss sample_model 4 5 sample_heap).1 in
  let loss := (get_loss sample_model 4 5 sample_heap).2 in
  wf h' ∧ is_model h' sample_model ∧
  class_of h' !! loss = Some nn_SoftmaxLoss ∧
  ∃ trace,
    trace_node (graph h') 20 loss = Some trace ∧
    4 ∈ trace ∧ 5 ∈ trace ∧
    Forall (λ p, p ∈ trace) (parameters sample_model) ∧
    ∀ n, n ∈ trace → class_of h' !! n = Some nn_Parameter →
         n ∈ parameters sample_model ∨ reachable (graph sample_heap) n 4 ∨
         reachable (graph sample_heap) n 5.
Proof.
  apply (digit_get_loss_trace sample_heap sample_model 4 5 20
           (proj1 digit_sample_ok) (proj2 digit_sample_ok)).
  - vm_compute. lia.
  - vm_compute. lia.
  - vm_compute. lia.
Defined.

(** [LanguageIDModel.run] on the empty list raises [UnboundLocalError],
    before any node is made: the local [ans] is read without ever having
    been assigned.  On a list of at least one input node it returns a node
    from which [trace_node] finds every input of the list and each of the
    six parameters of the model; it makes no parameter, and any other
    parameter in the trace was an ancestor of an input before the call. *)
Theorem language_run_trace (h : Heap) (self : LanguageIDModel.model)
    (xs : list nat) (depth : nat) :
  wf h → LanguageIDModel.is_model h self → Forall (λ x, x < next h) xs →
  (xs = [] →
     LanguageIDModel.run self xs h
       = (h, Raise LanguageIDModel.UnboundLocalError)) ∧
  (xs ≠ [] →
     ∃ h' out,
       LanguageIDModel.run self xs h = (h', Return out) ∧
       wf h' ∧ LanguageIDModel.is_model h' self ∧
       (size (graph h') < depth →
        ∃ trace,
          trace_node (graph h') depth out = Some trace ∧
          Forall (λ x, x ∈ trace) xs ∧
          Forall (λ p, p ∈ trace) (LanguageIDModel.parameters self) ∧
          ∀ n, n ∈ trace → class_of h' !! n = Some nn_Parameter →
               n ∈ LanguageIDModel.parameters self ∨
               ∃ x, x ∈ xs ∧ reachable (graph h) n x)).
Proof.
  intros Hwf Hm Hxs. split; [by intros ->|]. intros Hne.
  destruct (LanguageIDModel.language_run_spec self xs h Hwf Hm Hxs Hne)
    as (h' & out & E & W' & F' & Hout & _ & Hx & Hp & Hu).
  exists h', out. split; [done|]. split; [done|]. split.
  { eapply Forall_impl; [exact Hm|]. intros p. by apply frame_parameter. }
  intros Hd.
  destruct (trace_node_reachable (graph h') out depth (wf_acyclic h' W') Hd)
    as (trace & Et & Htr).
  exists trace. split; [done|]. split; [|split].
  - apply Forall_forall. intros x Hin. by apply Htr, Hx.
  - apply Forall_forall. intros p Hin. by apply Htr, Hp.
  - intros n Hn Hc. apply Htr, Hu in Hn as [Hge|[?|?]]; [|by left|by right].
    destruct F' as (_ & _ & Hnew). by destruct (Hnew n Hge).
Qed.

Lemma language_run_trace_witness :
  ([6; 7] = [] →
     LanguageIDModel.run LanguageIDModel.sample_model [6; 7]
       LanguageIDModel.sample_heap
       = (LanguageIDModel.sample_heap,
          Raise LanguageIDModel.UnboundLocalError)) ∧
  ([6; 7] ≠ [] →
     ∃ h' out,
       LanguageIDModel.run LanguageIDModel.sample_model [6; 7]
         LanguageIDModel.sample_heap = (h', Return out) ∧
       wf h' ∧ LanguageIDModel.is_model h' LanguageIDModel.sample_model ∧
       (size (graph h') < 40 →
        ∃ trace,
          trace_node (graph h') 40 out = Some trace ∧
          Forall (λ x, x ∈ trace) [6; 7] ∧
          Forall (λ p, p ∈ trace)
            (LanguageIDModel.parameters LanguageIDModel.sample_model) ∧
          ∀ n, n ∈ trace → class_of h' !! n = Some nn_Parameter →
               n ∈ LanguageIDModel.parameters LanguageIDModel.sample_model ∨
               ∃ x, x ∈ [6; 7] ∧
                    reachable (graph LanguageIDModel.sample_heap) n x)).
Proof.
  apply (language_run_trace LanguageIDModel.sample_heap
           LanguageIDModel.sample_model [6; 7] 40
           (proj1 LanguageIDModel.language_sample_ok)
           (proj2 LanguageIDModel.language_sample_ok)).
  rewrite !Forall_cons. split; [vm_compute; lia|].
  split; [vm_compute; lia|]. apply Forall_nil_2.
Defined.

End Models.
